(** * Stream de-obfuscation engine of lobster (package [extract])

    A shallow embedding of [internal/extract/decrypt.go],
    [internal/extract/clientkey.go] and, of
    [internal/extract/megacloud.go], the source selection and the subtitle
    tracks of [Extract], [parseEmbedURL] and [getMegacloudKey], with the
    properties of the specification stated and settled over it, and
    further properties of the code after them.

    Conventions of the embedding
    - a Go [string] and a Go [[]byte] are a [list ascii] (a sequence of
      8-bit bytes); [str "..."] turns a literal into such a sequence;
    - Go [int], [rune], [uint64] and [*big.Int] values are [Z]; the
      wrap-around of [uint64] arithmetic and the truncation of [byte(x)]
      are written out;
    - a Go [map] is a stdpp [gmap]; a slice updated by index is a list with
      stdpp's [<[i:=x]>];
    - a run-time panic is the [Panics] outcome of the [outcome] type;
    - the network is a function from the number of a request to its reply,
      and a call that can send a request passes the count of requests sent
      along with the state. *)

From Stdlib Require Import ZArith Lia List Ascii String Permutation DecimalString FinFun.
From stdpp Require Import base option list gmap strings sorting.

Local Open Scope Z_scope.
Local Open Scope list_scope.

(** ** Bytes and strings *)

Definition str (s : string) : list ascii := list_ascii_of_string s.

(** The numeric value of a byte, and the conversion [byte(x)] of an integer,
    which keeps the low eight bits. *)
Definition byteval (c : ascii) : Z := Z.of_N (N_of_ascii c).
Definition mkbyte (z : Z) : ascii := ascii_of_N (Z.to_N (z mod 256)).

#[global] Instance ascii_inhabited : Inhabited ascii := populate "000"%char.

(** [len(s)] as a Go [int]. *)
Definition len {A} (l : list A) : Z := Z.of_nat (length l).

(** ** Panics *)

Inductive panic : Type :=
| DivideByZero    (* runtime error: integer divide by zero *)
| SliceBounds.    (* runtime error: slice bounds out of range *)

Inductive outcome (A : Type) : Type :=
| Returns (a : A)
| Panics (p : panic).
Arguments Returns {A} a.
Arguments Panics {A} p.

(** [outcome] is a monad; stdpp's [x ← m; k] sequences two steps and
    stops at the first panic. *)
#[global] Instance outcome_ret : MRet outcome := fun _ a => Returns a.
#[global] Instance outcome_bind : MBind outcome := fun _ _ k m =>
  match m with
  | Returns a => k a
  | Panics p => Panics p
  end.

(** ** UTF-8, as the Go runtime decodes and encodes it

    [for i, ch := range s], [[]rune(s)] and [string(runes)] go through the
    UTF-8 decoder and encoder of the runtime: an invalid or truncated
    sequence decodes to [RuneError] with width one. *)
Module Utf8.

Definition RuneError : Z := 0xFFFD.

(** Continuation byte within [lo, hi]. *)
Definition accept (lo hi : Z) (c : ascii) : bool :=
  (lo <=? byteval c) && (byteval c <=? hi).

Definition cont (c : ascii) : Z := Z.land (byteval c) 0x3F.

(** Size and accepted range of the second byte for a leading byte; [None]
    for a byte that cannot start a multi-byte sequence. *)
Definition first (s0 : Z) : option (nat * Z * Z) :=
  if s0 <? 0xC2 then None
  else if s0 <=? 0xDF then Some (2%nat, 0x80, 0xBF)
  else if s0 =? 0xE0 then Some (3%nat, 0xA0, 0xBF)
  else if s0 =? 0xED then Some (3%nat, 0x80, 0x9F)
  else if s0 <=? 0xEF then Some (3%nat, 0x80, 0xBF)
  else if s0 =? 0xF0 then Some (4%nat, 0x90, 0xBF)
  else if s0 <=? 0xF3 then Some (4%nat, 0x80, 0xBF)
  else if s0 =? 0xF4 then Some (4%nat, 0x80, 0x8F)
  else None.

(** [utf8.DecodeRuneInString]: the rune at the head of [s] and its width. *)
Definition decodeRune (s : list ascii) : Z * nat :=
  match s with
  | [] => (RuneError, 0%nat)
  | c0 :: t =>
    let s0 := byteval c0 in
    if s0 <? 0x80 then (s0, 1%nat)
    else match first s0 with
    | None => (RuneError, 1%nat)
    | Some (sz, lo, hi) =>
      match t with
      | [] => (RuneError, 1%nat)
      | c1 :: t1 =>
        if negb (accept lo hi c1) then (RuneError, 1%nat)
        else if (sz <=? 2)%nat
        then (Z.lor (Z.shiftl (Z.land s0 0x1F) 6) (cont c1), 2%nat)
        else match t1 with
        | [] => (RuneError, 1%nat)
        | c2 :: t2 =>
          if negb (accept 0x80 0xBF c2) then (RuneError, 1%nat)
          else if (sz <=? 3)%nat
          then (Z.lor (Z.lor (Z.shiftl (Z.land s0 0x0F) 12)
                             (Z.shiftl (cont c1) 6)) (cont c2), 3%nat)
          else match t2 with
          | [] => (RuneError, 1%nat)
          | c3 :: _ =>
            if negb (accept 0x80 0xBF c3) then (RuneError, 1%nat)
            else (Z.lor (Z.lor (Z.lor (Z.shiftl (Z.land s0 0x07) 18)
                                      (Z.shiftl (cont c1) 12))
                               (Z.shiftl (cont c2) 6)) (cont c3), 4%nat)
          end
        end
      end
    end
  end.

(** [for i, ch := range s]: one entry per byte index [i] of [s], [Some ch]
    where a rune starts and [None] on the bytes the previous rune covers.
    [skip] counts the bytes still covered by the rune decoded last. *)
Fixpoint rangeFrom (skip : nat) (s : list ascii) : list (option Z) :=
  match s with
  | [] => []
  | _ :: t =>
    match skip with
    | S k => None :: rangeFrom k t
    | O => Some (fst (decodeRune s)) :: rangeFrom (Nat.pred (snd (decodeRune s))) t
    end
  end.

Definition range (s : list ascii) : list (option Z) := rangeFrom 0 s.

(** [[]rune(s)]. *)
Definition runes (s : list ascii) : list Z := omap id (range s).

Definition enc3 (r : Z) : list ascii :=
  [mkbyte (Z.lor 0xE0 (Z.shiftr r 12));
   mkbyte (Z.lor 0x80 (Z.land (Z.shiftr r 6) 0x3F));
   mkbyte (Z.lor 0x80 (Z.land r 0x3F))].

(** [utf8.AppendRune]: [string(r)] for one rune. *)
Definition encodeRune (r : Z) : list ascii :=
  if r <? 0 then enc3 RuneError
  else if r <=? 0x7F then [mkbyte r]
  else if r <=? 0x7FF then
    [mkbyte (Z.lor 0xC0 (Z.shiftr r 6)); mkbyte (Z.lor 0x80 (Z.land r 0x3F))]
  else if (0x10FFFF <? r) || ((0xD800 <=? r) && (r <=? 0xDFFF))
  then enc3 RuneError
  else if r <=? 0xFFFF then enc3 r
  else [mkbyte (Z.lor 0xF0 (Z.shiftr r 18));
        mkbyte (Z.lor 0x80 (Z.land (Z.shiftr r 12) 0x3F));
        mkbyte (Z.lor 0x80 (Z.land (Z.shiftr r 6) 0x3F));
        mkbyte (Z.lor 0x80 (Z.land r 0x3F))].

(** [string(rs)] for a slice of runes. *)
Definition ofRunes (rs : list Z) : list ascii := flat_map encodeRune rs.

End Utf8.

(** ** [atob]: the lenient base64 decoder (decrypt.go, lines 276-329) *)

Definition base64Chars : list ascii :=
  str "ABCDEFGHIJKLMNOPQRSTUVWXYZabcdefghijklmnopqrstuvwxyz0123456789+/".

(** [for i, c := range cs { m[key c] = val i c }]: the map a loop of
    insertions builds, a later insertion overwriting an earlier one. *)
Definition buildMap {A K V} `{Countable K}
    (key : A → K) (val : nat → A → V) (cs : list A) : gmap K V :=
  foldl (fun m (ic : nat * A) => <[key ic.2 := val ic.1 ic.2]> m) ∅ (imap pair cs).

Definition atobLookup : gmap ascii Z :=
  buildMap (fun c => c) (fun i _ => Z.of_nat i) base64Chars.

(** The bytes kept by the first loop: everything but '=', newline, carriage
    return and space, each rune truncated to a byte. *)
Definition keptRune (c : Z) : bool :=
  negb (c =? 61) && negb (c =? 10) && negb (c =? 13) && negb (c =? 32).

Definition atobStrip (s : list ascii) : list ascii :=
  mkbyte <$> filter (fun c => keptRune c = true) (Utf8.runes s).

(** [for len(encoded)%4 != 0 { encoded = append(encoded, '=') }]; the loop
    body runs at most three times. *)
Fixpoint atobPad (fuel : nat) (encoded : list ascii) : list ascii :=
  match fuel with
  | O => encoded
  | S f =>
    if len encoded mod 4 =? 0 then encoded
    else atobPad f (encoded ++ ["="%char])
  end.

(** One iteration of the inner loop over [j]: the value stored in [vals[j]]
    and whether [count] is set to [j+1]. *)
Definition atobVal (encoded : list ascii) (ij : nat) : Z * bool :=
  match encoded !! ij with
  | None => (0, false)                     (* i+j < len(encoded) fails *)
  | Some c =>
    if decide (c = "="%char) then (0, false)
    else match atobLookup !! c with
         | None => (0, false)
         | Some v => (v, true)
         end
  end.

(** The final value of [count] after the loop over [j = 0..3]. *)
Definition atobCount (oks : list bool) : Z :=
  foldl (fun count (jo : nat * bool) => if jo.2 then Z.of_nat jo.1 + 1 else count) 0
        (imap pair oks).

(** The body of the outer loop for the group starting at index [i]. *)
Definition atobGroup (encoded : list ascii) (i : nat) : list ascii :=
  let v := fun j => atobVal encoded (i + j) in
  let vals := fun j => (v j).1 in
  let count := atobCount [(v 0%nat).2; (v 1%nat).2; (v 2%nat).2; (v 3%nat).2] in
  (if 2 <=? count
   then [mkbyte (Z.lor (Z.shiftl (vals 0%nat) 2) (Z.shiftr (vals 1%nat) 4))]
   else []) ++
  (if 3 <=? count
   then [mkbyte (Z.lor (Z.shiftl (Z.land (vals 1%nat) 0xf) 4)
                       (Z.shiftr (vals 2%nat) 2))]
   else []) ++
  (if 4 <=? count
   then [mkbyte (Z.lor (Z.shiftl (Z.land (vals 2%nat) 0x3) 6) (vals 3%nat))]
   else []).

(** The outer loop [for i := 0; i < len(encoded); i += 4]. *)
Definition atobGroups (encoded : list ascii) : list ascii :=
  flat_map (fun k => atobGroup encoded (4 * k))
           (seq 0 ((length encoded + 3) / 4)).

Definition atob (s : list ascii) : list ascii :=
  atobGroups (atobPad 3 (atobStrip s)).

(** ** Helpers of the Go runtime and library *)

(** [s[lo:hi]] on a string: panics unless [0 <= lo <= hi <= len(s)]. *)
Definition slice (s : list ascii) (lo hi : Z) : outcome (list ascii) :=
  if (0 <=? lo) && (lo <=? hi) && (hi <=? len s)
  then Returns (take (Z.to_nat (hi - lo)) (drop (Z.to_nat lo) s))
  else Panics SliceBounds.

(** [l[i], l[j] = l[j], l[i]]. Every call site has both indices in range;
    out of range, where Go would panic, the list is left as it is. *)
Definition swap {A} (i j : nat) (l : list A) : list A :=
  match l !! i, l !! j with
  | Some x, Some y => <[j := x]> (<[i := y]> l)
  | _, _ => l
  end.

(** [strconv.Itoa]. *)
Definition Itoa (n : Z) : list ascii := str (NilZero.string_of_int (Z.to_int n)).

(** [strconv.Atoi]: an optional sign, then one or more decimal digits and
    nothing else; [None] is the error result (syntax or range). *)
Definition atoiDigit (acc : option Z) (ch : ascii) : option Z :=
  match acc with
  | None => None
  | Some n =>
    let d := byteval ch - 48 in
    if (0 <=? d) && (d <=? 9) then Some (n * 10 + d) else None
  end.

Definition Atoi (s : list ascii) : option Z :=
  let '(neg, ds) :=
    match s with
    | c :: t => if decide (c = "-"%char) then (true, t)
                else if decide (c = "+"%char) then (false, t)
                else (false, s)
    | [] => (false, s)
    end in
  match ds with
  | [] => None
  | _ =>
    match foldl atoiDigit (Some 0) ds with
    | None => None
    | Some n =>
      let n := if (neg : bool) then - n else n in
      if (- 2 ^ 63 <=? n) && (n <? 2 ^ 63) then Some n else None
    end
  end.

(** [strings.Contains]. *)
Fixpoint hasPrefix (s prefix : list ascii) : bool :=
  match prefix, s with
  | [], _ => true
  | p :: ps, c :: cs => if decide (p = c) then hasPrefix cs ps else false
  | _ :: _, [] => false
  end.

Fixpoint Contains (s substr : list ascii) : bool :=
  hasPrefix s substr ||
  match s with
  | [] => false
  | _ :: t => Contains t substr
  end.

(** ** [reverseString] (decrypt.go, lines 331-338) *)

(** [for i, j := 0, len(runes)-1; i < j; i, j = i+1, j-1 { swap }]; the loop
    runs at most [len(runes)/2] times. For an empty slice [j] starts at -1
    and the body never runs. *)
Fixpoint reverseLoop (fuel : nat) (i j : Z) (runes : list Z) : list Z :=
  match fuel with
  | O => runes
  | S f =>
    if i <? j
    then reverseLoop f (i + 1) (j - 1) (swap (Z.to_nat i) (Z.to_nat j) runes)
    else runes
  end.

Definition reverseString (s : list ascii) : list ascii :=
  let runes := Utf8.runes s in
  Utf8.ofRunes (reverseLoop (length runes) 0 (len runes - 1) runes).

(** ** [keygen2] (decrypt.go, lines 108-185) *)

Definition keygenXORVal : Z := 247.
Definition keygenShiftVal : Z := 5.

(** The arbitrary-precision hash: [hashVal = charCode + hashVal*31 +
    (hashVal << 7) - hashVal] over the bytes of [tempKey]. *)
Definition keygenHash (tempKey : list ascii) : Z :=
  foldl (fun oldHash c =>
           byteval c + oldHash * 31 + Z.shiftl oldHash 7 - oldHash)
        0 tempKey.

(** [lHashInt]: the absolute value of the hash modulo [0x7fffffffffffffff]. *)
Definition keygenLHash (tempKey : list ascii) : Z :=
  let hashVal := keygenHash tempKey in
  let hashVal := if hashVal <? 0 then Z.abs hashVal else hashVal in
  let lHashInt := hashVal mod 0x7fffffffffffffff in
  if lHashInt <? 0 then - lHashInt else lHashInt.

(** The body of the interleaving loop at index [i]: the byte [a[i]] when
    there is one, then the byte [b[i]] when there is one. *)
Definition interleaveStep (a b : list ascii) (returnKey : list ascii) (i : nat)
    : list ascii :=
  let returnKey :=
    match a !! i with Some c => returnKey ++ [c] | None => returnKey end in
  match b !! i with Some c => returnKey ++ [c] | None => returnKey end.

(** [for i := 0; i < maxLen; i++] with [maxLen] the longer of the lengths. *)
Definition interleave (a b : list ascii) : list ascii :=
  let maxLen := if (length a <? length b)%nat then length b else length a in
  foldl (interleaveStep a b) [] (seq 0 maxLen).

Definition keygen2 (megacloudKey clientKey : list ascii) : outcome (list ascii) :=
  let tempKey := megacloudKey ++ clientKey in
  let lHashInt := keygenLHash tempKey in
  let xored := (fun c => mkbyte (Z.lxor (byteval c) keygenXORVal)) <$> tempKey in
  let tempKeyStr := xored in
  (* lHashInt % int64(len(tempKeyStr)) *)
  if len tempKeyStr =? 0 then Panics DivideByZero else
  let pivot := Z.rem lHashInt (len tempKeyStr) + keygenShiftVal in
  let pivot := if len tempKeyStr <=? pivot then Z.rem pivot (len tempKeyStr)
               else pivot in
  back ← slice tempKeyStr pivot (len tempKeyStr);
  front ← slice tempKeyStr 0 pivot;
  let tempKeyStr := back ++ front in
  let leafStr := reverseString clientKey in
  let returnKey := interleave tempKeyStr leafStr in
  let limit := 96 + Z.rem lHashInt 33 in
  let limit := if len returnKey <? limit then len returnKey else limit in
  (* returnKey[:limit] on a byte slice, with limit <= len(returnKey) *)
  let returnKey := take (Z.to_nat limit) returnKey in
  Returns ((fun c => mkbyte (Z.rem (byteval c) 95 + 32)) <$> returnKey).

(** ** The seeded generator shared by [reverseLayer] and [seedShuffle2]

    Both closures ([seedRand], [pseudoRand]) update a captured [uint64]:
    [seed = (seed*1103515245 + 12345) & 0x7fffffff] and return
    [int(seed % uint64(arg))]. The state is passed explicitly. Every call
    has [arg > 0]. *)
Definition lcgNext (seed : Z) : Z :=
  Z.land ((seed * 1103515245 + 12345) mod 2 ^ 64) 0x7fffffff.

Definition seedRand (seed : Z) (arg : Z) : Z * Z :=
  (lcgNext seed, lcgNext seed mod arg).

(** ** [seedShuffle2] (decrypt.go, lines 187-212) *)

(** [hashVal = (hashVal*31 + uint64(iKey[i])) & 0xffffffff] in [uint64]. *)
Definition shuffleHash (iKey : list ascii) : Z :=
  foldl (fun hashVal c =>
           Z.land ((hashVal * 31 + byteval c) mod 2 ^ 64) 0xffffffff)
        0 iKey.

(** One iteration of the Fisher-Yates loop at index [i]. *)
Definition shuffleStep {A} (st : Z * list A) (i : nat) : Z * list A :=
  let '(shuffleNum, j) := seedRand st.1 (Z.of_nat i + 1) in
  (shuffleNum, swap i (Z.to_nat j) st.2).

(** [for i := len(result) - 1; i > 0; i--]. *)
Definition seedShuffle2 {A} (charArray : list A) (iKey : list ascii) : list A :=
  (foldl shuffleStep (shuffleHash iKey, charArray)
         (reverse (seq 1 (length charArray - 1)))).2.

(** ** [columnarCipher2] (decrypt.go, lines 214-273)

    Lengths and indices are natural numbers here: none of the integer
    expressions of the function can be negative. *)

Record keyIdx : Type := KeyIdx { char : ascii; idx : nat }.

(** The inner loop of the insertion sort:
    [for j > 0 && sortedMap[j].char < sortedMap[j-1].char { swap; j-- }]. *)
Fixpoint sortInner (j : nat) (sortedMap : list keyIdx) : list keyIdx :=
  match j with
  | O => sortedMap
  | S j' =>
    match sortedMap !! j, sortedMap !! j' with
    | Some a, Some b =>
      if byteval (char a) <? byteval (char b)
      then sortInner j' (swap j j' sortedMap)
      else sortedMap
    | _, _ => sortedMap
    end
  end.

(** [for i := 1; i < len(sortedMap); i++ { j := i; ... }]. *)
Definition insertionSort (keyMap : list keyIdx) : list keyIdx :=
  foldl (fun sortedMap i => sortInner i sortedMap) keyMap
        (seq 1 (length keyMap - 1)).

Definition keyMapOf (ikey : list ascii) : list keyIdx :=
  imap (fun i c => KeyIdx c i) ikey.

(** The body of the fill loop for one cell: when source bytes remain,
    [cipher[row][ki.idx] = src[srcIndex]; srcIndex++]. *)
Definition fillCell (src : list ascii)
    (st : list (list ascii) * nat) (cell : nat * nat) : list (list ascii) * nat :=
  let '(cipher, srcIndex) := st in
  match src !! srcIndex with
  | Some c => (alter (fun r => <[cell.2 := c]> r) cell.1 cipher, S srcIndex)
  | None => st
  end.

(** The cells in the order the two nested loops visit them: for every entry
    of [sortedMap], every row from the top. *)
Definition fillOrder (sortedMap : list keyIdx) (rowCount : nat) : list (nat * nat) :=
  ki ← sortedMap; (fun row => (row, idx ki)) <$> seq 0 rowCount.

Definition columnarCipher2 (src ikey : list ascii) : list ascii :=
  let columnCount := length ikey in
  if decide (columnCount = 0%nat) then src else
  let rowCount := ((length src + columnCount - 1) / columnCount)%nat in
  let cipher := replicate rowCount (replicate columnCount " "%char) in
  let sortedMap := insertionSort (keyMapOf ikey) in
  let cipher := (foldl (fillCell src) (cipher, 0%nat) (fillOrder sortedMap rowCount)).1 in
  row ← seq 0 rowCount; (fun col => (cipher !!! row) !!! col) <$> seq 0 columnCount.

(** ** [reverseLayer] (decrypt.go, lines 40-106) *)

(** The seed: a 32-bit polynomial hash of the layer key, computed with
    [big.Int] and masked after every step. *)
Definition layerSeed (layerKey : list ascii) : Z :=
  foldl (fun hashVal c => Z.land (hashVal * 31 + byteval c) 0xffffffff)
        0 layerKey.

(** [[]rune(s)[0]] for the one-rune strings of [charArray]; the bounds
    checks of this expression and of [charArray[newIdx]] are spelled out
    after [reverseLayer]. *)
Definition firstRune (s : list ascii) : Z := default 0 (head (Utf8.runes s)).

(** The shift loop over the runes of the text; [seed] is the captured state
    of [seedRand]. *)
Fixpoint shiftLoop (charArray : list (list ascii)) (charIndex : gmap (list ascii) Z)
    (seed : Z) (runes : list Z) : list Z :=
  match runes with
  | [] => []
  | ch :: rest =>
    match charIndex !! Utf8.encodeRune ch with
    | None => ch :: shiftLoop charArray charIndex seed rest
    | Some cIdx =>
      let '(seed', randNum) := seedRand seed 95 in
      let newIdx := Z.rem (cIdx - randNum + 95) 95 in
      firstRune (charArray !!! Z.to_nat newIdx)
        :: shiftLoop charArray charIndex seed' rest
    end
  end.

(** The substitution loop [for i, ch := range decSrc]: [result] has one
    rune per byte of [decSrc], left at zero where no rune starts. *)
Definition substLoop (charMap : gmap (list ascii) (list ascii))
    (decSrc : list ascii) : list Z :=
  (fun o : option Z =>
     match o with
     | None => 0
     | Some ch =>
       match charMap !! Utf8.encodeRune ch with
       | Some replacement => firstRune replacement
       | None => ch
       end
     end) <$> Utf8.range decSrc.

(** [charIndex]: [for i, c := range charArray { charIndex[c] = i }]. *)
Definition charIndexOf (charArray : list (list ascii)) : gmap (list ascii) Z :=
  buildMap (fun c => c) (fun i _ => Z.of_nat i) charArray.

(** [charMap]: [for i, ch := range subValues { charMap[ch] = charArray[i] }]. *)
Definition charMapOf (charArray subValues : list (list ascii))
    : gmap (list ascii) (list ascii) :=
  buildMap (fun ch => ch) (fun i _ => charArray !!! i) subValues.

Definition reverseLayer (decSrc genKey : list ascii) (iteration : Z)
    (charArray : list (list ascii)) : list ascii :=
  let layerKey := genKey ++ Itoa iteration in
  let seed := layerSeed layerKey in
  let charIndex := charIndexOf charArray in
  let shifted := shiftLoop charArray charIndex seed (Utf8.runes decSrc) in
  let decSrc := Utf8.ofRunes shifted in
  let decSrc := columnarCipher2 decSrc layerKey in
  let subValues := seedShuffle2 charArray layerKey in
  let charMap := charMapOf charArray subValues in
  Utf8.ofRunes (substLoop charMap decSrc).

(** ** The index expressions of [reverseLayer], with their run-time checks

    [reverseLayer] indexes [charArray[newIdx]] in the shift loop and takes
    [[]rune(s)[0]] of an entry of [charArray] in both loops. [decryptSrc2]
    passes the 95 one-rune strings of its own [charArray], for which both
    expressions are in range, and the definitions above read them without
    a check. For any other [charArray] the definitions below spell the
    checks out: [None] is the run-time panic [index out of range]. In
    [charMap[ch] = charArray[i]] the index is below [len(subValues)], which
    is [len(charArray)]. *)






(** ** [decryptSrc2] (decrypt.go, lines 8-38) *)

Definition layers : nat := 3.

(** [charArray[i] = string(rune(32 + i))] for [i] below 95. *)
Definition charArray : list (list ascii) :=
  (fun i => Utf8.encodeRune (32 + Z.of_nat i)) <$> seq 0 95.

(** [for i := layers; i > 0; i-- { decSrc = reverseLayer(decSrc, genKey, i, charArray) }]. *)
Fixpoint layersLoop (i : nat) (genKey decSrc : list ascii) : list ascii :=
  match i with
  | O => decSrc
  | S i' => layersLoop i' genKey (reverseLayer decSrc genKey (Z.of_nat i) charArray)
  end.

(** The framing of lines 29-37: a four-byte decimal length, then the data. *)
Definition unframe (decSrc : list ascii) : outcome (list ascii) :=
  if len decSrc <? 4 then Returns [] else
  prefix ← slice decSrc 0 4;
  match Atoi prefix with
  | None => Returns []
  | Some dataLen =>
    if len decSrc <? 4 + dataLen then Returns []
    else slice decSrc 4 (4 + dataLen)
  end.

Definition decryptSrc2 (src clientKey megacloudKey : list ascii) : outcome (list ascii) :=
  genKey ← keygen2 megacloudKey clientKey;
  let decSrc := atob src in
  let decSrc := layersLoop layers genKey decSrc in
  unframe decSrc.

(** ** Regular expressions, as [clientkey.go] uses them

    Every pattern of the file is a sequence of single characters and
    character classes, each optionally under [+] or [*]. [regexp] matches
    leftmost-first: the match starts as early as possible and is the one a
    backtracking search finds first, greedy operators trying the longest
    repetition first. The patterns start with an ASCII character and the
    only class that accepts a byte above 127 is [[^>]], which is followed
    by an ASCII character, so matching bytes and matching runes agree. *)

Definition dquote : ascii := "034"%char.
Definition squote : ascii := "039"%char.
Definition bquote : ascii := "096"%char.

Inductive cls : Type :=
| Lit (c : ascii)              (* one literal character *)
| Alnum                        (* [a-zA-Z0-9] *)
| Space                        (* \s, which is [\t\n\f\r ] *)
| OneOf (cs : list ascii)      (* [...] *)
| NoneOf (cs : list ascii).    (* [^...] *)

Definition isAlnum (c : ascii) : bool :=
  let v := byteval c in
  ((97 <=? v) && (v <=? 122)) || ((65 <=? v) && (v <=? 90)) ||
  ((48 <=? v) && (v <=? 57)).

Definition isSpace (c : ascii) : bool :=
  let v := byteval c in
  (v =? 9) || (v =? 10) || (v =? 12) || (v =? 13) || (v =? 32).

Definition clsMatch (k : cls) (c : ascii) : bool :=
  match k with
  | Lit c' => bool_decide (c = c')
  | Alnum => isAlnum c
  | Space => isSpace c
  | OneOf cs => bool_decide (c ∈ cs)
  | NoneOf cs => bool_decide (c ∉ cs)
  end.

Inductive item : Type :=
| One (k : cls)
| Plus (k : cls)
| Star (k : cls).

(** Greedy repetition of a class, then the rest of the pattern; one
    repetition is given back at a time when the rest fails. *)
Fixpoint matchStar (k : cls) (rest : list ascii → option (list ascii))
    (s : list ascii) : option (list ascii) :=
  match s with
  | c :: t =>
    if clsMatch k c then
      match matchStar k rest t with
      | Some m => Some (c :: m)
      | None => rest s
      end
    else rest s
  | [] => rest []
  end.

(** The text matched by [re] at the start of [s]. *)
Fixpoint matchHere (re : list item) (s : list ascii) : option (list ascii) :=
  match re with
  | [] => Some []
  | One k :: re' =>
    match s with
    | c :: t => if clsMatch k c then cons c <$> matchHere re' t else None
    | [] => None
    end
  | Plus k :: re' =>
    match s with
    | c :: t => if clsMatch k c then cons c <$> matchStar k (matchHere re') t else None
    | [] => None
    end
  | Star k :: re' => matchStar k (matchHere re') s
  end.

(** [Regexp.FindString]: the text of the leftmost match, empty when there
    is none. *)
Fixpoint FindString (re : list item) (s : list ascii) : list ascii :=
  match matchHere re s with
  | Some m => m
  | None =>
    match s with
    | [] => []
    | _ :: t => FindString re t
    end
  end.

Definition lit (s : string) : list item := (fun c => One (Lit c)) <$> str s.
Definition quoted (q : cls) (k : cls) : list item := [One q; Plus k; One q].

(** ** [extractClientKey] (clientkey.go, lines 9-89)

    In the comments that quote a pattern, Q stands for the double quote, S
    for the single quote and B for the backquote. *)

Definition anyQuote : cls := OneOf [dquote; squote].
Definition anyQuote3 : cls := OneOf [squote; dquote; bquote].
Definition xyz : cls := OneOf (str "xyz").

Definition lkDbField : list item :=
  [One xyz] ++ lit ":" ++ [Plus Space] ++ quoted anyQuote Alnum.

Definition patterns : list (list item) :=
  [ (* pattern 0, the meta tag: <meta name=Q_gg_fbQ content=Q[a-zA-Z0-9]+Q> *)
    lit "<meta name=" ++ [One (Lit dquote)] ++ lit "_gg_fb" ++ [One (Lit dquote)] ++
    lit " content=" ++ quoted (Lit dquote) Alnum ++ lit ">";
    (* pattern 1, the comment: <!--\s+_is_th:[0-9a-zA-Z]+\s+--> *)
    lit "<!--" ++ [Plus Space] ++ lit "_is_th:" ++ [Plus Alnum; Plus Space] ++ lit "-->";
    (* pattern 2, the object of three fields:
       <script>window\._lk_db\s+=\s+\{F,\s+F,\s+F\};</script>
       with F = [xyz]:\s+[QS][a-zA-Z0-9]+[QS] *)
    lit "<script>window._lk_db" ++ [Plus Space] ++ lit "=" ++ [Plus Space] ++ lit "{" ++
    lkDbField ++ lit "," ++ [Plus Space] ++ lkDbField ++ lit "," ++ [Plus Space] ++
    lkDbField ++ lit "};</script>";
    (* pattern 3, the div: <div\s+data-dpi=Q[0-9a-zA-Z]+Q\s+[^>]*></div> *)
    lit "<div" ++ [Plus Space] ++ lit "data-dpi=" ++ quoted (Lit dquote) Alnum ++
    [Plus Space; Star (NoneOf (str ">"))] ++ lit "></div>";
    (* pattern 4, the nonce: <script nonce=Q[0-9a-zA-Z]+Q> *)
    lit "<script nonce=" ++ quoted (Lit dquote) Alnum ++ lit ">";
    (* pattern 5, the assignment:
       <script>window\._xy_ws = [SQB][0-9a-zA-Z]+[SQB];</script> *)
    lit "<script>window._xy_ws = " ++ quoted anyQuote3 Alnum ++ lit ";</script>" ].

(** The general key pattern [Q[a-zA-Z0-9]+Q]. *)
Definition keyRe : list item := quoted (Lit dquote) Alnum.

(** [x:\s+Q[a-zA-Z0-9]+Q] and the same for [y] and [z]. *)
Definition lkDbPart (name : string) : list item :=
  lit name ++ lit ":" ++ [Plus Space] ++ quoted (Lit dquote) Alnum.

Definition lkDbParts : list (list item) :=
  [lkDbPart "x"; lkDbPart "y"; lkDbPart "z"].

(** [:[a-zA-Z0-9]+ ] with a final space. *)
Definition commentKeyRe : list item := lit ":" ++ [Plus Alnum] ++ lit " ".

Fixpoint dropWhile {A} (p : A → bool) (l : list A) : list A :=
  match l with
  | [] => []
  | x :: t => if p x then dropWhile p t else l
  end.

(** [strings.Trim(s, cutset)] for a one-character cutset. *)
Definition Trim (s : list ascii) (cut : ascii) : list ascii :=
  let dropCut := dropWhile (fun c => bool_decide (c = cut)) in
  reverse (dropCut (reverse (dropCut s))).

Definition TrimPrefix (s prefix : list ascii) : list ascii :=
  if hasPrefix s prefix then drop (length prefix) s else s.

(** [strings.TrimSpace]; its argument here is ASCII, where the white space
    of Unicode is tab, line feed, vertical tab, form feed, carriage return
    and space. *)
Definition isUnicodeSpace (c : ascii) : bool :=
  let v := byteval c in ((9 <=? v) && (v <=? 13)) || (v =? 32).

Definition TrimSpace (s : list ascii) : list ascii :=
  let dropSp := dropWhile isUnicodeSpace in
  reverse (dropSp (reverse (dropSp s))).

(** The errors of [extractClientKey], one per [fmt.Errorf] of the function. *)
Inductive keyError : Type :=
| NoPatternMatched     (* no obfuscation pattern matched *)
| CommentKeyMissing    (* failed to extract client key from comment pattern *)
| LkDbPartMissing      (* failed to build client key from lk_db pattern *)
| LkDbValueMissing     (* failed to extract value from lk_db part *)
| ValueMissing.        (* failed to extract client key value *)

(** The loop over [patterns]: the index and the text of the first pattern
    with a non-empty match; [i] is the index of the head of [pats]. *)
Fixpoint firstMatch (i : nat) (pats : list (list item)) (html : list ascii)
    : option (nat * list ascii) :=
  match pats with
  | [] => None
  | pat :: rest =>
    match FindString pat html with
    | [] => firstMatch (S i) rest html
    | m => Some (i, m)
    end
  end.

(** The loop over [lkDbParts] of case 2, with its two early returns. *)
Fixpoint lkDbLoop (partRes : list (list item)) (match_ : list ascii)
    (parts : list (list ascii)) : keyError + list (list ascii) :=
  match partRes with
  | [] => inr parts
  | partRe :: rest =>
    match FindString partRe match_ with
    | [] => inl LkDbPartMissing
    | partMatch =>
      match FindString keyRe partMatch with
      | [] => inl LkDbValueMissing
      | val => lkDbLoop rest match_ (parts ++ [Trim val dquote])
      end
    end
  end.

(** The [switch matchIdx] on the text of the match. *)
Definition keyOfMatch (matchIdx : nat) (match_ : list ascii) : keyError + list ascii :=
  match matchIdx with
  | 1%nat =>
    match FindString commentKeyRe match_ with
    | [] => inl CommentKeyMissing
    | keyMatch => inr (TrimSpace (TrimPrefix keyMatch (str ":")))
    end
  | 2%nat =>
    match lkDbLoop lkDbParts match_ [] with
    | inl e => inl e
    | inr parts => inr (concat parts)
    end
  | _ =>
    match FindString keyRe match_ with
    | [] => inl ValueMissing
    | val => inr (Trim val dquote)
    end
  end.

Definition extractClientKey (html : list ascii) : keyError + list ascii :=
  match firstMatch 0 patterns html with
  | None => inl NoPatternMatched
  | Some (matchIdx, match_) => keyOfMatch matchIdx match_
  end.

(** ** Source selection of [Extract] (megacloud.go, lines 126-137) *)

Record source : Type := Source { File : list ascii; Type_ : list ascii }.

(** The loop [for _, s := range sources] with its [break]; [streamURL] is
    the value the variable holds when the loop is entered. *)
Fixpoint selectLoop (preferredQuality : list ascii) (streamURL : list ascii)
    (sources : list source) : list ascii :=
  match sources with
  | [] => streamURL
  | s :: rest =>
    if Contains (File s) preferredQuality then File s
    else selectLoop preferredQuality streamURL rest
  end.

(** [None] stands for the error of an empty source list. *)
Definition selectStreamURL (sources : list source) (preferredQuality : list ascii)
    : option (list ascii) :=
  match sources with
  | [] => None
  | s0 :: _ => Some (selectLoop preferredQuality (File s0) sources)
  end.

(** ** The subtitle tracks of [Extract] (megacloud.go, lines 44-49 and
    139-150) *)

Module Track.
Record track : Type :=
  Track { File : list ascii; Label : list ascii; Kind : list ascii; Default : bool }.
End Track.

(** [media.Subtitle] (media/types.go, lines 60-65). *)
Module media.
Record Subtitle : Type :=
  mkSubtitle { Language : list ascii; Label : list ascii; URL : list ascii }.
End media.

(** The body of [for _, t := range resp.Tracks]: a track that is not of
    kind [captions] or has no file is skipped, any other is appended. *)
Definition subtitleStep (subtitles : list media.Subtitle) (t : Track.track)
    : list media.Subtitle :=
  if bool_decide (Track.Kind t ≠ str "captions") || bool_decide (Track.File t = [])
  then subtitles
  else subtitles ++ [media.mkSubtitle (Track.Label t) (Track.Label t) (Track.File t)].

Definition mapSubtitles (tracks : list Track.track) : list media.Subtitle :=
  foldl subtitleStep [] tracks.

(** ** [parseEmbedURL] (megacloud.go, lines 159-195) *)

(** [strings.Split(s, sep)] for a separator of one byte: the pieces of [s]
    between the separators, one more than there are separators. *)
Fixpoint Split (s : list ascii) (sep : ascii) : list (list ascii) :=
  match s with
  | [] => [[]]
  | c :: t =>
    if decide (c = sep) then [] :: Split t sep
    else match Split t sep with
         | p :: ps => (c :: p) :: ps
         | [] => [[c]]
         end
  end.

(** [Regexp.MatchString] for a pattern between [^] and [$]: the whole text
    has to match, a greedy repetition giving back one character at a time. *)
Fixpoint matchStarEnd (k : cls) (rest : list ascii → bool) (s : list ascii) : bool :=
  match s with
  | c :: t => (clsMatch k c && matchStarEnd k rest t) || rest s
  | [] => rest []
  end.

Fixpoint MatchWhole (re : list item) (s : list ascii) : bool :=
  match re with
  | [] => bool_decide (s = [])
  | One k :: re' =>
    match s with
    | c :: t => clsMatch k c && MatchWhole re' t
    | [] => false
    end
  | Plus k :: re' =>
    match s with
    | c :: t => clsMatch k c && matchStarEnd k (MatchWhole re') t
    | [] => false
    end
  | Star k :: re' => matchStarEnd k (MatchWhole re') s
  end.

(** [\d], and the pattern [^embed-\d+$]. *)
Definition digit : cls := OneOf (str "0123456789").
Definition embedPrefixRe : list item := lit "embed-" ++ [Plus digit].

(** The fields of [*url.URL] the function reads. *)
Record URL : Type := mkURL { Host : list ascii; Path : list ascii }.

(** The errors of [parseEmbedURL] after [url.Parse]. *)
Inductive embedError : Type :=
| EmptyPath       (* empty URL path *)
| NoSourceID.     (* could not extract source ID *)

(** [parseEmbedURL] from the result [u] of [url.Parse(embedURL)] on. The
    three index expressions are in range: [parts] has an element when
    [parts[0]] and [parts[len(parts)-1]] are read, and two when
    [parts[len(parts)-2]] is. *)
Definition parseEmbedURL (u : URL) : embedError + (list ascii * list ascii * list ascii) :=
  let domain := Host u in
  let path := TrimPrefix (Path u) (str "/") in
  let parts := Split path "/" in
  if (length parts =? 0)%nat then inl EmptyPath else
  let embedPrefix := parts !!! 0%nat in
  let embedPrefix :=
    if negb (MatchWhole embedPrefixRe embedPrefix) then str "embed-2" else embedPrefix in
  let sourceID := parts !!! (length parts - 1)%nat in
  let sourceID :=
    if bool_decide (sourceID = []) && (1 <? length parts)%nat
    then parts !!! (length parts - 2)%nat else sourceID in
  if bool_decide (sourceID = []) then inl NoSourceID
  else inr (domain, embedPrefix, sourceID).

(** ** [getMegacloudKey] (megacloud.go, lines 262-291) *)

(** What one request for the key file comes to: the request fails, the
    body is not the JSON of a string map, or it decodes to a map ([None] is
    the JSON [null], which leaves the map [nil]). *)
Inductive keysReply : Type :=
| RequestFailed
| NotJSON
| KeysObject (keys : option (gmap (list ascii) (list ascii))).

Inductive megaKeyError : Type :=
| FetchingKeys       (* fetching megacloud keys *)
| ParsingKeys        (* parsing megacloud keys *)
| MegaKeyNotFound.   (* mega key not found in keys response *)

(** The cache of the extractor; [None] is the [nil] map. *)
Record MegaCloudExtractor : Type :=
  mkExtractor { keys : option (gmap (list ascii) (list ascii)) }.

(** The function runs under the mutex of the extractor, so calls follow
    one another. The state is the extractor and the number of requests sent
    so far; [net n] is the reply to request number [n]. *)
Definition getMegacloudKey (net : nat → keysReply) (st : MegaCloudExtractor * nat)
    : (MegaCloudExtractor * nat) * (megaKeyError + list ascii) :=
  let '(m, sent) := st in
  let cached :=
    match keys m with
    | Some ks => ks !! str "mega"
    | None => None
    end in
  match cached with
  | Some key => (st, inr key)
  | None =>
    match net sent with
    | RequestFailed => ((m, S sent), inl FetchingKeys)
    | NotJSON => ((m, S sent), inl ParsingKeys)
    | KeysObject ks =>
      let m := mkExtractor ks in
      match (match ks with Some ks => ks !! str "mega" | None => None end) with
      | Some key => ((m, S sent), inr key)
      | None => ((m, S sent), inl MegaKeyNotFound)
      end
    end
  end.

(** ** The specification's wording of the key derivation and of the
    layered cipher

    Second definitions, written from the sentences of the specification
    (sections 4.2, 4.3 and 4.4), to be compared with the code above. *)
Module Spec.

(** SeededPRNG: [state = (state*31 + b) mod 2^32] over the bytes of the key. *)
Definition seed (key : list ascii) : Z :=
  foldl (fun state b => (state * 31 + byteval b) mod 2 ^ 32) 0 key.

(** [next(bound)]: [state = (state*1103515245 + 12345) mod 2^31], the draw
    is [state mod bound]. *)
Definition next (state bound : Z) : Z * Z :=
  let state' := (state * 1103515245 + 12345) mod 2 ^ 31 in
  (state', state' mod bound).

(** The alphabet: the code points 32 to 126, by index and by value. *)
Definition inAlphabet (ch : Z) : bool := (32 <=? ch) && (ch <=? 126).
Definition index (ch : Z) : Z := ch - 32.
Definition symbol (i : Z) : Z := 32 + i.

(** Step b, the shift: a symbol of the alphabet consumes one draw [r] and
    becomes [alphabet[(index - r + 95) mod 95]]; any other character passes
    through and consumes no draw. *)
Fixpoint unshift (state : Z) (text : list Z) : list Z :=
  match text with
  | [] => []
  | ch :: rest =>
    if inAlphabet ch then
      let '(state', r) := next state 95 in
      symbol ((index ch - r + 95) mod 95) :: unshift state' rest
    else ch :: unshift state rest
  end.

(** Step d: the Fisher-Yates shuffle of the alphabet with a freshly seeded
    generator, for [i] from 94 down to 1. *)
Definition shuffled (layerKey : list ascii) : list Z :=
  (foldl (fun (st : Z * list Z) (i : nat) =>
            let '(state', j) := next st.1 (Z.of_nat i + 1) in
            (state', swap i (Z.to_nat j) st.2))
         (seed layerKey, symbol ∘ Z.of_nat <$> seq 0 95)
         (reverse (seq 1 94))).2.

(** The inverse substitution on one character: [shuffled[i] -> alphabet[i]],
    a character with no entry passing through. *)
Definition unsubstitute (layerKey : list ascii) (ch : Z) : Z :=
  match list_find (fun x => x = ch) (shuffled layerKey) with
  | Some (i, _) => symbol (Z.of_nat i)
  | None => ch
  end.

(** KeyDerivation (section 4.3). Step 2, the hash over the bytes of
    [tempKey], with unbounded integers, and its absolute value. *)
Definition hash (tempKey : list ascii) : Z :=
  Z.abs (foldl (fun H c => byteval c + H * 31 + H * 2 ^ 7 - H) 0 tempKey).

(** Step 5: the circular left rotation by [k] places. *)
Definition rotateLeft (k : nat) (s : list ascii) : list ascii := drop k s ++ take k s.

(** Step 7: for [i] from 0 while either string has a character left,
    [a[i]] if present, then [b[i]] if present. *)
Fixpoint interleave (a b : list ascii) : list ascii :=
  match a, b with
  | [], _ => b
  | _, [] => a
  | x :: a', y :: b' => x :: y :: interleave a' b'
  end.

(** [derive], steps 1 to 9. The characters of step 6 are the code points
    of [clientKey]. *)
Definition derive (serverKey clientKey : list ascii) : list ascii :=
  let tempKey := serverKey ++ clientKey in
  let H := hash tempKey in
  let L := Z.abs (H `mod` (2 ^ 63 - 1)) in
  let xored := (fun c => mkbyte (Z.lxor (byteval c) 247)) <$> tempKey in
  let pivot := L `mod` len xored + 5 in
  let pivot := if len xored <? pivot then pivot `mod` len xored else pivot in
  let rotated := rotateLeft (Z.to_nat pivot) xored in
  let leaf := Utf8.ofRunes (reverse (Utf8.runes clientKey)) in
  let limit := 96 + L `mod` 33 in
  (fun c => mkbyte (byteval c `mod` 95 + 32)) <$> take (Z.to_nat limit) (interleave rotated leaf).

(** Step c, the column order: the columns sorted by the code point of
    their key character, ascending, ties broken by original position. *)
Definition columnLe (layerKey : list ascii) (i j : nat) : Prop :=
  byteval (layerKey !!! i) < byteval (layerKey !!! j) ∨
  (byteval (layerKey !!! i) = byteval (layerKey !!! j) ∧ (i ≤ j)%nat).

#[global] Instance columnLe_dec layerKey i j : Decision (columnLe layerKey i j).
Proof. unfold columnLe. apply _. Defined.

Definition columnOrder (layerKey : list ascii) : list nat :=
  merge_sort (columnLe layerKey) (seq 0 (length layerKey)).

(** [ceil(n/d)]. *)
Definition ceilDiv (n d : nat) : nat :=
  if decide (n `mod` d = 0)%nat then (n / d)%nat else S (n / d).

(** Step c, the grid of [R] rows: it is filled column by column in the
    sorted column order with consecutive characters of [shifted], so the
    column sorted [t]-th holds the characters [t*R] to [t*R + R - 1]; a cell
    that is left unfilled holds a space. *)
Definition gridColumn (shifted : list ascii) (R t : nat) : list ascii :=
  take R (drop (t * R) shifted).

Definition gridCell (layerKey shifted : list ascii) (R r c : nat) : ascii :=
  match list_find (fun c' => c' = c) (columnOrder layerKey) with
  | Some (t, _) => default " "%char (gridColumn shifted R t !! r)
  | None => " "%char
  end.

(** Step c: with [C = len(layerKey)] columns ([shifted] as it is when
    [C = 0]) and [R = ceil(len(shifted)/C)] rows, the grid read row by row,
    left to right and top to bottom. The characters are the bytes of the
    text, which is how the code fills its grid. *)
Definition untranspose (layerKey shifted : list ascii) : list ascii :=
  let C := length layerKey in
  if decide (C = 0%nat) then shifted else
  let R := ceilDiv (length shifted) C in
  r ← seq 0 R; (fun c => gridCell layerKey shifted R r c) <$> seq 0 C.

(** [reverseLayer]: the shift (step b) first, then the columnar
    transposition (step c), then the substitution (step d). The text is read
    as the code reads it: rune by rune for the shift, and by [range] for the
    substitution, whose result holds one rune per byte index. *)
Definition reverseLayer (text layerKey : list ascii) : list ascii :=
  let shifted := Utf8.ofRunes (unshift (seed layerKey) (Utf8.runes text)) in
  let transposed := untranspose layerKey shifted in
  Utf8.ofRunes
    ((fun o : option Z =>
        match o with Some ch => unsubstitute layerKey ch | None => 0 end)
     <$> Utf8.range transposed).

End Spec.

(** ** The forward layer transform *)
Module Forward.

(** Modelled from the spec: the forward symbol rotation that step b of
    section 4.4 inverts ([forwardLayer], the test-only harness of the
    forward transform, is not among the sources). A symbol of the alphabet
    consumes one draw [r] and becomes [alphabet[(index + r) mod 95]]; any
    other byte passes through and consumes no draw. *)
Fixpoint shift (state : Z) (text : list ascii) : list ascii :=
  match text with
  | [] => []
  | c :: rest =>
    if Spec.inAlphabet (byteval c) then
      let '(state', r) := Spec.next state 95 in
      mkbyte (Spec.symbol ((Spec.index (byteval c) + r) mod 95)) :: shift state' rest
    else c :: shift state rest
  end.

(** Modelled from the spec: the forward columnar transposition whose writer
    step c of section 4.4 reconstructs. The text is laid out row by row in
    a grid of [len(layerKey)] columns, the cells past its end holding
    spaces, and read column by column in the sorted column order, which is
    the order [columnarCipher2] computes. *)
Definition transpose (layerKey text : list ascii) : list ascii :=
  let columnCount := length layerKey in
  if decide (columnCount = 0%nat) then text else
  let rowCount := ((length text + columnCount - 1) / columnCount)%nat in
  ki ← insertionSort (keyMapOf layerKey);
  (fun row => default " "%char (text !! (row * columnCount + idx ki)%nat))
    <$> seq 0 rowCount.

(** Modelled from the spec: the forward substitution
    [alphabet[i] -> shuffled[i]] that step d of section 4.4 inverts. *)
Definition substitute (layerKey text : list ascii) : list ascii :=
  (fun c =>
     if Spec.inAlphabet (byteval c)
     then mkbyte (Spec.shuffled layerKey !!! Z.to_nat (Spec.index (byteval c)))
     else c) <$> text.

(** Modelled from the spec: [forwardLayer], with the sub-steps in the order
    the specification documents: shift, then transposition, then
    substitution. The layer key is the key followed by the decimal layer
    index, as in [reverseLayer]. *)
Definition forwardLayer (text key : list ascii) (layer : Z) : list ascii :=
  let layerKey := key ++ Itoa layer in
  substitute layerKey (transpose layerKey (shift (Spec.seed layerKey) text)).

(** Modelled from the spec: the same three sub-steps composed in the
    opposite order: substitution, then transposition, then shift. *)
Definition forwardLayerOpposite (text key : list ascii) (layer : Z) : list ascii :=
  let layerKey := key ++ Itoa layer in
  shift (Spec.seed layerKey) (transpose layerKey (substitute layerKey text)).

(** Modelled from the spec: the forward transform of a text, the layers 1,
    2 and 3 in ascending order, for a given forward layer. *)
Definition forwardLayers (layer : list ascii → list ascii → Z → list ascii)
    (text key : list ascii) : list ascii :=
  layer (layer (layer text key 1) key 2) key 3.

End Forward.

(** ** Vocabulary of the statements *)

(** The selection the specification describes for C9: the first entry whose
    type or file name contains the preferred quality, else the first
    entry. *)
Definition selectByTypeOrFile (sources : list source) (pq : list ascii)
    : option (list ascii) :=
  match sources with
  | [] => None
  | s0 :: _ =>
    match find (fun s => Contains (Type_ s) pq || Contains (File s) pq) sources with
    | Some s => Some (File s)
    | None => Some (File s0)
    end
  end.

(** The source list of the counterexample of C9. *)
Definition c9_sources : list source :=
  [Source (str "https://x/a.m3u8") (str "hls-720");
   Source (str "https://x/720.m3u8") (str "hls")].

(** A byte below 128 is a rune of its own. *)
Definition isAscii (c : ascii) : Prop := byteval c < 128.

(** A byte the first loop of [atob] copies as it is: ASCII and none of '=',
    line feed, carriage return and space. *)
Definition plainByte (c : ascii) : Prop := isAscii c ∧ keptRune (byteval c) = true.

(** A symbol of the base64 alphabet stays; any other byte becomes [A], the
    symbol of value 0. *)
Definition zeroSymbol (c : ascii) : ascii :=
  if bool_decide (c ∈ base64Chars) then c else "A"%char.

(** A sequence of literal characters as a pattern. *)
Definition lits (l : list ascii) : list item := (fun c => One (Lit c)) <$> l.

(** The text of the meta tag up to the quoted key, the whole tag for a
    key, and the pattern that matches it (pattern 0). *)
Definition metaPrefix : list ascii :=
  str "<meta name=" ++ [dquote] ++ str "_gg_fb" ++ [dquote] ++ str " content=".

Definition metaTag (key : list ascii) : list ascii :=
  metaPrefix ++ [dquote] ++ key ++ [dquote] ++ str ">".

Definition metaPattern : list item := patterns !!! 0%nat.

(** A non-empty run of [[a-zA-Z0-9]]. *)
Definition alnumToken (key : list ascii) : Prop :=
  key ≠ [] ∧ Forall (fun c => isAlnum c = true) key.

(** A non-empty run of white space, as [\s+] matches it. *)
Definition spaceRun (w : list ascii) : Prop :=
  w ≠ [] ∧ Forall (fun c => isSpace c = true) w.

(** The six orders in which an object can list the fields x, y and z. *)
Inductive fieldOrder : Type := XYZ | XZY | YXZ | YZX | ZXY | ZYX.

(** One field of the object: its name, a colon, white space and the
    double-quoted value. *)
Definition field (name : ascii) (w v : list ascii) : list ascii :=
  name :: ":"%char :: w ++ dquote :: v ++ [dquote].

(** A three-field object: the order of its fields, its runs of white
    space and the values of x, y and z. *)
Record lkDbObject : Type := LkDbObject {
  order : fieldOrder;
  spEq1 : list ascii; spEq2 : list ascii;        (* around the equals sign *)
  spSep1 : list ascii; spSep2 : list ascii;      (* after the two commas *)
  spX : list ascii; spY : list ascii; spZ : list ascii;   (* after each colon *)
  valX : list ascii; valY : list ascii; valZ : list ascii
}.

(** Every run of white space and every value of the object is as the
    patterns want it. *)
Definition wellFormed (o : lkDbObject) : Prop :=
  Forall spaceRun [spEq1 o; spEq2 o; spSep1 o; spSep2 o; spX o; spY o; spZ o] ∧
  Forall alnumToken [valX o; valY o; valZ o].

(** The fields and the values of an object in the order the object lists
    them. *)
Definition fieldsInOrder (o : lkDbObject) : list (list ascii) :=
  let fx := field "x" (spX o) (valX o) in
  let fy := field "y" (spY o) (valY o) in
  let fz := field "z" (spZ o) (valZ o) in
  match order o with
  | XYZ => [fx; fy; fz] | XZY => [fx; fz; fy]
  | YXZ => [fy; fx; fz] | YZX => [fy; fz; fx]
  | ZXY => [fz; fx; fy] | ZYX => [fz; fy; fx]
  end.

Definition valuesInOrder (o : lkDbObject) : list (list ascii) :=
  match order o with
  | XYZ => [valX o; valY o; valZ o] | XZY => [valX o; valZ o; valY o]
  | YXZ => [valY o; valX o; valZ o] | YZX => [valY o; valZ o; valX o]
  | ZXY => [valZ o; valX o; valY o] | ZYX => [valZ o; valY o; valX o]
  end.

(** The text of the object as pattern 2 matches it. *)
Definition objectText (o : lkDbObject) : list ascii :=
  match fieldsInOrder o with
  | [f1; f2; f3] =>
    str "<script>window._lk_db" ++ spEq1 o ++ str "=" ++ spEq2 o ++ str "{" ++
    f1 ++ str "," ++ spSep1 o ++ f2 ++ str "," ++ spSep2 o ++ f3 ++ str "};</script>"
  | _ => []
  end.

(** The pattern of [lkDbParts] for the field [n]. *)
Definition partRe (n : ascii) : list item :=
  [One (Lit n); One (Lit ":"%char); Plus Space; One (Lit dquote); Plus Alnum; One (Lit dquote)].

(** The documents of the counterexamples of C7 and C8 and of the witness of
    C7. *)
Definition c7_single_quoted : list ascii :=
  str "<html><script>window._xy_ws = 'wsKey456';</script></html>".

Definition c7_both : list ascii :=
  str "<html><script>window._lk_db = {x: " ++ [dquote] ++ str "partA" ++ [dquote] ++
  str ", y: " ++ [dquote] ++ str "partB" ++ [dquote] ++
  str ", z: " ++ [dquote] ++ str "partC" ++ [dquote] ++
  str "};</script><meta name=" ++ [dquote] ++ str "_gg_fb" ++ [dquote] ++
  str " content=" ++ [dquote] ++ str "abc123XYZ" ++ [dquote] ++ str "></html>".

Definition c8_object : lkDbObject :=
  LkDbObject ZYX (str " ") (str " ") (str " ") (str " ") (str " ") (str " ") (str " ")
             (str "partC") (str "partB") (str "partA").

Definition c8_html : list ascii := str "<html>" ++ objectText c8_object ++ str "</html>".

(** The column order: the indices of the sorted key, a permutation of the
    columns. *)
Definition columnOrder (ikey : list ascii) : list nat :=
  idx <$> insertionSort (keyMapOf ikey).

(** The grid [cipher]: the cell [cipher[r][c]], a grid of [R] rows of [C]
    cells, and the assignment [cipher[r][c] = x]. *)
Definition cellAt (g : list (list ascii)) (r c : nat) : ascii := (g !!! r) !!! c.

Definition gridDims (R C : nat) (g : list (list ascii)) : Prop :=
  length g = R ∧ Forall (fun row => length row = C) g.

Definition setCell (g : list (list ascii)) (r c : nat) (x : ascii) : list (list ascii) :=
  alter (fun row => <[c := x]> row) r g.

(** The number of rows, [rowCount]. *)
Definition rowsOf (src ikey : list ascii) : nat :=
  ((length src + length ikey - 1) / length ikey)%nat.

(** The cells of the columns [cols], each column from the top, in the order
    the fill loop visits them. *)
Definition cellsOf (cols : list nat) (R : nat) : list (nat * nat) :=
  c ← cols; (fun row => (row, c)) <$> seq 0 R.

(** The text padded with spaces to a whole number of rows. *)
Definition padded (src ikey : list ascii) : list ascii :=
  src ++ replicate (rowsOf src ikey * length ikey - length src) " "%char.

(** The position of a column in the column order. *)
Definition columnPos (ikey : list ascii) (c : nat) : nat :=
  default 0%nat (fst <$> list_find (fun x => x = c) (columnOrder ikey)).


(** The alphabet as a list of code points, and a text drawn from it. *)
Definition symbols : list Z := Spec.symbol ∘ Z.of_nat <$> seq 0 95.

Definition alphabetText (text : list ascii) : Prop :=
  Forall (fun c => 32 ≤ byteval c ≤ 126) text.

(** The order of the stable sort: by character code, ties by position. *)
Definition keyLt (a b : keyIdx) : Prop :=
  byteval (char a) < byteval (char b) ∨
  (byteval (char a) = byteval (char b) ∧ (idx a < idx b)%nat).

(** The decimal digit [d] as a byte, and the length field of [n]: its four
    decimal digits, zeros first. *)
Definition digitChar (d : Z) : ascii := mkbyte (48 + d).

Definition lengthField (n : Z) : list ascii :=
  [digitChar ((n / 1000) `mod` 10); digitChar ((n / 100) `mod` 10);
   digitChar ((n / 10) `mod` 10); digitChar (n `mod` 10)].

(** The symbol of the base64 alphabet with the value [v]. *)
Definition symbolOf (v : Z) : ascii := base64Chars !!! Z.to_nat v.

(** The standard base64 encoding (RFC 4648, with padding) of a byte string:
    three bytes give four symbols of six bits each; a final group of one
    or two bytes gives two or three symbols and is padded with [=]. *)
Fixpoint btoa (bs : list ascii) : list ascii :=
  match bs with
  | [] => []
  | [b0] =>
    [symbolOf (byteval b0 / 4); symbolOf (byteval b0 `mod` 4 * 16); "="%char; "="%char]
  | [b0; b1] =>
    [symbolOf (byteval b0 / 4);
     symbolOf (byteval b0 `mod` 4 * 16 + byteval b1 / 16);
     symbolOf (byteval b1 `mod` 16 * 4); "="%char]
  | b0 :: b1 :: b2 :: rest =>
    [symbolOf (byteval b0 / 4);
     symbolOf (byteval b0 `mod` 4 * 16 + byteval b1 / 16);
     symbolOf (byteval b1 `mod` 16 * 4 + byteval b2 / 64);
     symbolOf (byteval b2 `mod` 64)] ++ btoa rest
  end.

(** The four bytes the first loop of [atob] drops. *)
Definition droppedByte (c : ascii) : Prop :=
  c = "="%char ∨ c = " "%char ∨ c = "010"%char ∨ c = "013"%char.

(** A Unicode scalar value: a code point that is not a surrogate. *)
Definition validRune (r : Z) : Prop :=
  0 ≤ r ∧ r ≤ 0x10FFFF ∧ ¬ (0xD800 ≤ r ≤ 0xDFFF).

(** A range of byte values that holds the alphabet and lies within ASCII. *)
Definition asciiRange (lo hi : Z) : Prop := 0 ≤ lo ≤ 32 ∧ 126 ≤ hi ≤ 127.

(** The patterns 1, 3 and 4 of [extractClientKey]: the comment, the div and
    the nonce. *)
Definition commentPattern : list item := patterns !!! 1%nat.
Definition noncePattern : list item := patterns !!! 4%nat.
Definition divPattern : list item := patterns !!! 3%nat.

(** The text of a comment that carries the key: the opening, white space,
    the name, the key, white space and the closing. *)
Definition commentText (w1 key w2 : list ascii) : list ascii :=
  str "<!--" ++ w1 ++ str "_is_th:" ++ key ++ w2 ++ str "-->".

(** [strings.Join(parts, sep)] for a separator of one byte. *)
Fixpoint Join (parts : list (list ascii)) (sep : ascii) : list ascii :=
  match parts with
  | [] => []
  | [p] => p
  | p :: ps => p ++ sep :: Join ps sep
  end.

(** A decimal digit, as [\d] matches it. *)
Definition isDigit (c : ascii) : Prop := 48 ≤ byteval c ≤ 57.

(** The value of a symbol of the base64 alphabet: its position in the
    alphabet; 0 for any other byte. *)
Definition symbolValue (c : ascii) : Z :=
  match list_find (fun d => d = c) base64Chars with
  | Some (i, _) => Z.of_nat i
  | None => 0
  end.

(** The three bytes that four symbols encode (RFC 4648): the 24 bits of
    their values, eight at a time. *)
Definition decodeGroup (g : list ascii) : list ascii :=
  match g with
  | [s0; s1; s2; s3] =>
    [mkbyte (symbolValue s0 * 4 + symbolValue s1 / 16);
     mkbyte (symbolValue s1 `mod` 16 * 16 + symbolValue s2 / 4);
     mkbyte (symbolValue s2 `mod` 4 * 64 + symbolValue s3)]
  | _ => []
  end.

(** One more than the position of the last symbol of the alphabet in a
    group; 0 for a group that holds none. *)
Fixpoint lastMapped (g : list ascii) : nat :=
  match g with
  | [] => 0
  | c :: t =>
    match lastMapped t with
    | O => if bool_decide (c ∈ base64Chars) then 1 else 0
    | S n => S (S n)
    end
  end.

(** A text cut into groups of four bytes, a shorter rest being the last
    group. *)
Fixpoint groupsOf4 (e : list ascii) : list (list ascii) :=
  match e with
  | [] => []
  | c0 :: c1 :: c2 :: c3 :: rest => [c0; c1; c2; c3] :: groupsOf4 rest
  | _ => [e]
  end.

(** A text followed by the padding characters that complete its last group
    of four. *)
Definition padTo4 (e : list ascii) : list ascii :=
  e ++ replicate ((4 - length e `mod` 4) `mod` 4)%nat "="%char.

(** The code points the first loop of [atob] drops: '=', line feed,
    carriage return and space. *)
Definition droppedRunes : list Z := [61; 10; 13; 32].

(** * Properties *)

(** ** The tables of the test suite

    [TestAtob], and the input of [TestColumnarCipher2Deterministic] with the
    result a trace of the function by hand gives. *)

Example atob_test_table :
  atob (str "SGVsbG8=") = str "Hello" ∧ atob (str "V29ybGQ=") = str "World" ∧
  atob (str "") = str "" ∧ atob (str "YQ==") = str "a" ∧
  atob (str "YWI=") = str "ab" ∧ atob (str "YWJj") = str "abc".
Proof. repeat split; vm_compute; reflexivity. Qed.

Example columnar_test :
  columnarCipher2 (str "Hello, World! This is a test.") (str "secret") =
  str "s,Hhle  eidsaWls!t ol  .troiT ".
Proof. vm_compute. reflexivity. Qed.

(** ** Bytes *)

Lemma byteval_range c : 0 ≤ byteval c < 256.
Proof.
  unfold byteval. pose proof (N_ascii_bounded c). lia.
Qed.

Lemma mkbyte_byteval c : mkbyte (byteval c) = c.
Proof.
  unfold mkbyte. pose proof (byteval_range c).
  rewrite Z.mod_small by lia. unfold byteval.
  rewrite N2Z.id. apply ascii_N_embedding.
Qed.

Lemma byteval_mkbyte z : 0 ≤ z < 256 → byteval (mkbyte z) = z.
Proof.
  intros Hz. unfold byteval, mkbyte. rewrite Z.mod_small by lia.
  rewrite N_ascii_embedding by lia. lia.
Qed.

Lemma byteval_inj c d : byteval c = byteval d → c = d.
Proof.
  intros Hcd. rewrite <- (mkbyte_byteval c), <- (mkbyte_byteval d). by rewrite Hcd.
Qed.

Lemma len_app {A} (l k : list A) : len (l ++ k) = len l + len k.
Proof. unfold len. rewrite length_app. lia. Qed.

Lemma len_nonneg {A} (l : list A) : 0 ≤ len l.
Proof. unfold len. lia. Qed.

(** ** Source selection *)

(** [Contains] decides the substring relation. *)
Lemma hasPrefix_spec s p : hasPrefix s p = true ↔ ∃ post, s = p ++ post.
Proof.
  revert s. induction p as [|c p IH]; intros s.
  - destruct s; simpl; (split; [intros _; by eexists | done]).
  - destruct s as [|d s]; simpl; [split; [done | by intros [? ?]]|].
    case_decide as Hcd.
    + subst d. rewrite IH. split; intros [post Hp]; exists post; simplify_eq/=; done.
    + split; [done | intros [post Hp]; simplify_eq/=].
Qed.

Lemma Contains_spec s sub :
  Contains s sub = true ↔ ∃ pre post, s = pre ++ sub ++ post.
Proof.
  induction s as [|c s IH]; cbn [Contains].
  - rewrite orb_false_r, hasPrefix_spec. split.
    + intros [post Hp]. by exists [], post.
    + intros (pre & post & Hp). symmetry in Hp.
      apply app_eq_nil in Hp as [-> Hp]. apply app_eq_nil in Hp as [-> ->].
      by exists [].
  - rewrite orb_true_iff, hasPrefix_spec, IH. split.
    + intros [[post Hp] | (pre & post & Hp)].
      * by exists [], post.
      * exists (c :: pre), post. by rewrite Hp.
    + intros (pre & post & Hp). destruct pre as [|d pre]; simpl in Hp.
      * left. by exists post.
      * right. exists pre, post. by simplify_eq.
Qed.

Lemma selectLoop_find pq url sources :
  selectLoop pq url sources =
  match find (fun s => Contains (File s) pq) sources with
  | Some s => File s
  | None => url
  end.
Proof.
  induction sources as [|s rest IH]; simpl; [done|].
  destruct (Contains (File s) pq); done.
Qed.

(** C9, counterexample: the first entry names the preferred quality in its
    type only and the second in its file; the code returns the file of the
    second entry, the claim selects the first. *)
Lemma selectStreamURL_ignores_type :
  selectStreamURL c9_sources (str "720") = Some (str "https://x/720.m3u8") ∧
  selectByTypeOrFile c9_sources (str "720") = Some (str "https://x/a.m3u8") ∧
  selectStreamURL c9_sources (str "720") ≠ selectByTypeOrFile c9_sources (str "720").
Proof. by vm_compute. Qed.

Lemma selectLoop_files pq url (l l' : list source) :
  File <$> l = File <$> l' → selectLoop pq url l = selectLoop pq url l'.
Proof.
  revert l'. induction l as [|s l IH]; intros [|s' l'] Hf; try done.
  rewrite !fmap_cons in Hf. injection Hf as Hs Hl.
  cbn [selectLoop]. rewrite Hs. by rewrite (IH l' Hl).
Qed.

(** C9, amended: for a non-empty source list the resolver selects the file
    URL of the first entry whose file URL contains the preferred quality as
    a substring, and the file URL of the first entry when no file URL
    contains it; the type of an entry is not consulted: two lists with the
    same file URLs give the same selection. *)
Theorem selectStreamURL_first_file_match (s0 : source) (rest : list source)
    (preferredQuality : list ascii) :
  selectStreamURL (s0 :: rest) preferredQuality =
  Some (match find (fun s => Contains (File s) preferredQuality) (s0 :: rest) with
        | Some s => File s
        | None => File s0
        end)
  ∧ (∀ s, Contains (File s) preferredQuality = true ↔
          ∃ pre post, File s = pre ++ preferredQuality ++ post)
  ∧ (∀ sources', File <$> sources' = File <$> (s0 :: rest) →
       selectStreamURL sources' preferredQuality =
       selectStreamURL (s0 :: rest) preferredQuality).
Proof.
  split; [|split].
  - unfold selectStreamURL. by rewrite selectLoop_find.
  - intros s. apply Contains_spec.
  - intros [|s0' rest'] Hf; [done|]. unfold selectStreamURL.
    rewrite (selectLoop_files _ _ _ _ Hf). rewrite !fmap_cons in Hf.
    injection Hf as Hs _. by rewrite Hs.
Qed.

(** ** Key derivation *)

Lemma keygenHash_nonneg s : 0 ≤ keygenHash s.
Proof.
  unfold keygenHash. 
  cut (∀ h, 0 ≤ h → 0 ≤ foldl (λ oldHash c, byteval c + oldHash * 31 + Z.shiftl oldHash 7 - oldHash) h s).
  { intros H. by apply H. }
  induction s as [|c s IH]; intros h Hh; simpl; [done|].
  apply IH. rewrite Z.shiftl_mul_pow2 by lia. pose proof (byteval_range c). lia.
Qed.

Lemma keygenLHash_range s : 0 ≤ keygenLHash s < 0x7fffffffffffffff.
Proof.
  unfold keygenLHash. pose proof (keygenHash_nonneg s) as Hh.
  destruct (Z.ltb_spec (keygenHash s) 0) as [?|_]; [lia|].
  pose proof (Z.mod_pos_bound (keygenHash s) 0x7fffffffffffffff eq_refl) as Hm.
  destruct (Z.ltb_spec (keygenHash s `mod` 0x7fffffffffffffff) 0); lia.
Qed.

Lemma interleave_prefix_length a b m :
  length (foldl (interleaveStep a b) [] (seq 0 m)) = (m `min` length a + m `min` length b)%nat.
Proof.
  induction m as [|m IH]; [done|].
  rewrite seq_S, foldl_app. cbn [foldl Nat.add]. unfold interleaveStep at 1.
  destruct (a !! m) as [x|] eqn:Ha; destruct (b !! m) as [y|] eqn:Hb;
    repeat rewrite length_app; cbn [length]; rewrite IH;
    try apply lookup_lt_Some in Ha; try apply lookup_lt_Some in Hb;
    try apply lookup_ge_None in Ha; try apply lookup_ge_None in Hb; lia.
Qed.

Lemma interleave_length a b : length (interleave a b) = (length a + length b)%nat.
Proof.
  unfold interleave. rewrite interleave_prefix_length.
  destruct (Nat.ltb_spec (length a) (length b)); lia.
Qed.

Lemma slice_returns s lo hi :
  0 ≤ lo → lo ≤ hi → hi ≤ len s →
  slice s lo hi = Returns (take (Z.to_nat (hi - lo)) (drop (Z.to_nat lo) s)).
Proof.
  intros. unfold slice.
  destruct (Z.leb_spec 0 lo); [|lia]. destruct (Z.leb_spec lo hi); [|lia].
  destruct (Z.leb_spec hi (len s)); [|lia]. done.
Qed.

Lemma keygen2_returns megacloudKey clientKey :
  megacloudKey ++ clientKey ≠ [] →
  ∃ rotated,
    length rotated = length (megacloudKey ++ clientKey) ∧
    keygen2 megacloudKey clientKey =
    Returns ((fun c => mkbyte (Z.rem (byteval c) 95 + 32)) <$>
             take (Z.to_nat (Z.min (96 + keygenLHash (megacloudKey ++ clientKey) `mod` 33)
                                   (len (interleave rotated (reverseString clientKey)))))
                  (interleave rotated (reverseString clientKey))).
Proof.
  intros Hne. unfold keygen2.
  set (tempKey := megacloudKey ++ clientKey) in *.
  set (xored := (fun c => mkbyte (Z.lxor (byteval c) keygenXORVal)) <$> tempKey).
  pose proof (keygenLHash_range tempKey) as HL.
  assert (Hn : 0 < len xored).
  { unfold len, xored. rewrite length_fmap. destruct tempKey; [done|simpl; lia]. }
  destruct (Z.eqb_spec (len xored) 0) as [?|_]; [lia|].
  rewrite !Z.rem_mod_nonneg by lia. unfold keygenShiftVal.
  set (pivot0 := keygenLHash tempKey `mod` len xored + 5).
  set (pivot := if len xored <=? pivot0 then Z.rem pivot0 (len xored) else pivot0).
  assert (Hp : 0 ≤ pivot < len xored).
  { unfold pivot. pose proof (Z.mod_pos_bound (keygenLHash tempKey) (len xored) Hn).
    destruct (Z.leb_spec (len xored) pivot0).
    - rewrite Z.rem_mod_nonneg by lia. apply Z.mod_pos_bound; lia.
    - unfold pivot0 in *. lia. }
  rewrite (slice_returns xored pivot (len xored)) by lia.
  rewrite (slice_returns xored 0 pivot) by lia. cbn [mbind outcome_bind].
  set (rotated := _ ++ _).
  exists rotated. split.
  - unfold rotated. rewrite length_app, !length_take, !length_drop.
    unfold xored, len in *. rewrite length_fmap in *. lia.
  - f_equal. f_equal. f_equal. f_equal.
    pose proof (Z.mod_pos_bound (keygenLHash tempKey) 33 eq_refl).
    destruct (Z.ltb_spec (len (interleave rotated (reverseString clientKey)))
                         (96 + keygenLHash tempKey `mod` 33)); lia.
Qed.

Lemma normalized_range c : 32 ≤ byteval (mkbyte (Z.rem (byteval c) 95 + 32)) ≤ 126.
Proof.
  pose proof (byteval_range c). rewrite Z.rem_mod_nonneg by lia.
  pose proof (Z.mod_pos_bound (byteval c) 95 eq_refl).
  rewrite byteval_mkbyte; lia.
Qed.

(** C2, counterexample: the keys of [TestKeygen2Deterministic] derive a key
    of 34 bytes, fewer than 96. *)
Lemma keygen2_short_key :
  ∃ key, keygen2 (str "megakey123") (str "clientkey456") = Returns key ∧
         len key = 34 ∧ ¬ (96 ≤ len key).
Proof. eexists. split; [vm_compute; reflexivity|]. by vm_compute. Qed.

(** C2, amended: for every serverKey and clientKey with serverKey+clientKey
    non-empty, [keygen2] returns a key whose length is the smaller of
    [96 + L mod 33] and of the length of the interleaved string, which is
    [len(serverKey) + len(clientKey) + len(reverseString(clientKey))]; the
    length is at most 128, it is at least 96 when the interleaved string has
    at least 96 bytes, and every byte of the key lies in [32,126]. *)
Theorem keygen2_length_and_range (megacloudKey clientKey : list ascii) :
  megacloudKey ++ clientKey ≠ [] →
  ∃ key, keygen2 megacloudKey clientKey = Returns key ∧
    len key = Z.min (96 + keygenLHash (megacloudKey ++ clientKey) `mod` 33)
                    (len megacloudKey + len clientKey + len (reverseString clientKey)) ∧
    len key ≤ 128 ∧
    (96 ≤ len megacloudKey + len clientKey + len (reverseString clientKey) →
     96 ≤ len key) ∧
    Forall (fun c => 32 ≤ byteval c ≤ 126) key.
Proof.
  intros Hne. destruct (keygen2_returns _ _ Hne) as (rotated & Hlen & ->).
  eexists. split; [reflexivity|].
  pose proof (Z.mod_pos_bound (keygenLHash (megacloudKey ++ clientKey)) 33 eq_refl).
  assert (Hil : len (interleave rotated (reverseString clientKey)) =
                len megacloudKey + len clientKey + len (reverseString clientKey)).
  { unfold len. rewrite interleave_length, Hlen, length_app. lia. }
  assert (Hk : len ((fun c => mkbyte (Z.rem (byteval c) 95 + 32)) <$>
                 take (Z.to_nat (Z.min (96 + keygenLHash (megacloudKey ++ clientKey) `mod` 33)
                                       (len (interleave rotated (reverseString clientKey)))))
                      (interleave rotated (reverseString clientKey))) =
               Z.min (96 + keygenLHash (megacloudKey ++ clientKey) `mod` 33)
                     (len megacloudKey + len clientKey + len (reverseString clientKey))).
  { rewrite <- Hil. unfold len. rewrite length_fmap, length_take. unfold len. lia. }
  rewrite Hk. repeat split; [lia | lia |].
  apply Forall_fmap, Forall_forall. intros c _. apply normalized_range.
Qed.

Lemma keygen2_length_and_range_witness :
  ∃ key, keygen2 (str "megakey123") (str "clientkey456") = Returns key ∧
    len key = Z.min (96 + keygenLHash (str "megakey123" ++ str "clientkey456") `mod` 33)
                    (len (str "megakey123") + len (str "clientkey456") +
                     len (reverseString (str "clientkey456"))) ∧
    len key ≤ 128 ∧
    (96 ≤ len (str "megakey123") + len (str "clientkey456") +
          len (reverseString (str "clientkey456")) → 96 ≤ len key) ∧
    Forall (fun c => 32 ≤ byteval c ≤ 126) key.
Proof. apply (keygen2_length_and_range (str "megakey123") (str "clientkey456")). by vm_compute. Defined.

(** ** Framing *)

Lemma unframe_short text : len text < 4 → unframe text = Returns [].
Proof. intros. unfold unframe. by destruct (Z.ltb_spec (len text) 4); [|lia]. Qed.

Lemma unframe_prefix text :
  4 ≤ len text →
  unframe text =
  match Atoi (take 4 text) with
  | None => Returns []
  | Some dataLen =>
    if len text <? 4 + dataLen then Returns [] else slice text 4 (4 + dataLen)
  end.
Proof.
  intros. unfold unframe. destruct (Z.ltb_spec (len text) 4); [lia|].
  rewrite slice_returns by lia. by cbn.
Qed.

Lemma unframe_negative text n :
  4 ≤ len text → Atoi (take 4 text) = Some n → n < 0 →
  unframe text = Panics SliceBounds.
Proof.
  intros Hlen Hn Hneg. rewrite unframe_prefix, Hn by done.
  destruct (Z.ltb_spec (len text) (4 + n)); [lia|].
  unfold slice. destruct (Z.leb_spec 4 (4 + n)); [lia|]. done.
Qed.

Lemma unframe_data text n :
  4 ≤ len text → Atoi (take 4 text) = Some n → 0 ≤ n →
  unframe text =
  Returns (if len text <? 4 + n then [] else take (Z.to_nat n) (drop 4 text)).
Proof.
  intros Hlen Hn Hpos. rewrite unframe_prefix, Hn by done.
  destruct (Z.ltb_spec (len text) (4 + n)); [done|].
  rewrite slice_returns by lia. do 2 f_equal. lia.
Qed.

(** C1, evaluation at the failing inputs: with both keys empty [keygen2]
    divides by [len(tempKey) = 0]; with the payload below the text left by
    the three layers is [-001], whose length field is negative, and the
    final slice expression is out of range. *)
Theorem decryptSrc2_panics :
  decryptSrc2 (str "") (str "") (str "") = Panics DivideByZero ∧
  decryptSrc2 (str "VTpKRA==") (str "k") (str "s") = Panics SliceBounds.
Proof. split; vm_compute; reflexivity. Qed.

(** C5, evaluation at the failing input: the three layers leave the text
    [-001]; its first four characters parse as the decimal integer -1, so
    the parse succeeds and [4+n] does not exceed the length of the text,
    yet [decryptSrc2] does not return the substring: it panics. Any text
    with a negative length field does the same. *)
Theorem decryptSrc2_negative_length :
  (∃ genKey, keygen2 (str "s") (str "k") = Returns genKey ∧
     layersLoop layers genKey (atob (str "VTpKRA==")) = str "-001") ∧
  Atoi (str "-001") = Some (-1) ∧
  decryptSrc2 (str "VTpKRA==") (str "k") (str "s") = Panics SliceBounds ∧
  (∀ text n, 4 ≤ len text → Atoi (take 4 text) = Some n → n < 0 →
             unframe text = Panics SliceBounds).
Proof.
  split; [|split; [|split]].
  - eexists. split; [vm_compute; reflexivity|]. vm_compute; reflexivity.
  - vm_compute; reflexivity.
  - vm_compute; reflexivity.
  - apply unframe_negative.
Qed.

(** ** UTF-8 on ASCII text *)

Lemma decodeRune_ascii c t : isAscii c → Utf8.decodeRune (c :: t) = (byteval c, 1%nat).
Proof.
  unfold isAscii. intros Hc. unfold Utf8.decodeRune.
  destruct (Z.ltb_spec (byteval c) 128); [done|lia].
Qed.

Lemma first_lo s0 sz lo hi : Utf8.first s0 = Some (sz, lo, hi) → 128 ≤ lo.
Proof.
  unfold Utf8.first. repeat case_match; intros; simplify_eq; lia.
Qed.

Lemma accept_ascii lo hi a : 128 ≤ lo → isAscii a → Utf8.accept lo hi a = false.
Proof.
  unfold Utf8.accept, isAscii. intros. destruct (Z.leb_spec lo (byteval a)); [lia|done].
Qed.

Lemma decodeRune_width s : (snd (Utf8.decodeRune s) ≤ length s)%nat.
Proof.
  unfold Utf8.decodeRune.
  repeat (case_match; simpl; try lia).
Qed.

Lemma decodeRune_app_ascii c t a :
  isAscii a → Utf8.decodeRune (c :: t ++ [a]) = Utf8.decodeRune (c :: t).
Proof.
  intros Ha. unfold Utf8.decodeRune.
  destruct (byteval c <? 128); [done|].
  destruct (Utf8.first (byteval c)) as [[[sz lo] hi]|] eqn:Hf; [|done].
  apply first_lo in Hf.
  destruct t as [|c1 t1]; simpl.
  { by rewrite accept_ascii. }
  destruct (negb (Utf8.accept lo hi c1)); [done|].
  destruct (sz <=? 2)%nat; [done|].
  destruct t1 as [|c2 t2]; simpl.
  { by rewrite accept_ascii. }
  destruct (negb (Utf8.accept 128 191 c2)); [done|].
  destruct (sz <=? 3)%nat; [done|].
  destruct t2 as [|c3 t3]; simpl; [|done].
  by rewrite accept_ascii.
Qed.

Lemma rangeFrom_app_ascii s k a :
  isAscii a → (k ≤ length s)%nat →
  Utf8.rangeFrom k (s ++ [a]) = Utf8.rangeFrom k s ++ [Some (byteval a)].
Proof.
  intros Ha. revert k. induction s as [|c t IH]; intros k Hk.
  - simpl in Hk. assert (k = 0%nat) as -> by lia. simpl.
    unfold isAscii in Ha. destruct (Z.ltb_spec (byteval a) 128); [done|lia].
  - cbn [app Utf8.rangeFrom]. destruct k as [|k].
    + rewrite decodeRune_app_ascii by done.
      rewrite IH; [done|]. pose proof (decodeRune_width (c :: t)). simpl in *. lia.
    + rewrite IH; [done|]. simpl in Hk. lia.
Qed.

Lemma runes_app_ascii s a :
  isAscii a → Utf8.runes (s ++ [a]) = Utf8.runes s ++ [byteval a].
Proof.
  intros Ha. unfold Utf8.runes, Utf8.range.
  rewrite rangeFrom_app_ascii by (done || lia). by rewrite omap_app.
Qed.

Lemma range_ascii s :
  Forall isAscii s → Utf8.range s = Some ∘ byteval <$> s.
Proof.
  unfold Utf8.range. induction 1 as [|c t Hc Ht IH]; [done|].
  cbn [Utf8.rangeFrom]. rewrite decodeRune_ascii by done. simpl. by rewrite IH.
Qed.

Lemma runes_ascii s : Forall isAscii s → Utf8.runes s = byteval <$> s.
Proof.
  intros Hs. unfold Utf8.runes. rewrite range_ascii by done.
  clear Hs. induction s as [|c t IH]; [done|]. cbn. f_equal. exact IH.
Qed.

Lemma encodeRune_ascii c : isAscii c → Utf8.encodeRune (byteval c) = [c].
Proof.
  intros Hc. unfold Utf8.encodeRune. pose proof (byteval_range c). unfold isAscii in Hc.
  destruct (Z.ltb_spec (byteval c) 0); [lia|].
  destruct (Z.leb_spec (byteval c) 127); [|lia]. by rewrite mkbyte_byteval.
Qed.

Lemma ofRunes_ascii s : Forall isAscii s → Utf8.ofRunes (byteval <$> s) = s.
Proof.
  unfold Utf8.ofRunes. induction 1 as [|c t Hc Ht IH]; [done|].
  rewrite fmap_cons. cbn [flat_map]. rewrite encodeRune_ascii by done. by rewrite IH.
Qed.

Lemma atobStrip_pad s : atobStrip (s ++ str "=") = atobStrip s.
Proof.
  unfold atobStrip. change (str "=") with ["="%char].
  rewrite runes_app_ascii by (by vm_compute).
  rewrite filter_app. change (filter _ [byteval "="]) with (@nil Z).
  by rewrite app_nil_r.
Qed.

Ltac ascii_cases c := destruct c as [[] [] [] [] [] [] [] []].

Lemma atobLookup_alphabet c :
  atobLookup !! c = (Z.of_nat ∘ fst) <$> list_find (fun d => d = c) base64Chars.
Proof. ascii_cases c; vm_compute; reflexivity. Qed.

Lemma base64Chars_kept c :
  c ∈ base64Chars → isAscii c ∧ keptRune (byteval c) = true ∧ c ≠ "="%char.
Proof.
  intros Hc. assert (Hb : bool_decide (c ∈ base64Chars) = true) by (by apply bool_decide_eq_true).
  clear Hc. revert Hb. unfold isAscii.
  ascii_cases c; vm_compute; intros Hb; try discriminate Hb; repeat split; congruence.
Qed.

Lemma atobStrip_plain s : Forall plainByte s → atobStrip s = s.
Proof.
  intros Hs. unfold atobStrip. rewrite runes_ascii by (eapply Forall_impl; [done|by intros ? [? ?]]).
  induction Hs as [|c t [Hc Hk] Ht IH]; [done|].
  rewrite fmap_cons, filter_cons_True by done.
  rewrite fmap_cons, mkbyte_byteval. by rewrite IH.
Qed.

Lemma atob_pad s : atob (s ++ str "=") = atob s.
Proof. unfold atob. by rewrite atobStrip_pad. Qed.

Lemma atobVal_unmapped c : c ∉ base64Chars → atobVal [c] 0 = (0, false).
Proof.
  intros Hc. unfold atobVal. cbn [lookup list_lookup]. case_decide; [done|].
  rewrite (atobLookup_alphabet c).
  destruct (list_find _ base64Chars) as [[i d]|] eqn:Hf; [|done].
  apply list_find_Some in Hf as (Hd & -> & _).
  destruct Hc. eapply list_elem_of_lookup_2; done.
Qed.

(** ** Client key extraction *)

Lemma FindString_hit re s m : matchHere re s = Some m → FindString re s = m.
Proof. intros H. destruct s; simpl; by rewrite H. Qed.

Lemma FindString_miss re c t :
  matchHere re (c :: t) = None → FindString re (c :: t) = FindString re t.
Proof. intros H. cbn [FindString]. by rewrite H. Qed.

Lemma FindString_suffix re s :
  FindString re s ≠ [] →
  ∃ pre s', s = pre ++ s' ∧ matchHere re s' = Some (FindString re s).
Proof.
  induction s as [|c t IH]; intros Hm.
  - simpl in *. destruct (matchHere re []) eqn:E; [|done]. by exists [], [].
  - cbn [FindString] in *. destruct (matchHere re (c :: t)) eqn:E.
    + by exists [], (c :: t).
    + destruct (IH Hm) as (pre & s' & -> & Hs). by exists (c :: pre), s'.
Qed.

Lemma matchHere_one k re s m :
  matchHere (One k :: re) s = Some m →
  ∃ c t m', s = c :: t ∧ m = c :: m' ∧ clsMatch k c = true ∧ matchHere re t = Some m'.
Proof.
  destruct s as [|c t]; [done|]. cbn [matchHere].
  destruct (clsMatch k c) eqn:Hk; [|done].
  destruct (matchHere re t) as [m'|] eqn:Hm; [|done].
  intros [= <-]. by exists c, t, m'.
Qed.

Lemma matchHere_lits l re s m :
  matchHere (lits l ++ re) s = Some m →
  ∃ t m', s = l ++ t ∧ m = l ++ m' ∧ matchHere re t = Some m'.
Proof.
  revert s m. induction l as [|c l IH]; intros s m Hm.
  - by exists s, m.
  - apply matchHere_one in Hm as (d & t & m' & -> & -> & Hd & Hm).
    apply bool_decide_eq_true in Hd as ->.
    apply IH in Hm as (t' & m'' & -> & -> & Hm). by exists t', m''.
Qed.

Lemma matchStar_sound k rest s m :
  matchStar k rest s = Some m →
  ∃ run s2 m2, s = run ++ s2 ∧ m = run ++ m2 ∧
               Forall (fun c => clsMatch k c = true) run ∧ rest s2 = Some m2.
Proof.
  revert m. induction s as [|c t IH]; intros m; cbn [matchStar].
  - intros Hr. by exists [], [], m.
  - destruct (clsMatch k c) eqn:Hk.
    + destruct (matchStar k rest t) as [m1|] eqn:Hs.
      * intros [= <-]. destruct (IH m1 eq_refl) as (run & s2 & m2 & -> & -> & Hrun & Hr).
        exists (c :: run), s2, m2. split_and!; try done. by constructor.
      * intros Hr. by exists [], (c :: t), m.
    + intros Hr. by exists [], (c :: t), m.
Qed.

Lemma matchHere_plus k re s m :
  matchHere (Plus k :: re) s = Some m →
  ∃ run s2 m2, s = run ++ s2 ∧ m = run ++ m2 ∧ run ≠ [] ∧
               Forall (fun c => clsMatch k c = true) run ∧ matchHere re s2 = Some m2.
Proof.
  destruct s as [|c t]; [done|]. cbn [matchHere].
  destruct (clsMatch k c) eqn:Hk; [|done].
  destruct (matchStar k (matchHere re) t) as [m'|] eqn:Hm; [|done].
  intros [= <-]. apply matchStar_sound in Hm as (run & s2 & m2 & -> & -> & Hrun & Hr).
  exists (c :: run), s2, m2. split_and!; try done. by constructor.
Qed.

(** A greedy repetition takes a whole run when the text after the run
    cannot extend it and the rest of the pattern matches there. *)
Lemma matchStar_run k rest run s2 m2 :
  Forall (fun c => clsMatch k c = true) run →
  rest s2 = Some m2 →
  match s2 with [] => True | c :: _ => clsMatch k c = false end →
  matchStar k rest (run ++ s2) = Some (run ++ m2).
Proof.
  intros Hrun Hr Hs2. induction Hrun as [|c run Hc Hrun IH].
  - simpl. destruct s2 as [|c t]; simpl; [done|]. by rewrite Hs2.
  - cbn [app matchStar]. by rewrite Hc, IH.
Qed.

Lemma matchHere_plus_run k re run s2 m2 :
  run ≠ [] →
  Forall (fun c => clsMatch k c = true) run →
  matchHere re s2 = Some m2 →
  match s2 with [] => True | c :: _ => clsMatch k c = false end →
  matchHere (Plus k :: re) (run ++ s2) = Some (run ++ m2).
Proof.
  intros Hne Hrun Hr Hs2. destruct Hrun as [|c run Hc Hrun]; [done|].
  cbn [app matchHere]. rewrite Hc. by rewrite (matchStar_run _ _ run s2 m2).
Qed.

(** [Trim] of a quoted token. *)
Lemma dropWhile_head {A} (p : A → bool) c l : p c = false → dropWhile p (c :: l) = c :: l.
Proof. intros H. simpl. by rewrite H. Qed.

Lemma alnum_not_dquote c : isAlnum c = true → c ≠ dquote.
Proof. intros H ->. by vm_compute in H. Qed.

Lemma Trim_quoted key :
  key ≠ [] → Forall (fun c => isAlnum c = true) key →
  Trim (dquote :: key ++ [dquote]) dquote = key.
Proof.
  intros Hne Hk. unfold Trim.
  assert (Hd : ∀ l, l ≠ [] → Forall (fun c => isAlnum c = true) l → ∀ t,
             dropWhile (fun c => bool_decide (c = dquote)) (l ++ t) = l ++ t).
  { intros [|c l] ? Hl t; [done|]. apply Forall_cons in Hl as [Hc _].
    apply dropWhile_head. apply bool_decide_eq_false. by apply alnum_not_dquote. }
  cbv zeta. cbn [dropWhile]. change (bool_decide (dquote = dquote)) with true. cbv iota.
  rewrite Hd by done. rewrite reverse_app.
  assert (Hr : dropWhile (fun c => bool_decide (c = dquote)) (reverse key) = reverse key).
  { rewrite <- (app_nil_r (reverse key)). apply Hd; [|by apply Forall_reverse].
    intros Hr. apply (f_equal reverse) in Hr. by rewrite reverse_involutive in Hr. }
  change (reverse [dquote]) with [dquote]. cbn [app dropWhile].
  change (bool_decide (dquote = dquote)) with true. cbv iota.
  rewrite Hr. apply reverse_involutive.
Qed.

Lemma metaPattern_shape :
  metaPattern = lits metaPrefix ++ [One (Lit dquote); Plus Alnum; One (Lit dquote); One (Lit ">"%char)].
Proof. reflexivity. Qed.

Lemma meta_match s m :
  matchHere metaPattern s = Some m → ∃ key, alnumToken key ∧ m = metaTag key.
Proof.
  rewrite metaPattern_shape. intros Hm.
  apply matchHere_lits in Hm as (t & m1 & -> & -> & Hm).
  apply matchHere_one in Hm as (c & t1 & m2 & -> & -> & Hc & Hm).
  apply bool_decide_eq_true in Hc as ->.
  apply matchHere_plus in Hm as (run & s2 & m3 & -> & -> & Hne & Hrun & Hm).
  apply matchHere_one in Hm as (c & t2 & m4 & -> & -> & Hc & Hm).
  apply bool_decide_eq_true in Hc as ->.
  apply matchHere_one in Hm as (c & t3 & m5 & -> & -> & Hc & Hm).
  apply bool_decide_eq_true in Hc as ->. simpl in Hm. injection Hm as <-.
  exists run. split; [done|]. done.
Qed.

Lemma keyRe_skip1 d t : d ≠ dquote → matchHere keyRe (d :: t) = None.
Proof.
  intros Hd. unfold keyRe, quoted. cbn [matchHere clsMatch].
  by rewrite bool_decide_eq_false_2.
Qed.

Lemma keyRe_skip2 e t : isAlnum e = false → matchHere keyRe (dquote :: e :: t) = None.
Proof.
  intros He. unfold keyRe, quoted. cbn [matchHere clsMatch].
  change (bool_decide (dquote = dquote)) with true. cbv iota. by rewrite He.
Qed.

Lemma matchHere_one_hit k re c t :
  clsMatch k c = true → matchHere (One k :: re) (c :: t) = cons c <$> matchHere re t.
Proof. intros Hc. cbn [matchHere]. by rewrite Hc. Qed.

Lemma matchHere_one_miss k re c t :
  clsMatch k c = false → matchHere (One k :: re) (c :: t) = None.
Proof. intros Hc. cbn [matchHere]. by rewrite Hc. Qed.

Lemma keyRe_hit key t :
  alnumToken key →
  matchHere keyRe (dquote :: key ++ dquote :: t) = Some (dquote :: key ++ [dquote]).
Proof.
  intros [Hne Hk]. unfold keyRe, quoted. rewrite matchHere_one_hit by done.
  rewrite (matchHere_plus_run Alnum [One (Lit dquote)] key (dquote :: t) [dquote]); done.
Qed.

Ltac skip_keyRe :=
  repeat (rewrite FindString_miss by
            (first [ apply keyRe_skip1; discriminate | apply keyRe_skip2; reflexivity ])).

Lemma FindString_keyRe_metaTag key :
  alnumToken key → FindString keyRe (metaTag key) = dquote :: key ++ [dquote].
Proof.
  intros Hk. unfold metaTag, metaPrefix, str. cbn [list_ascii_of_string app].
  skip_keyRe. apply FindString_hit. by apply keyRe_hit.
Qed.

Lemma keyOfMatch_metaTag key : alnumToken key → keyOfMatch 0 (metaTag key) = inr key.
Proof.
  intros Hk. unfold keyOfMatch. rewrite FindString_keyRe_metaTag by done.
  destruct Hk. by rewrite Trim_quoted.
Qed.

Lemma firstMatch_head i pat rest html :
  FindString pat html ≠ [] →
  firstMatch i (pat :: rest) html = Some (i, FindString pat html).
Proof. intros Hm. cbn [firstMatch]. by destruct (FindString pat html). Qed.

Lemma extractClientKey_meta html :
  FindString metaPattern html ≠ [] →
  ∃ key, alnumToken key ∧ FindString metaPattern html = metaTag key ∧
         extractClientKey html = inr key.
Proof.
  intros Hm. destruct (FindString_suffix _ _ Hm) as (pre & s' & -> & Hs).
  destruct (meta_match _ _ Hs) as (key & Hk & Hkey).
  exists key. split_and!; [done..|].
  unfold extractClientKey. change patterns with (metaPattern :: drop 1 patterns).
  rewrite firstMatch_head by done. rewrite Hkey. by apply keyOfMatch_metaTag.
Qed.

Lemma partRe_skip_char n d t :
  d ≠ n → FindString (partRe n) (d :: t) = FindString (partRe n) t.
Proof.
  intros Hd. apply FindString_miss, matchHere_one_miss. cbn [clsMatch].
  by rewrite bool_decide_eq_false_2.
Qed.

Lemma partRe_skip_spaces n w t :
  isSpace n = false → Forall (fun c => isSpace c = true) w →
  FindString (partRe n) (w ++ t) = FindString (partRe n) t.
Proof.
  intros Hn Hw. induction Hw as [|c w Hc Hw IH]; [done|].
  cbn [app]. rewrite partRe_skip_char; [done|]. intros ->. congruence.
Qed.

Lemma partRe_skip_nocolon n d e t :
  e ≠ ":"%char → FindString (partRe n) (d :: e :: t) = FindString (partRe n) (e :: t).
Proof.
  intros He. apply FindString_miss. unfold partRe.
  destruct (decide (d = n)) as [->|Hd].
  - rewrite matchHere_one_hit by (cbn [clsMatch]; by rewrite bool_decide_eq_true_2).
    rewrite matchHere_one_miss; [done|]. cbn [clsMatch]. by rewrite bool_decide_eq_false_2.
  - apply matchHere_one_miss. cbn [clsMatch]. by rewrite bool_decide_eq_false_2.
Qed.

Lemma alnum_not_colon c : isAlnum c = true → c ≠ ":"%char.
Proof. intros H ->. by vm_compute in H. Qed.

Lemma partRe_skip_alnum n v e t :
  Forall (fun c => isAlnum c = true) v → e ≠ ":"%char →
  FindString (partRe n) (v ++ e :: t) = FindString (partRe n) (e :: t).
Proof.
  intros Hv He. induction Hv as [|c v Hc Hv IH]; [done|].
  cbn [app]. destruct Hv as [|c' v Hc' Hv]; cbn [app] in *.
  - by apply partRe_skip_nocolon.
  - rewrite partRe_skip_nocolon by (by apply alnum_not_colon). apply IH.
Qed.

Lemma space_not_alnum c : isSpace c = true → isAlnum c = false.
Proof. ascii_cases c; vm_compute; congruence. Qed.

Lemma partRe_hit n w v t :
  spaceRun w → alnumToken v →
  matchHere (partRe n) (n :: ":"%char :: w ++ dquote :: v ++ dquote :: t) = Some (field n w v).
Proof.
  intros [Hwn Hw] [Hvn Hv]. unfold partRe, field.
  rewrite matchHere_one_hit by (cbn [clsMatch]; by rewrite bool_decide_eq_true_2).
  rewrite matchHere_one_hit by (cbn [clsMatch]; by rewrite bool_decide_eq_true_2).
  rewrite (matchHere_plus_run Space _ w (dquote :: v ++ dquote :: t) (dquote :: v ++ [dquote]));
    [done | done | done | | done].
  rewrite matchHere_one_hit by done.
  by rewrite (matchHere_plus_run Alnum [One (Lit dquote)] v (dquote :: t) [dquote]).
Qed.

Lemma keyRe_skip_spaces w t :
  Forall (fun c => isSpace c = true) w →
  FindString keyRe (w ++ t) = FindString keyRe t.
Proof.
  induction 1 as [|c w Hc Hw IH]; [done|]. cbn [app].
  rewrite FindString_miss; [done|]. apply keyRe_skip1. intros ->. by vm_compute in Hc.
Qed.

Lemma field_key n w v :
  n ≠ dquote → spaceRun w → alnumToken v →
  FindString keyRe (field n w v) = dquote :: v ++ [dquote].
Proof.
  intros Hn [_ Hw] Hv. unfold field.
  rewrite FindString_miss by (by apply keyRe_skip1).
  rewrite FindString_miss by (by apply keyRe_skip1).
  rewrite keyRe_skip_spaces by done.
  apply FindString_hit. by apply keyRe_hit.
Qed.

Lemma lkDbLoop_step n rest text parts w v :
  n ≠ dquote → spaceRun w → alnumToken v →
  FindString (partRe n) text = field n w v →
  lkDbLoop (partRe n :: rest) text parts = lkDbLoop rest text (parts ++ [v]).
Proof.
  intros Hn Hw Hv Hf. cbn [lkDbLoop]. rewrite Hf.
  pose proof (field_key n w v Hn Hw Hv) as Hk.
  destruct (field n w v) as [|c l] eqn:E; [by unfold field in E|].
  rewrite Hk. destruct Hv. by rewrite Trim_quoted.
Qed.

Ltac neq_char := let E := fresh in intros E; vm_compute in E; discriminate E.

Ltac scan_part :=
  repeat first
    [ rewrite partRe_skip_char by neq_char
    | rewrite partRe_skip_spaces by (reflexivity || assumption)
    | rewrite partRe_skip_alnum by (assumption || neq_char) ];
  apply FindString_hit, partRe_hit; (assumption || (split; assumption)).

Ltac normalize_text :=
  unfold objectText, fieldsInOrder, field, str;
  repeat first [rewrite <- app_assoc | progress cbn [list_ascii_of_string app]].

Lemma objectText_parts (o : lkDbObject) :
  wellFormed o →
  FindString (partRe "x") (objectText o) = field "x" (spX o) (valX o) ∧
  FindString (partRe "y") (objectText o) = field "y" (spY o) (valY o) ∧
  FindString (partRe "z") (objectText o) = field "z" (spZ o) (valZ o).
Proof.
  destruct o as [ord w1 w2 s1 s2 wx wy wz vx vy vz]. unfold wellFormed.
  cbn [spEq1 spEq2 spSep1 spSep2 spX spY spZ valX valY valZ]. intros [Hw Hv].
  repeat (apply Forall_cons in Hw as [[? ?] Hw]).
  repeat (apply Forall_cons in Hv as [[? ?] Hv]).
  destruct ord; (split; [|split]); normalize_text; cbn [order]; cbv iota;
    repeat first [rewrite <- app_assoc | progress cbn [list_ascii_of_string app]];
    scan_part.
Qed.

Lemma keyOfMatch_objectText o :
  wellFormed o → keyOfMatch 2 (objectText o) = inr (valX o ++ valY o ++ valZ o).
Proof.
  intros Hwf. destruct (objectText_parts o Hwf) as (Hx & Hy & Hz).
  destruct Hwf as [Hw Hv].
  repeat (apply Forall_cons in Hw as [? Hw]).
  repeat (apply Forall_cons in Hv as [? Hv]).
  unfold keyOfMatch. change lkDbParts with [partRe "x"; partRe "y"; partRe "z"].
  rewrite (lkDbLoop_step "x" _ _ _ (spX o) (valX o)) by (done || neq_char).
  rewrite (lkDbLoop_step "y" _ _ _ (spY o) (valY o)) by (done || neq_char).
  rewrite (lkDbLoop_step "z" _ _ _ (spZ o) (valZ o)) by (done || neq_char).
  cbn [lkDbLoop app concat]. by rewrite app_nil_r.
Qed.

Lemma firstMatch_skip i pat rest html :
  FindString pat html = [] → firstMatch i (pat :: rest) html = firstMatch (S i) rest html.
Proof. intros Hm. cbn [firstMatch]. by rewrite Hm. Qed.

Lemma firstMatch_None i pats html :
  firstMatch i pats html = None ↔ ∀ pat, pat ∈ pats → FindString pat html = [].
Proof.
  revert i. induction pats as [|pat rest IH]; intros i.
  - split; [|done]. intros _ pat Hp. by apply elem_of_nil in Hp.
  - cbn [firstMatch]. destruct (FindString pat html) as [|c m] eqn:Hm.
    + rewrite IH. split.
      * intros Hr p Hp. apply elem_of_cons in Hp as [->|Hp]; auto.
      * intros Hr p Hp. apply Hr. by right.
    + split; [done|]. intros Hr. specialize (Hr pat). rewrite Hm in Hr. discriminate Hr. by left.
Qed.

Lemma firstMatch_first i pats html k pat :
  pats !! k = Some pat → FindString pat html ≠ [] →
  (∀ j pat', (j < k)%nat → pats !! j = Some pat' → FindString pat' html = []) →
  firstMatch i pats html = Some ((i + k)%nat, FindString pat html).
Proof.
  revert i k. induction pats as [|p rest IH]; intros i k Hk Hm Hbefore; [done|].
  destruct k as [|k].
  - simpl in Hk. injection Hk as ->. rewrite firstMatch_head by done.
    by rewrite Nat.add_0_r.
  - rewrite firstMatch_skip by (by apply (Hbefore 0%nat); [lia|]).
    rewrite (IH (S i) k); [by rewrite Nat.add_succ_r|done|done|].
    intros j pat' Hj Hp. apply (Hbefore (S j)); [lia|done].
Qed.

Lemma keyOfMatch_error i m e : keyOfMatch i m = inl e → e ≠ NoPatternMatched.
Proof.
  unfold keyOfMatch.
  assert (Hl : ∀ res parts e', lkDbLoop res m parts = inl e' → e' ≠ NoPatternMatched).
  { induction res as [|r res IH]; intros parts e'; cbn [lkDbLoop]; [done|].
    destruct (FindString r m); [by intros [= <-]|].
    destruct (FindString keyRe _); [by intros [= <-]|]. apply IH. }
  destruct i as [|[|[|i]]].
  - destruct (FindString keyRe m); by intros [= <-].
  - destruct (FindString commentKeyRe m); by intros [= <-].
  - destruct (lkDbLoop lkDbParts m []) eqn:E; [|done]. intros [= <-]. by eapply Hl.
  - destruct (FindString keyRe m); by intros [= <-].
Qed.

Lemma extractClientKey_NoPatternMatched html :
  extractClientKey html = inl NoPatternMatched ↔
  ∀ pat, pat ∈ patterns → FindString pat html = [].
Proof.
  rewrite <- (firstMatch_None 0). unfold extractClientKey.
  destruct (firstMatch 0 patterns html) as [[i m]|]; [|done].
  split; [|done]. intros He. by apply keyOfMatch_error in He.
Qed.

Lemma extractClientKey_first html i pat :
  patterns !! i = Some pat → FindString pat html ≠ [] →
  (∀ j pat', (j < i)%nat → patterns !! j = Some pat' → FindString pat' html = []) →
  extractClientKey html = keyOfMatch i (FindString pat html).
Proof.
  intros Hi Hm Hb. unfold extractClientKey.
  by rewrite (firstMatch_first 0 patterns html i pat).
Qed.

Lemma extractClientKey_lkDb html o :
  wellFormed o →
  FindString (patterns !!! 0%nat) html = [] →
  FindString (patterns !!! 1%nat) html = [] →
  FindString (patterns !!! 2%nat) html = objectText o →
  extractClientKey html = inr (valX o ++ valY o ++ valZ o).
Proof.
  intros Hwf H0 H1 H2.
  rewrite (extractClientKey_first html 2 (patterns !!! 2%nat)); [|done| |].
  - rewrite H2. by apply keyOfMatch_objectText.
  - rewrite H2. unfold objectText, fieldsInOrder. by destruct (order o).
  - intros [|[|j]] pat' Hj Hp; [| |lia]; simpl in Hp; injection Hp as <-; done.
Qed.

(** C7, counterexample: the document matches pattern 5 (the assignment,
    here with single quotes) and [extractClientKey] fails all the same,
    because the general key pattern wants double quotes. *)
Lemma extractClientKey_fails_on_match :
  FindString (patterns !!! 5%nat) c7_single_quoted ≠ [] ∧
  extractClientKey c7_single_quoted = inl ValueMissing ∧
  ¬ (∀ pat, pat ∈ patterns → FindString pat c7_single_quoted = []).
Proof.
  split; [by vm_compute|]. split; [by vm_compute|].
  intros Hnone. specialize (Hnone (patterns !!! 5%nat)).
  assert (Hin : patterns !!! 5%nat ∈ patterns) by (apply list_elem_of_lookup; by exists 5%nat).
  specialize (Hnone Hin). by vm_compute in Hnone.
Qed.

(** C7, amended: [extractClientKey] tries its six patterns in a fixed
    priority order and extracts the key from the match of the first pattern
    that matches anywhere in the document, wherever the others occur; when
    the meta-tag pattern matches, whatever else the document holds, the
    value of the meta tag is returned; it fails with the error of no pattern
    matched exactly when none of the six patterns match, and it fails with an
    extraction error when the text of the first match holds no token of the
    form the extraction looks for. *)
Theorem extractClientKey_priority (html : list ascii) :
  (extractClientKey html = inl NoPatternMatched ↔
   ∀ pat, pat ∈ patterns → FindString pat html = []) ∧
  (∀ i pat, patterns !! i = Some pat → FindString pat html ≠ [] →
     (∀ j pat', (j < i)%nat → patterns !! j = Some pat' → FindString pat' html = []) →
     extractClientKey html = keyOfMatch i (FindString pat html)) ∧
  (FindString metaPattern html ≠ [] →
   ∃ key, alnumToken key ∧ FindString metaPattern html = metaTag key ∧
          extractClientKey html = inr key).
Proof.
  split_and!.
  - apply extractClientKey_NoPatternMatched.
  - apply extractClientKey_first.
  - apply extractClientKey_meta.
Qed.

Lemma extractClientKey_priority_witness :
  FindString (patterns !!! 2%nat) c7_both ≠ [] ∧
  extractClientKey c7_both = inr (str "abc123XYZ") ∧
  ∃ key, alnumToken key ∧ FindString metaPattern c7_both = metaTag key ∧
         extractClientKey c7_both = inr key.
Proof.
  split; [by vm_compute|]. split; [by vm_compute|].
  apply (proj2 (proj2 (extractClientKey_priority c7_both))). by vm_compute.
Defined.

(** C8, counterexample: the object lists z, y, x with the values partA,
    partB, partC; the code returns the values in the name order x, y, z,
    which is partCpartBpartA, not the order of appearance. *)
Lemma extractClientKey_lkDb_not_literal_order :
  FindString (patterns !!! 2%nat) c8_html = objectText c8_object ∧
  concat (valuesInOrder c8_object) = str "partApartBpartC" ∧
  extractClientKey c8_html = inr (str "partCpartBpartA") ∧
  extractClientKey c8_html ≠ inr (concat (valuesInOrder c8_object)).
Proof. split_and!; by vm_compute. Qed.

(** C8, amended: for every HTML document whose first matching pattern is
    the three-field object pattern and whose matched object holds the
    fields x, y and z once each, double-quoted, in any order, the extracted
    client key is the concatenation of the values of x, y and z in the
    fixed name order x, y, z, whatever the order in which the object lists
    them. *)
Theorem extractClientKey_lkDb_name_order (html : list ascii) (o : lkDbObject) :
  wellFormed o →
  FindString (patterns !!! 0%nat) html = [] →
  FindString (patterns !!! 1%nat) html = [] →
  FindString (patterns !!! 2%nat) html = objectText o →
  extractClientKey html = inr (valX o ++ valY o ++ valZ o).
Proof. apply extractClientKey_lkDb. Qed.

Lemma extractClientKey_lkDb_name_order_witness :
  extractClientKey c8_html = inr (str "partC" ++ str "partB" ++ str "partA").
Proof.
  apply (extractClientKey_lkDb_name_order c8_html c8_object).
  - unfold wellFormed, spaceRun, alnumToken. apply (bool_decide_unpack _). by vm_compute.
  - by vm_compute.
  - by vm_compute.
  - by vm_compute.
Defined.

(** ** Swaps and the insertion sort *)

Lemma swap_Permutation {A} (i j : nat) (l : list A) : swap i j l ≡ₚ l.
Proof.
  unfold swap. destruct (l !! i) as [x|] eqn:Hi; [|done].
  destruct (l !! j) as [y|] eqn:Hj; [|done].
  by apply Permutation_insert_swap.
Qed.

Lemma swap_length {A} (i j : nat) (l : list A) : length (swap i j l) = length l.
Proof. apply Permutation_length, swap_Permutation. Qed.

Lemma sortInner_Permutation j l : sortInner j l ≡ₚ l.
Proof.
  revert l. induction j as [|j IH]; intros l; cbn [sortInner]; [done|].
  repeat case_match; try done. rewrite IH. apply swap_Permutation.
Qed.

Lemma insertionSort_Permutation l : insertionSort l ≡ₚ l.
Proof.
  unfold insertionSort. generalize (seq 1 (length l - 1)). intros ixs.
  revert l. induction ixs as [|i ixs IH]; intros l; cbn [foldl]; [done|].
  rewrite IH. apply sortInner_Permutation.
Qed.

Lemma keyMapOf_idx ikey : idx <$> keyMapOf ikey = seq 0 (length ikey).
Proof.
  unfold keyMapOf. rewrite fmap_imap. apply list_eq. intros i.
  rewrite list_lookup_imap. destruct (ikey !! i) as [c|] eqn:Hi; simpl.
  - symmetry. apply lookup_seq. apply lookup_lt_Some in Hi. done.
  - symmetry. apply lookup_ge_None. rewrite length_seq. by apply lookup_ge_None in Hi.
Qed.

Lemma columnOrder_Permutation ikey : columnOrder ikey ≡ₚ seq 0 (length ikey).
Proof.
  unfold columnOrder. rewrite insertionSort_Permutation. by rewrite keyMapOf_idx.
Qed.

Lemma columnOrder_length ikey : length (columnOrder ikey) = length ikey.
Proof. rewrite columnOrder_Permutation. apply length_seq. Qed.

Lemma columnOrder_NoDup ikey : NoDup (columnOrder ikey).
Proof. rewrite columnOrder_Permutation. apply NoDup_seq. Qed.

Lemma columnOrder_lt ikey t c : columnOrder ikey !! t = Some c → (c < length ikey)%nat.
Proof.
  intros Ht. apply list_elem_of_lookup_2 in Ht.
  rewrite columnOrder_Permutation in Ht. apply elem_of_seq in Ht. lia.
Qed.

Lemma columnOrder_pos ikey c :
  (c < length ikey)%nat → ∃ t, (t < length ikey)%nat ∧ columnOrder ikey !! t = Some c.
Proof.
  intros Hc. assert (Hin : c ∈ columnOrder ikey).
  { rewrite columnOrder_Permutation. apply elem_of_seq. lia. }
  apply list_elem_of_lookup_1 in Hin as [t Ht]. exists t. split; [|done].
  apply lookup_lt_Some in Ht. by rewrite columnOrder_length in Ht.
Qed.

(** ** Lists of blocks of one length *)

Lemma length_bind_const {A B} (F : A → list B) (l : list A) m :
  (∀ x, length (F x) = m) → length (l ≫= F) = (length l * m)%nat.
Proof.
  intros HF. induction l as [|x l IH]; [done|].
  rewrite bind_cons, length_app, HF, IH. simpl. lia.
Qed.

Lemma lookup_bind_const {A B} (F : A → list B) (l : list A) m t r :
  (∀ x, length (F x) = m) → (r < m)%nat →
  (l ≫= F) !! (t * m + r)%nat = l !! t ≫= (fun x => F x !! r).
Proof.
  intros HF Hr. revert t. induction l as [|x l IH]; intros t; [done|].
  rewrite bind_cons. destruct t as [|t].
  - simpl. rewrite lookup_app_l by (rewrite HF; lia). done.
  - rewrite lookup_app_r by (rewrite HF; lia). rewrite HF.
    replace (S t * m + r - m)%nat with (t * m + r)%nat by lia. apply IH.
Qed.

(** ** The grid of [columnarCipher2] *)

Lemma gridDims_row R C g r : gridDims R C g → (r < R)%nat → length (g !!! r) = C.
Proof.
  intros [Hl Hrows] Hr. rewrite Forall_forall in Hrows. apply Hrows.
  apply list_elem_of_lookup. exists r. apply list_lookup_lookup_total_lt. lia.
Qed.

Lemma gridDims_setCell R C g r c x : gridDims R C g → gridDims R C (setCell g r c x).
Proof.
  intros [Hl Hrows]. unfold setCell. split.
  - by rewrite length_alter.
  - rewrite Forall_lookup in *. intros i row Hi.
    rewrite list_lookup_alter in Hi. case_decide as Hd.
    + subst i. destruct (g !! r) as [row0|] eqn:Hr; simplify_eq/=.
      rewrite length_insert. by eapply Hrows.
    + by eapply Hrows.
Qed.

Lemma cellAt_setCell_eq R C g r c x :
  gridDims R C g → (r < R)%nat → (c < C)%nat → cellAt (setCell g r c x) r c = x.
Proof.
  intros Hg Hr Hc. unfold cellAt, setCell. pose proof (gridDims_row R C g r Hg Hr).
  destruct Hg as [Hl _].
  rewrite list_lookup_total_alter_eq by lia.
  rewrite list_lookup_total_insert_eq by lia. done.
Qed.

Lemma cellAt_setCell_ne g r c x r' c' :
  (r', c') ≠ (r, c) → cellAt (setCell g r c x) r' c' = cellAt g r' c'.
Proof.
  intros Hne. unfold cellAt, setCell. rewrite list_lookup_total_alter.
  case_decide as Hd; [|done]. destruct Hd as [-> _].
  rewrite list_lookup_total_insert_ne; [done|]. congruence.
Qed.

Lemma fillCell_Some src g k r c x :
  src !! k = Some x → fillCell src (g, k) (r, c) = (setCell g r c x, S k).
Proof. intros Hk. unfold fillCell. by rewrite Hk. Qed.

Lemma fillCell_None src g k cell :
  src !! k = None → fillCell src (g, k) cell = (g, k).
Proof. intros Hk. unfold fillCell. by rewrite Hk. Qed.

Lemma fill_cells src R C cells :
  ∀ g k, gridDims R C g → NoDup cells →
  Forall (fun cell : nat * nat => (cell.1 < R)%nat ∧ (cell.2 < C)%nat) cells →
  (∀ q r c, cells !! q = Some (r, c) →
     cellAt (foldl (fillCell src) (g, k) cells).1 r c =
     default (cellAt g r c) (src !! (k + q)%nat)) ∧
  (∀ r c, (r, c) ∉ cells →
     cellAt (foldl (fillCell src) (g, k) cells).1 r c = cellAt g r c).
Proof.
  induction cells as [|[r0 c0] cells IH]; intros g k Hg Hnd Hrange.
  { split; [done|]. by intros. }
  apply NoDup_cons in Hnd as [Hnotin Hnd].
  apply Forall_cons in Hrange as [[Hr0 Hc0] Hrange]. simpl in Hr0, Hc0.
  cbn [foldl].
  destruct (src !! k) as [x|] eqn:Hk.
  - rewrite (fillCell_Some _ _ _ _ _ x) by done.
    destruct (IH (setCell g r0 c0 x) (S k) (gridDims_setCell _ _ _ _ _ _ Hg) Hnd Hrange)
      as [IH1 IH2].
    split.
    + intros [|q] r c Hq.
      * simpl in Hq. injection Hq as <- <-. rewrite IH2 by done.
        rewrite Nat.add_0_r, Hk. simpl. by eapply cellAt_setCell_eq.
      * simpl in Hq. rewrite (IH1 q r c Hq).
        replace (k + S q)%nat with (S k + q)%nat by lia.
        rewrite cellAt_setCell_ne; [done|].
        intros [= -> ->]. apply Hnotin. by eapply list_elem_of_lookup_2.
    + intros r c Hnot. rewrite IH2 by (intros ?; apply Hnot; by right).
      apply cellAt_setCell_ne. intros [= -> ->]. apply Hnot. by left.
  - rewrite fillCell_None by done.
    destruct (IH g k Hg Hnd Hrange) as [IH1 IH2]. split.
    + intros [|q] r c Hq.
      * simpl in Hq. injection Hq as <- <-. rewrite IH2 by done.
        by rewrite Nat.add_0_r, Hk.
      * simpl in Hq. rewrite (IH1 q r c Hq).
        assert (src !! (k + q)%nat = None) as ->.
        { apply lookup_ge_None. apply lookup_ge_None in Hk. lia. }
        assert (src !! (k + S q)%nat = None) as ->; [|done].
        apply lookup_ge_None. apply lookup_ge_None in Hk. lia.
    + intros r c Hnot. apply IH2. intros ?; apply Hnot; by right.
Qed.

Lemma fillOrder_cells sortedMap R : fillOrder sortedMap R = cellsOf (idx <$> sortedMap) R.
Proof.
  unfold fillOrder, cellsOf. induction sortedMap as [|ki l IH]; [done|].
  rewrite fmap_cons, !bind_cons. by rewrite IH.
Qed.

Lemma cellsOf_lookup cols R t c r :
  cols !! t = Some c → (r < R)%nat → cellsOf cols R !! (t * R + r)%nat = Some (r, c).
Proof.
  intros Ht Hr. unfold cellsOf.
  rewrite (lookup_bind_const _ _ R) by (done || intros; by rewrite length_fmap, length_seq).
  rewrite Ht. simpl. rewrite list_lookup_fmap.
  by rewrite (proj2 (lookup_seq 0 R r r)).
Qed.

Lemma cellsOf_range cols R C :
  Forall (fun c => (c < C)%nat) cols →
  Forall (fun cell : nat * nat => (cell.1 < R)%nat ∧ (cell.2 < C)%nat) (cellsOf cols R).
Proof.
  intros Hcols. unfold cellsOf. induction Hcols as [|c cols Hc Hcols IH]; [done|].
  rewrite bind_cons. apply Forall_app. split; [|done].
  apply Forall_fmap, Forall_forall. intros row Hrow. apply elem_of_seq in Hrow.
  simpl. lia.
Qed.

Lemma cellsOf_elem cols R r c : (r, c) ∈ cellsOf cols R → c ∈ cols.
Proof.
  unfold cellsOf. induction cols as [|c0 cols IH]; [by intros ?%elem_of_nil|].
  rewrite bind_cons, elem_of_app. intros [Hin|Hin].
  - apply list_elem_of_fmap in Hin as (row & [= -> ->] & _). by left.
  - right. by apply IH.
Qed.

Lemma cellsOf_NoDup cols R : NoDup cols → NoDup (cellsOf cols R).
Proof.
  induction 1 as [|c cols Hnotin Hnd IH]; [constructor|].
  unfold cellsOf. rewrite bind_cons. apply NoDup_app. split_and!.
  - apply NoDup_fmap_2; [|apply NoDup_seq]. intros ?? [= ->]. done.
  - intros [r c'] Hin Hin'. apply list_elem_of_fmap in Hin as (row & [= -> ->] & _).
    apply Hnotin. by eapply cellsOf_elem.
  - apply IH.
Qed.

Lemma blankGrid_dims R C : gridDims R C (replicate R (replicate C " "%char)).
Proof.
  split; [by rewrite length_replicate|].
  apply Forall_replicate. by rewrite length_replicate.
Qed.

Lemma blankGrid_cell R C r c :
  (r < R)%nat → (c < C)%nat → cellAt (replicate R (replicate C " "%char)) r c = " "%char.
Proof.
  intros Hr Hc. unfold cellAt. rewrite lookup_total_replicate_2 by done.
  by rewrite lookup_total_replicate_2.
Qed.

Lemma columnarCipher2_unfold src ikey :
  ikey ≠ [] →
  columnarCipher2 src ikey =
  row ← seq 0 (rowsOf src ikey);
  (fun col => cellAt (foldl (fillCell src)
                        (replicate (rowsOf src ikey) (replicate (length ikey) " "%char), 0%nat)
                        (cellsOf (columnOrder ikey) (rowsOf src ikey))).1 row col)
    <$> seq 0 (length ikey).
Proof.
  intros Hne. unfold columnarCipher2. rewrite decide_False by (by destruct ikey).
  cbv zeta. by rewrite fillOrder_cells.
Qed.

Lemma columnarCipher2_length src ikey :
  ikey ≠ [] → length (columnarCipher2 src ikey) = (rowsOf src ikey * length ikey)%nat.
Proof.
  intros Hne. rewrite columnarCipher2_unfold by done.
  rewrite (length_bind_const _ _ (length ikey)) by (intros; by rewrite length_fmap, length_seq).
  by rewrite length_seq.
Qed.

(** The cell of row [r] in the column filled [t]-th holds the byte
    [t * rowCount + r] of the source, or a space past its end. *)
Lemma columnarCipher2_lookup src ikey t c r :
  ikey ≠ [] → columnOrder ikey !! t = Some c → (r < rowsOf src ikey)%nat →
  columnarCipher2 src ikey !! (r * length ikey + c)%nat =
  Some (default " "%char (src !! (t * rowsOf src ikey + r)%nat)).
Proof.
  intros Hne Ht Hr. pose proof (columnOrder_lt _ _ _ Ht) as Hc.
  rewrite columnarCipher2_unfold by done.
  rewrite (lookup_bind_const _ _ (length ikey))
    by (done || intros; by rewrite length_fmap, length_seq).
  rewrite (proj2 (lookup_seq 0 _ r r)) by done. simpl.
  rewrite list_lookup_fmap, (proj2 (lookup_seq 0 _ c c)) by done. simpl. f_equal.
  destruct (fill_cells src (rowsOf src ikey) (length ikey)
              (cellsOf (columnOrder ikey) (rowsOf src ikey))
              (replicate (rowsOf src ikey) (replicate (length ikey) " "%char)) 0%nat)
    as [Hfill _].
  - apply blankGrid_dims.
  - apply cellsOf_NoDup, columnOrder_NoDup.
  - apply cellsOf_range. apply Forall_forall. intros c' Hc'.
    apply list_elem_of_lookup_1 in Hc' as [t' Ht']. by eapply columnOrder_lt.
  - rewrite (Hfill (t * rowsOf src ikey + r)%nat r c) by (by apply cellsOf_lookup).
    by rewrite blankGrid_cell.
Qed.

Lemma rowsOf_bounds src ikey :
  ikey ≠ [] →
  (length src ≤ rowsOf src ikey * length ikey < length src + length ikey)%nat.
Proof.
  intros Hne. unfold rowsOf. assert (length ikey ≠ 0)%nat by (by destruct ikey).
  pose proof (Nat.div_mod_eq (length src + length ikey - 1) (length ikey)).
  pose proof (Nat.mod_upper_bound (length src + length ikey - 1) (length ikey)).
  nia.
Qed.

Lemma rowsOf_exact text ikey R :
  ikey ≠ [] → length text = (R * length ikey)%nat → rowsOf text ikey = R.
Proof.
  intros Hne Hlen. pose proof (rowsOf_bounds text ikey Hne).
  assert (length ikey ≠ 0)%nat by (by destruct ikey). nia.
Qed.

Lemma padded_length src ikey :
  ikey ≠ [] → length (padded src ikey) = (rowsOf src ikey * length ikey)%nat.
Proof.
  intros Hne. unfold padded. rewrite length_app, length_replicate.
  pose proof (rowsOf_bounds src ikey Hne). lia.
Qed.

Lemma padded_lookup src ikey q :
  ikey ≠ [] → (q < rowsOf src ikey * length ikey)%nat →
  padded src ikey !! q = Some (default " "%char (src !! q)).
Proof.
  intros Hne Hq. unfold padded. destruct (decide (q < length src)%nat) as [Hlt|Hge].
  - rewrite lookup_app_l by done. destruct (lookup_lt_is_Some_2 src q Hlt) as [x Hx].
    by rewrite Hx.
  - rewrite lookup_app_r by lia. rewrite (proj2 (lookup_ge_None src q)) by lia.
    simpl. apply lookup_replicate_2. lia.
Qed.

Lemma columnPos_spec ikey c :
  (c < length ikey)%nat →
  (columnPos ikey c < length ikey)%nat ∧ columnOrder ikey !! columnPos ikey c = Some c.
Proof.
  intros Hc. destruct (columnOrder_pos ikey c Hc) as (t & Ht & Hlook).
  unfold columnPos.
  destruct (list_find (fun x => x = c) (columnOrder ikey)) as [[t' c']|] eqn:Hf.
  - apply list_find_Some in Hf as (Hl & -> & _). simpl. split; [|done].
    apply lookup_lt_Some in Hl. by rewrite columnOrder_length in Hl.
  - apply list_find_None in Hf. rewrite Forall_forall in Hf.
    destruct (Hf c); [|done]. by eapply list_elem_of_lookup_2.
Qed.

Lemma columnarCipher2_index src ikey i :
  ikey ≠ [] → (i < rowsOf src ikey * length ikey)%nat →
  columnarCipher2 src ikey !! i =
  padded src ikey !! (columnPos ikey (i mod length ikey) * rowsOf src ikey + i / length ikey)%nat.
Proof.
  intros Hne Hi. assert (HC : (length ikey ≠ 0)%nat) by (by destruct ikey).
  pose proof (Nat.div_mod_eq i (length ikey)) as Hdm.
  pose proof (Nat.mod_upper_bound i (length ikey) HC) as Hmod.
  assert (Hdiv : (i / length ikey < rowsOf src ikey)%nat).
  { apply Nat.Div0.div_lt_upper_bound. lia. }
  destruct (columnPos_spec ikey (i mod length ikey) Hmod) as [Hpos Hcol].
  rewrite Hdm at 1.
  replace (length ikey * (i / length ikey) + i mod length ikey)%nat
    with (i / length ikey * length ikey + i mod length ikey)%nat by lia.
  rewrite (columnarCipher2_lookup src ikey _ _ _ Hne Hcol Hdiv).
  rewrite padded_lookup; [done|done|]. nia.
Qed.

Lemma columnarCipher2_Permutation src ikey :
  ikey ≠ [] → columnarCipher2 src ikey ≡ₚ padded src ikey.
Proof.
  intros Hne. symmetry. assert (HC : (length ikey ≠ 0)%nat) by (by destruct ikey).
  apply (Permutation_nth _ _ " "%char). rewrite padded_length by done. cbv zeta.
  split; [by apply columnarCipher2_length|].
  exists (fun i => (columnPos ikey (i mod length ikey) * rowsOf src ikey + i / length ikey)%nat).
  split_and!.
  - intros i Hi.
    pose proof (Nat.mod_upper_bound i (length ikey) HC) as Hmod.
    destruct (columnPos_spec ikey (i mod length ikey) Hmod) as [Hpos _].
    assert (i / length ikey < rowsOf src ikey)%nat
      by (apply Nat.Div0.div_lt_upper_bound; lia).
    nia.
  - intros i j Hi Hj Hij.
    pose proof (Nat.mod_upper_bound i (length ikey) HC) as Hmi.
    pose proof (Nat.mod_upper_bound j (length ikey) HC) as Hmj.
    destruct (columnPos_spec ikey (i mod length ikey) Hmi) as [_ Hci].
    destruct (columnPos_spec ikey (j mod length ikey) Hmj) as [_ Hcj].
    assert (Hdi : (i / length ikey < rowsOf src ikey)%nat)
      by (apply Nat.Div0.div_lt_upper_bound; lia).
    assert (Hdj : (j / length ikey < rowsOf src ikey)%nat)
      by (apply Nat.Div0.div_lt_upper_bound; lia).
    assert (Hpos : columnPos ikey (i mod length ikey) = columnPos ikey (j mod length ikey)) by nia.
    assert (Hdiv : (i / length ikey = j / length ikey)%nat) by nia.
    rewrite Hpos in Hci. rewrite Hci in Hcj. injection Hcj as Hmod.
    rewrite (Nat.div_mod_eq i (length ikey)), (Nat.div_mod_eq j (length ikey)). lia.
  - intros i Hi. rewrite !nth_lookup. by rewrite columnarCipher2_index.
Qed.



(** ** The generator *)

Lemma land_mask32 a : Z.land a 0xffffffff = a mod 2 ^ 32.
Proof. change 0xffffffff with (Z.ones 32). by rewrite Z.land_ones. Qed.

Lemma land_mask31 a : Z.land a 0x7fffffff = a mod 2 ^ 31.
Proof. change 0x7fffffff with (Z.ones 31). by rewrite Z.land_ones. Qed.

Lemma mod64_mod32 a : (a mod 2 ^ 64) mod 2 ^ 32 = a mod 2 ^ 32.
Proof. apply Z.mod_mod_divide. by exists (2 ^ 32). Qed.

Lemma mod64_mod31 a : (a mod 2 ^ 64) mod 2 ^ 31 = a mod 2 ^ 31.
Proof. apply Z.mod_mod_divide. by exists (2 ^ 33). Qed.

Lemma layerSeed_seed key : layerSeed key = Spec.seed key.
Proof.
  unfold layerSeed, Spec.seed. generalize 0. induction key as [|c key IH]; intros h; [done|].
  cbn [foldl]. by rewrite land_mask32, IH.
Qed.

Lemma shuffleHash_seed key : shuffleHash key = Spec.seed key.
Proof.
  unfold shuffleHash, Spec.seed. generalize 0. induction key as [|c key IH]; intros h; [done|].
  cbn [foldl]. by rewrite land_mask32, mod64_mod32, IH.
Qed.

Lemma seedRand_next seed arg : seedRand seed arg = Spec.next seed arg.
Proof. unfold seedRand, Spec.next, lcgNext. by rewrite land_mask31, mod64_mod31. Qed.

Lemma next_range state bound :
  0 < bound → 0 ≤ (Spec.next state bound).2 < bound.
Proof. intros Hb. unfold Spec.next. simpl. by apply Z.mod_pos_bound. Qed.

(** ** Maps built by a loop of insertions *)

Lemma buildMap_foldl {A K V} `{Countable K} (key : A → K) (val : nat → A → V)
    (l : list (nat * A)) (m0 : gmap K V) (k : K) :
  NoDup ((fun ic => key ic.2) <$> l) →
  foldl (fun m (ic : nat * A) => <[key ic.2 := val ic.1 ic.2]> m) m0 l !! k =
  match find (fun ic : nat * A => bool_decide (key ic.2 = k)) l with
  | Some ic => Some (val ic.1 ic.2)
  | None => m0 !! k
  end.
Proof.
  revert m0. induction l as [|ic l IH]; intros m0 Hnd; [done|].
  rewrite fmap_cons in Hnd. apply NoDup_cons in Hnd as [Hnotin Hnd].
  cbn [foldl find]. rewrite IH by done. case_bool_decide as Hk.
  - destruct (find _ l) as [ic'|] eqn:Hf.
    + apply find_some in Hf as [Hin Hk']. apply bool_decide_eq_true in Hk'.
      destruct Hnotin. rewrite Hk, <- Hk'. apply list_elem_of_fmap.
      exists ic'. split; [done|]. by apply list_elem_of_In.
    + by rewrite Hk, lookup_insert_eq.
  - destruct (find _ l); [done|]. by rewrite lookup_insert_ne.
Qed.

Lemma buildMap_lookup {A K V} `{Countable K} (key : A → K) (val : nat → A → V)
    (cs : list A) (i : nat) (c : A) :
  NoDup (key <$> cs) → cs !! i = Some c →
  buildMap key val cs !! key c = Some (val i c).
Proof.
  intros Hnd Hi. unfold buildMap. rewrite buildMap_foldl.
  - destruct (find _ (imap pair cs)) as [[j d]|] eqn:Hf.
    + apply find_some in Hf as [Hin Hk]. apply bool_decide_eq_true in Hk. simpl in Hk.
      apply list_elem_of_In, list_elem_of_lookup_1 in Hin as [j' Hj'].
      rewrite list_lookup_imap in Hj'. destruct (cs !! j') as [d'|] eqn:Hd'; simplify_eq/=.
      assert (i = j); [|subst; simpl; congruence].
      apply (NoDup_lookup (key <$> cs) i j (key c)); [done| |]; rewrite list_lookup_fmap.
      * by rewrite Hi.
      * rewrite Hd'. simpl. by rewrite Hk.
    + pose proof (find_none _ _ Hf (i, c)) as Hn. simpl in Hn.
      rewrite bool_decide_eq_true_2 in Hn by done. discriminate Hn.
      apply list_elem_of_In, list_elem_of_lookup_2 with i.
      by rewrite list_lookup_imap, Hi.
  - replace ((fun ic : nat * A => key ic.2) <$> imap pair cs) with (key <$> cs); [done|].
    rewrite fmap_imap. apply list_eq. intros j.
    rewrite list_lookup_fmap, list_lookup_imap. by destruct (cs !! j).
Qed.

Lemma buildMap_lookup_None {A K V} `{Countable K} (key : A → K) (val : nat → A → V)
    (cs : list A) (k : K) :
  k ∉ key <$> cs → buildMap key val cs !! k = None.
Proof.
  intros Hk. unfold buildMap.
  assert (Hgen : ∀ (l : list (nat * A)) (m0 : gmap K V),
            k ∉ (fun ic : nat * A => key ic.2) <$> l → m0 !! k = None →
            foldl (fun m (ic : nat * A) => <[key ic.2 := val ic.1 ic.2]> m) m0 l !! k = None).
  { induction l as [|ic l IH]; intros m0 Hnot Hm0; [done|].
    rewrite fmap_cons in Hnot. apply not_elem_of_cons in Hnot as [Hne Hnot].
    cbn [foldl]. apply IH; [done|]. by rewrite lookup_insert_ne. }
  apply Hgen; [|done].
  replace ((fun ic : nat * A => key ic.2) <$> imap pair cs) with (key <$> cs); [done|].
  rewrite fmap_imap. apply list_eq. intros j.
  rewrite list_lookup_fmap, list_lookup_imap. by destruct (cs !! j).
Qed.

(** ** The alphabet *)

Lemma inAlphabet_range ch : Spec.inAlphabet ch = true ↔ 32 ≤ ch ≤ 126.
Proof. unfold Spec.inAlphabet. rewrite andb_true_iff, !Z.leb_le. done. Qed.

Lemma charArray_symbols : charArray = Utf8.encodeRune <$> symbols.
Proof. reflexivity. Qed.

Lemma symbols_lookup n : (n < 95)%nat → symbols !! n = Some (32 + Z.of_nat n).
Proof.
  intros Hn. unfold symbols. rewrite list_lookup_fmap.
  by rewrite (proj2 (lookup_seq 0 95 n n)).
Qed.

Lemma symbols_length : length symbols = 95%nat.
Proof. reflexivity. Qed.

Lemma symbols_elem ch : ch ∈ symbols ↔ 32 ≤ ch ≤ 126.
Proof.
  unfold symbols. rewrite list_elem_of_fmap. split.
  - intros (n & -> & Hn). apply elem_of_seq in Hn. unfold Spec.symbol. simpl. lia.
  - intros Hch. exists (Z.to_nat (ch - 32)). split.
    + unfold Spec.symbol. simpl. lia.
    + apply elem_of_seq. lia.
Qed.

Lemma NoDup_symbols : NoDup symbols.
Proof.
  unfold symbols. apply NoDup_fmap_2; [|apply NoDup_seq].
  intros a b Hab. unfold Spec.symbol in Hab. simpl in Hab. lia.
Qed.

Lemma encodeRune_alphabet ch : 32 ≤ ch ≤ 126 → Utf8.encodeRune ch = [mkbyte ch].
Proof.
  intros Hch. unfold Utf8.encodeRune.
  destruct (Z.ltb_spec ch 0); [lia|]. by destruct (Z.leb_spec ch 127); [|lia].
Qed.

Lemma encodeRune_single ch c : Utf8.encodeRune ch = [c] → 0 ≤ ch ≤ 127 ∧ c = mkbyte ch.
Proof.
  unfold Utf8.encodeRune, Utf8.enc3.
  destruct (Z.ltb_spec ch 0); [done|]. destruct (Z.leb_spec ch 127).
  - intros [= <-]. split; [lia|done].
  - repeat case_match; done.
Qed.

Lemma encodeRune_inj_alphabet ch ch' :
  32 ≤ ch ≤ 126 → Utf8.encodeRune ch' = Utf8.encodeRune ch → ch' = ch.
Proof.
  intros Hch Heq. rewrite (encodeRune_alphabet ch Hch) in Heq.
  apply encodeRune_single in Heq as [Hr Hb].
  apply (f_equal byteval) in Hb. rewrite !byteval_mkbyte in Hb by lia. done.
Qed.

Lemma charArray_elem ch : Utf8.encodeRune ch ∈ charArray ↔ 32 ≤ ch ≤ 126.
Proof.
  rewrite charArray_symbols, list_elem_of_fmap. split.
  - intros (ch' & Heq & Hin). apply symbols_elem in Hin.
    by rewrite (encodeRune_inj_alphabet ch' ch Hin).
  - intros Hch. exists ch. split; [done|]. by apply symbols_elem.
Qed.

Lemma NoDup_charArray : NoDup charArray.
Proof.
  rewrite charArray_symbols. apply NoDup_fmap_2_strong; [|apply NoDup_symbols].
  intros a b Ha Hb Hab. apply symbols_elem in Ha, Hb.
  by apply (encodeRune_inj_alphabet b a).
Qed.

Lemma charArray_lookup n :
  (n < 95)%nat → charArray !! n = Some [mkbyte (32 + Z.of_nat n)].
Proof.
  intros Hn. rewrite charArray_symbols, list_lookup_fmap, symbols_lookup by done.
  simpl. rewrite encodeRune_alphabet; [done|lia].
Qed.

Lemma firstRune_charArray n :
  (n < 95)%nat → firstRune (charArray !!! n) = 32 + Z.of_nat n.
Proof.
  intros Hn. rewrite (list_lookup_total_correct _ _ _ (charArray_lookup n Hn)).
  unfold firstRune. rewrite runes_ascii.
  - simpl. rewrite byteval_mkbyte; lia.
  - constructor; [|done]. unfold isAscii. rewrite byteval_mkbyte; lia.
Qed.

Lemma charIndex_lookup ch :
  charIndexOf charArray !! Utf8.encodeRune ch =
  if Spec.inAlphabet ch then Some (Spec.index ch) else None.
Proof.
  unfold charIndexOf. destruct (Spec.inAlphabet ch) eqn:Hin.
  - apply inAlphabet_range in Hin.
    rewrite (buildMap_lookup (fun c : list ascii => c) (fun i _ => Z.of_nat i)
               charArray (Z.to_nat (ch - 32)) (Utf8.encodeRune ch)).
    + unfold Spec.index. f_equal. lia.
    + rewrite list_fmap_id. apply NoDup_charArray.
    + rewrite charArray_lookup by lia. rewrite encodeRune_alphabet by done.
      do 3 f_equal. lia.
  - apply buildMap_lookup_None. rewrite list_fmap_id, charArray_elem.
    rewrite <- inAlphabet_range. by rewrite Hin.
Qed.

(** ** The shift *)

Lemma shiftLoop_unshift seed runes :
  shiftLoop charArray (charIndexOf charArray) seed runes = Spec.unshift seed runes.
Proof.
  revert seed. induction runes as [|ch rest IH]; intros seed; [done|].
  cbn [shiftLoop Spec.unshift]. rewrite charIndex_lookup.
  destruct (Spec.inAlphabet ch) eqn:Hin; [|by rewrite IH].
  rewrite seedRand_next. pose proof (next_range seed 95 eq_refl) as Hr.
  destruct (Spec.next seed 95) as [seed' r]. simpl in Hr.
  apply inAlphabet_range in Hin. unfold Spec.index, Spec.symbol.
  rewrite Z.rem_mod_nonneg by lia.
  pose proof (Z.mod_pos_bound (ch - 32 - r + 95) 95 eq_refl).
  rewrite firstRune_charArray by lia. rewrite IH. f_equal. lia.
Qed.

(** ** The shuffle *)

Lemma swap_fmap {A B} (f : A → B) (i j : nat) (l : list A) :
  swap i j (f <$> l) = f <$> swap i j l.
Proof.
  unfold swap. rewrite !list_lookup_fmap.
  destruct (l !! i) as [x|]; [|done]. destruct (l !! j) as [y|]; [|done].
  simpl. by rewrite !list_fmap_insert.
Qed.

Lemma shuffle_fold_fmap {A B} (f : A → B) (ixs : list nat) (s : Z) (l : list A) :
  foldl shuffleStep (s, f <$> l) ixs =
  ((foldl shuffleStep (s, l) ixs).1, f <$> (foldl shuffleStep (s, l) ixs).2).
Proof.
  revert s l. induction ixs as [|i ixs IH]; intros s l; [done|].
  cbn [foldl]. unfold shuffleStep at 2 4 6. cbn [fst snd].
  destruct (seedRand s (Z.of_nat i + 1)) as [s' j]. by rewrite swap_fmap, IH.
Qed.

Lemma seedShuffle2_fmap {A B} (f : A → B) (l : list A) (key : list ascii) :
  seedShuffle2 (f <$> l) key = f <$> seedShuffle2 l key.
Proof. unfold seedShuffle2. by rewrite shuffle_fold_fmap, length_fmap. Qed.

Lemma shuffle_fold_Permutation {A} (ixs : list nat) (st : Z * list A) :
  (foldl shuffleStep st ixs).2 ≡ₚ st.2.
Proof.
  revert st. induction ixs as [|i ixs IH]; intros st; [done|].
  cbn [foldl]. rewrite IH. unfold shuffleStep.
  destruct (seedRand st.1 (Z.of_nat i + 1)) as [s' j]. apply swap_Permutation.
Qed.

Lemma seedShuffle2_Permutation {A} (l : list A) key : seedShuffle2 l key ≡ₚ l.
Proof. unfold seedShuffle2. by rewrite shuffle_fold_Permutation. Qed.

Lemma shuffled_seedShuffle2 key : Spec.shuffled key = seedShuffle2 symbols key.
Proof.
  unfold Spec.shuffled, seedShuffle2. rewrite shuffleHash_seed.
  change (length symbols - 1)%nat with 94%nat. fold symbols. f_equal.
  generalize (Spec.seed key, symbols). generalize (reverse (seq 1 94)).
  induction l as [|i l IH]; intros st; [done|].
  cbn [foldl]. rewrite IH. f_equal. unfold shuffleStep. by rewrite seedRand_next.
Qed.

Lemma shuffled_Permutation key : Spec.shuffled key ≡ₚ symbols.
Proof. rewrite shuffled_seedShuffle2. apply seedShuffle2_Permutation. Qed.

Lemma shuffled_length key : length (Spec.shuffled key) = 95%nat.
Proof. by rewrite shuffled_Permutation. Qed.

Lemma NoDup_shuffled key : NoDup (Spec.shuffled key).
Proof. rewrite shuffled_Permutation. apply NoDup_symbols. Qed.

Lemma shuffled_elem key ch : ch ∈ Spec.shuffled key ↔ 32 ≤ ch ≤ 126.
Proof. rewrite shuffled_Permutation. apply symbols_elem. Qed.

Lemma subValues_shuffled key :
  seedShuffle2 charArray key = Utf8.encodeRune <$> Spec.shuffled key.
Proof. by rewrite charArray_symbols, seedShuffle2_fmap, shuffled_seedShuffle2. Qed.

(** ** The substitution *)

Lemma unsubstitute_at key i ch :
  Spec.shuffled key !! i = Some ch → Spec.unsubstitute key ch = 32 + Z.of_nat i.
Proof.
  intros Hi. unfold Spec.unsubstitute.
  destruct (list_find _ (Spec.shuffled key)) as [[j x]|] eqn:Hf.
  - apply list_find_Some in Hf as (Hj & -> & _).
    by rewrite (NoDup_lookup _ i j ch (NoDup_shuffled key) Hi Hj).
  - apply list_find_None in Hf. rewrite Forall_forall in Hf.
    destruct (Hf ch); [|done]. by eapply list_elem_of_lookup_2.
Qed.

Lemma unsubstitute_other key ch : ¬ (32 ≤ ch ≤ 126) → Spec.unsubstitute key ch = ch.
Proof.
  intros Hch. unfold Spec.unsubstitute.
  destruct (list_find _ (Spec.shuffled key)) as [[j x]|] eqn:Hf; [|done].
  apply list_find_Some in Hf as (Hj & -> & _).
  destruct Hch. apply (shuffled_elem key). by eapply list_elem_of_lookup_2.
Qed.

Lemma charMap_unsubstitute key ch :
  match charMapOf charArray (seedShuffle2 charArray key) !! Utf8.encodeRune ch with
  | Some replacement => firstRune replacement
  | None => ch
  end = Spec.unsubstitute key ch.
Proof.
  unfold charMapOf. destruct (decide (32 ≤ ch ≤ 126)) as [Hch|Hch].
  - assert (Hin : ch ∈ Spec.shuffled key) by (by apply shuffled_elem).
    apply list_elem_of_lookup_1 in Hin as [i Hi].
    assert (Hi95 : (i < 95)%nat).
    { apply lookup_lt_Some in Hi. by rewrite shuffled_length in Hi. }
    rewrite (unsubstitute_at key i ch Hi).
    rewrite (buildMap_lookup (fun c : list ascii => c) (fun i _ => charArray !!! i)
               (seedShuffle2 charArray key) i (Utf8.encodeRune ch)).
    + by apply firstRune_charArray.
    + rewrite list_fmap_id, seedShuffle2_Permutation. apply NoDup_charArray.
    + by rewrite subValues_shuffled, list_lookup_fmap, Hi.
  - rewrite unsubstitute_other by done.
    rewrite buildMap_lookup_None; [done|].
    rewrite list_fmap_id, seedShuffle2_Permutation. by rewrite charArray_elem.
Qed.

(** [reverseLayer] with the 95-symbol alphabet, its maps and masks replaced
    by the arithmetic of sections 4.2 and 4.4. *)
Lemma reverseLayer_steps text genKey iteration :
  reverseLayer text genKey iteration charArray =
  let shifted :=
    Utf8.ofRunes (Spec.unshift (Spec.seed (genKey ++ Itoa iteration)) (Utf8.runes text)) in
  let transposed := columnarCipher2 shifted (genKey ++ Itoa iteration) in
  Utf8.ofRunes
    ((fun o : option Z =>
        match o with
        | Some ch => Spec.unsubstitute (genKey ++ Itoa iteration) ch
        | None => 0
        end)
     <$> Utf8.range transposed).
Proof.
  unfold reverseLayer. cbv zeta.
  rewrite shiftLoop_unshift, layerSeed_seed. apply (f_equal Utf8.ofRunes).
  unfold substLoop. apply list_fmap_ext. intros _ [ch|] _; [|reflexivity].
  apply charMap_unsubstitute.
Qed.

(** ** The forward transform and the round trip *)

Lemma alphabetText_ascii text : alphabetText text → Forall isAscii text.
Proof. intros Ht. eapply Forall_impl; [exact Ht|]. unfold isAscii. intros; lia. Qed.

(** The shift. *)
Lemma shift_alphabet state text :
  alphabetText text → alphabetText (Forward.shift state text).
Proof.
  intros Ht. revert state. induction Ht as [|c text Hc Ht IH]; intros state; [constructor|].
  cbn [Forward.shift]. rewrite (proj2 (inAlphabet_range _) Hc).
  pose proof (next_range state 95 eq_refl) as Hr.
  destruct (Spec.next state 95) as [state' r]. simpl in Hr.
  constructor; [|apply IH]. unfold Spec.symbol, Spec.index.
  pose proof (Z.mod_pos_bound (byteval c - 32 + r) 95 eq_refl).
  rewrite byteval_mkbyte; lia.
Qed.

Lemma unshift_shift state text :
  alphabetText text →
  Spec.unshift state (byteval <$> Forward.shift state text) = byteval <$> text.
Proof.
  intros Ht. revert state. induction Ht as [|c text Hc Ht IH]; intros state; [done|].
  cbn [Forward.shift]. rewrite (proj2 (inAlphabet_range _) Hc).
  pose proof (next_range state 95 eq_refl) as Hr.
  destruct (Spec.next state 95) as [state' r] eqn:Hnext. simpl in Hr.
  rewrite fmap_cons. cbn [Spec.unshift]. unfold Spec.symbol, Spec.index.
  pose proof (Z.mod_pos_bound (byteval c - 32 + r) 95 eq_refl) as Hm.
  rewrite byteval_mkbyte by lia.
  rewrite (proj2 (inAlphabet_range _)) by lia. rewrite Hnext, IH, fmap_cons. f_equal.
  replace (32 + (byteval c - 32 + r) `mod` 95 - 32 - r + 95)
    with ((byteval c - 32 + r) `mod` 95 + (95 - r)) by lia.
  rewrite Zplus_mod_idemp_l.
  replace (byteval c - 32 + r + (95 - r)) with (byteval c - 32 + 1 * 95) by lia.
  rewrite Z.mod_add by done. rewrite Z.mod_small; lia.
Qed.

(** The substitution. *)
Lemma substitute_alphabet key text : alphabetText text → alphabetText (Forward.substitute key text).
Proof.
  intros Ht. unfold Forward.substitute. apply Forall_fmap.
  eapply Forall_impl; [exact Ht|]. intros c Hc. unfold compose. cbv beta in Hc |- *.
  rewrite (proj2 (inAlphabet_range _) Hc). unfold Spec.index.
  assert (Hi : (Z.to_nat (byteval c - 32) < length (Spec.shuffled key))%nat)
    by (rewrite shuffled_length; lia).
  apply lookup_lt_is_Some_2 in Hi as [x Hx].
  rewrite (list_lookup_total_correct _ _ _ Hx).
  assert (32 ≤ x ≤ 126) by (apply (shuffled_elem key); by eapply list_elem_of_lookup_2).
  rewrite byteval_mkbyte; lia.
Qed.

Lemma unsubstitute_substitute key text :
  alphabetText text →
  Spec.unsubstitute key ∘ byteval <$> Forward.substitute key text = byteval <$> text.
Proof.
  intros Ht. unfold Forward.substitute. rewrite <- list_fmap_compose.
  apply Forall_fmap_ext. eapply Forall_impl; [exact Ht|]. intros c Hc. simpl in *.
  rewrite (proj2 (inAlphabet_range _) Hc). unfold Spec.index.
  assert (Hi : (Z.to_nat (byteval c - 32) < length (Spec.shuffled key))%nat)
    by (rewrite shuffled_length; lia).
  apply lookup_lt_is_Some_2 in Hi as [x Hx].
  rewrite (list_lookup_total_correct _ _ _ Hx).
  assert (32 ≤ x ≤ 126) by (apply (shuffled_elem key); by eapply list_elem_of_lookup_2).
  rewrite byteval_mkbyte by lia. rewrite (unsubstitute_at key _ x Hx). lia.
Qed.

Lemma substitute_length key text : length (Forward.substitute key text) = length text.
Proof. unfold Forward.substitute. by rewrite length_fmap. Qed.

(** The transposition. *)
Lemma transpose_unfold key text :
  key ≠ [] →
  Forward.transpose key text =
  c ← columnOrder key;
  (fun row => default " "%char (text !! (row * length key + c)%nat))
    <$> seq 0 (rowsOf text key).
Proof.
  intros Hne. unfold Forward.transpose. rewrite decide_False by (by destruct key).
  cbv zeta. unfold columnOrder. by rewrite list_fmap_bind.
Qed.

Lemma transpose_length key text :
  key ≠ [] → length (Forward.transpose key text) = (rowsOf text key * length key)%nat.
Proof.
  intros Hne. rewrite transpose_unfold by done.
  rewrite (length_bind_const _ _ (rowsOf text key))
    by (intros; by rewrite length_fmap, length_seq).
  rewrite columnOrder_length. lia.
Qed.

Lemma transpose_lookup key text t c r :
  key ≠ [] → columnOrder key !! t = Some c → (r < rowsOf text key)%nat →
  Forward.transpose key text !! (t * rowsOf text key + r)%nat =
  Some (default " "%char (text !! (r * length key + c)%nat)).
Proof.
  intros Hne Ht Hr. rewrite transpose_unfold by done.
  rewrite (lookup_bind_const _ _ (rowsOf text key))
    by (done || intros; by rewrite length_fmap, length_seq).
  rewrite Ht. simpl. rewrite list_lookup_fmap.
  by rewrite (proj2 (lookup_seq 0 _ r r)).
Qed.

Lemma transpose_alphabet key text :
  alphabetText text → alphabetText (Forward.transpose key text).
Proof.
  intros Ht. destruct (decide (key = [])) as [->|Hne]; [done|].
  rewrite transpose_unfold by done. unfold alphabetText.
  apply Forall_bind, Forall_forall. intros c _.
  apply Forall_fmap, Forall_forall. intros row _. simpl.
  destruct (text !! _) as [x|] eqn:Hx; simpl.
  - unfold alphabetText in Ht. rewrite Forall_lookup in Ht. by eapply Ht.
  - by vm_compute.
Qed.

(** Transposing forward and then with [columnarCipher2] gives the text
    back, padded with spaces to whole rows. *)
Lemma columnarCipher2_transpose key text :
  key ≠ [] → columnarCipher2 (Forward.transpose key text) key = padded text key.
Proof.
  intros Hne. assert (HC : (length key ≠ 0)%nat) by (by destruct key).
  assert (HR : rowsOf (Forward.transpose key text) key = rowsOf text key).
  { apply rowsOf_exact; [done|]. by apply transpose_length. }
  apply list_eq. intros i.
  destruct (decide (i < rowsOf text key * length key)%nat) as [Hi|Hi].
  - pose proof (Nat.div_mod_eq i (length key)) as Hdm.
    pose proof (Nat.mod_upper_bound i (length key) HC) as Hmod.
    assert (Hdiv : (i / length key < rowsOf text key)%nat)
      by (apply Nat.Div0.div_lt_upper_bound; lia).
    destruct (columnPos_spec key (i mod length key) Hmod) as [Hpos Hcol].
    rewrite padded_lookup by done.
    replace i with (i / length key * length key + i mod length key)%nat at 1 by lia.
    rewrite (columnarCipher2_lookup _ key _ _ _ Hne Hcol) by (by rewrite HR).
    rewrite HR, (transpose_lookup key text _ _ _ Hne Hcol Hdiv). simpl.
    do 3 f_equal. lia.
  - rewrite !(proj2 (lookup_ge_None _ _)); [done| |].
    + rewrite padded_length by done. lia.
    + rewrite columnarCipher2_length, HR by done. lia.
Qed.

Lemma padded_exact text key :
  (length key | length text)%nat → padded text key = text.
Proof.
  intros [R HR]. unfold padded. destruct (decide (key = [])) as [->|Hne].
  - simpl in *. rewrite Nat.mul_0_r in *. by rewrite app_nil_r.
  - rewrite (rowsOf_exact text key R) by done.
    replace (R * length key - length text)%nat with 0%nat by lia. apply app_nil_r.
Qed.

Lemma columnarCipher2_transpose_exact key text :
  (length key | length text)%nat →
  columnarCipher2 (Forward.transpose key text) key = text.
Proof.
  intros Hdiv. destruct (decide (key = [])) as [->|Hne]; [done|].
  rewrite columnarCipher2_transpose by done. by apply padded_exact.
Qed.

Lemma reverseLayer_forward_opposite text key layer :
  alphabetText text → (length (key ++ Itoa layer) | length text)%nat →
  reverseLayer (Forward.forwardLayerOpposite text key layer) key layer charArray = text.
Proof.
  intros Ht Hdiv. rewrite reverseLayer_steps. unfold Forward.forwardLayerOpposite.
  cbv zeta. generalize dependent (key ++ Itoa layer). intros lk Hdiv.
  pose proof (substitute_alphabet lk text Ht) as H1.
  pose proof (transpose_alphabet lk _ H1) as H2.
  pose proof (shift_alphabet (Spec.seed lk) _ H2) as H3.
  rewrite runes_ascii by (by apply alphabetText_ascii).
  rewrite unshift_shift by done.
  rewrite ofRunes_ascii by (by apply alphabetText_ascii).
  rewrite columnarCipher2_transpose_exact by (by rewrite substitute_length).
  rewrite range_ascii by (by apply alphabetText_ascii).
  rewrite <- list_fmap_compose.
  etrans; [|apply (ofRunes_ascii text); by apply alphabetText_ascii].
  apply (f_equal Utf8.ofRunes).
  etrans; [|exact (unsubstitute_substitute lk text Ht)].
  apply list_fmap_ext. intros i c _. unfold compose. cbv beta iota. reflexivity.
Qed.




(** ** [reverseString] *)

Lemma swap_ends {A} (pre mid post : list A) (x y : A) :
  swap (length pre) (length pre + S (length mid)) (pre ++ x :: mid ++ y :: post) =
  pre ++ y :: mid ++ x :: post.
Proof.
  unfold swap.
  rewrite list_lookup_middle by done.
  replace (pre ++ x :: mid ++ y :: post) with ((pre ++ x :: mid) ++ y :: post)
    by (by rewrite <- app_assoc).
  rewrite (list_lookup_middle (pre ++ x :: mid) post y)
    by (rewrite length_app; simpl; lia).
  rewrite <- app_assoc. cbn [app].
  rewrite (insert_app_r_alt pre) by lia. rewrite Nat.sub_diag. cbn [insert list_insert].
  rewrite (insert_app_r_alt pre) by lia.
  replace (length pre + S (length mid) - length pre)%nat with (S (length mid)) by lia.
  cbn [insert list_insert]. f_equal. f_equal.
  rewrite (insert_app_r_alt mid) by lia. by rewrite Nat.sub_diag.
Qed.

Lemma reverseLoop_middle fuel (pre mid post : list Z) :
  (length mid ≤ fuel)%nat →
  reverseLoop fuel (len pre) (len pre + len mid - 1) (pre ++ mid ++ post) =
  pre ++ reverse mid ++ post.
Proof.
  revert pre mid post. induction fuel as [|fuel IH]; intros pre mid post Hfuel.
  { destruct mid; [done|simpl in Hfuel; lia]. }
  cbn [reverseLoop]. destruct mid as [|x mid]; [|destruct mid as [|y mid' _] using rev_ind].
  - destruct (_ <? _) eqn:E; [|done]. apply Z.ltb_lt in E. unfold len in E. simpl in E. lia.
  - destruct (_ <? _) eqn:E; [|done]. apply Z.ltb_lt in E. unfold len in E. simpl in E. lia.
  - assert (Hlen : len (x :: mid' ++ [y]) = len mid' + 2).
    { unfold len. rewrite length_cons, length_app. simpl. lia. }
    assert (Hfuel' : (length mid' ≤ fuel)%nat).
    { rewrite length_cons, length_app in Hfuel. simpl in Hfuel. lia. }
    rewrite Hlen. destruct (_ <? _) eqn:E.
    2:{ apply Z.ltb_ge in E. pose proof (len_nonneg mid'). lia. }
    replace (Z.to_nat (len pre)) with (length pre) by (unfold len; lia).
    replace (Z.to_nat (len pre + (len mid' + 2) - 1))
      with (length pre + S (length mid'))%nat by (unfold len; lia).
    replace (pre ++ (x :: mid' ++ [y]) ++ post) with (pre ++ x :: mid' ++ y :: post)
      by (simpl; by rewrite <- app_assoc).
    rewrite swap_ends.
    replace (pre ++ y :: mid' ++ x :: post) with ((pre ++ [y]) ++ mid' ++ (x :: post))
      by (by rewrite <- app_assoc).
    replace (len pre + 1) with (len (pre ++ [y]))
      by (unfold len; rewrite length_app; simpl; lia).
    replace (len pre + (len mid' + 2) - 1 - 1) with (len (pre ++ [y]) + len mid' - 1)
      by (unfold len; rewrite length_app; simpl; lia).
    rewrite IH by done.
    rewrite reverse_cons, reverse_app. simpl. rewrite <- !app_assoc. done.
Qed.

Lemma reverseLoop_reverse (runes : list Z) :
  reverseLoop (length runes) 0 (len runes - 1) runes = reverse runes.
Proof.
  pose proof (reverseLoop_middle (length runes) [] runes []) as H.
  rewrite app_nil_r in H. simpl in H. rewrite app_nil_r in H. by apply H.
Qed.

Lemma reverseString_ascii s : Forall isAscii s → reverseString s = reverse s.
Proof.
  intros Hs. unfold reverseString. rewrite reverseLoop_reverse, runes_ascii by done.
  rewrite <- fmap_reverse. apply ofRunes_ascii. by apply Forall_reverse.
Qed.

(** For an ASCII client key the interleaved string of [keygen2] has
    [len(serverKey) + 2 * len(clientKey)] bytes. *)
Lemma reverseString_ascii_length s : Forall isAscii s → len (reverseString s) = len s.
Proof. intros Hs. unfold len. by rewrite reverseString_ascii, length_reverse. Qed.

(** ** More tables of the test suite: [TestReverseString],
    [TestExtractClientKey] and [TestDecryptSrc2EmptyInput] *)

Example reverseString_test_table :
  reverseString (str "hello") = str "olleh" ∧ reverseString (str "") = str "" ∧
  reverseString (str "a") = str "a" ∧ reverseString (str "ab") = str "ba".
Proof. repeat split; vm_compute; reflexivity. Qed.

Example extractClientKey_test_table :
  extractClientKey (str "<html><head>" ++ metaTag (str "abc123XYZ") ++
                    str "</head><body></body></html>") = inr (str "abc123XYZ") ∧
  extractClientKey (str "<html><!-- _is_th:secretKey42 --><body></body></html>")
    = inr (str "secretKey42") ∧
  extractClientKey
    (str "<html>" ++
     objectText (LkDbObject XYZ (str " ") (str " ") (str " ") (str " ")
                            (str " ") (str " ") (str " ")
                            (str "partA") (str "partB") (str "partC")) ++
     str "</html>") = inr (str "partApartBpartC") ∧
  extractClientKey (str "<html><div data-dpi=" ++ [dquote] ++ str "myKey99" ++ [dquote] ++
                    str " class=" ++ [dquote] ++ str "test" ++ [dquote] ++
                    str "></div></html>") = inr (str "myKey99") ∧
  extractClientKey (str "<html><script nonce=" ++ [dquote] ++ str "nonceKey123" ++ [dquote] ++
                    str ">console.log('hi');</script></html>") = inr (str "nonceKey123") ∧
  extractClientKey (str "<html><script>window._xy_ws = " ++ [dquote] ++ str "wsKey456" ++
                    [dquote] ++ str ";</script></html>") = inr (str "wsKey456") ∧
  extractClientKey (str "<html><body>nothing here</body></html>") = inl NoPatternMatched.
Proof. repeat split; vm_compute; reflexivity. Qed.

Example decryptSrc2_empty_input :
  decryptSrc2 (str "") (str "key") (str "megakey") = Returns (str "").
Proof. vm_compute. reflexivity. Qed.

(** ** The insertion sort is the stable sort by character code *)

Lemma keyLt_trans a b c : keyLt a b → keyLt b c → keyLt a c.
Proof. unfold keyLt. lia. Qed.

Lemma swap_comm {A} (i j : nat) (l : list A) : swap i j l = swap j i l.
Proof.
  unfold swap. destruct (l !! i) as [x|] eqn:Hi, (l !! j) as [y|] eqn:Hj; try done.
  destruct (decide (i = j)) as [->|Hne]; [by simplify_eq|].
  by rewrite list_insert_insert_ne.
Qed.

Lemma swap_adjacent {A} (pre post : list A) (x y : A) :
  swap (S (length pre)) (length pre) (pre ++ x :: y :: post) = pre ++ y :: x :: post.
Proof.
  rewrite swap_comm. pose proof (swap_ends pre [] post x y) as H.
  simpl in H. by rewrite Nat.add_1_r in H.
Qed.

(** The inner loop moves the element at index [len(P)] to the left past the
    elements of [P] with a greater character code. *)
Lemma sortInner_insert (P Q rest : list keyIdx) (e : keyIdx) :
  StronglySorted keyLt (P ++ Q) →
  Forall (fun p => (idx p < idx e)%nat) P →
  Forall (fun q => byteval (char e) < byteval (char q)) Q →
  ∃ P1 P2, P = P1 ++ P2 ∧
    sortInner (length P) (P ++ e :: Q ++ rest) = P1 ++ e :: (P2 ++ Q) ++ rest ∧
    StronglySorted keyLt (P1 ++ e :: P2 ++ Q).
Proof.
  revert Q. induction P as [|p P IH] using rev_ind; intros Q Hs Hidx HQ.
  - exists [], []. split_and!; [done|done|]. simpl in *.
    apply StronglySorted_cons. split; [|done].
    eapply Forall_impl; [exact HQ|]. intros q Hq. simpl in Hq. unfold keyLt. lia.
  - rewrite length_app. simpl. rewrite Nat.add_1_r. cbn [sortInner].
    apply Forall_app in Hidx as [HidxP Hidxp]. rewrite Forall_singleton in Hidxp.
    rewrite <- (app_assoc P [p]). cbn [app].
    rewrite (list_lookup_middle P (e :: Q ++ rest) p (length P)) by done.
    replace (P ++ p :: e :: Q ++ rest) with ((P ++ [p]) ++ e :: Q ++ rest)
      by (by rewrite <- app_assoc).
    rewrite (list_lookup_middle (P ++ [p]) (Q ++ rest) e (S (length P)))
      by (rewrite length_app; simpl; lia).
    rewrite <- (app_assoc P [p]). cbn [app].
    destruct (Z.ltb_spec (byteval (char e)) (byteval (char p))) as [Hlt|Hge].
    + rewrite swap_adjacent.
      destruct (IH (p :: Q)) as (P1 & P2 & -> & Hrun & Hsorted).
      * by rewrite <- app_assoc in Hs.
      * done.
      * by constructor.
      * exists P1, (P2 ++ [p]). split_and!.
        -- by rewrite app_assoc.
        -- cbn [app] in Hrun. rewrite Hrun. by rewrite <- !app_assoc.
        -- by rewrite <- !app_assoc.
    + exists (P ++ [p]), []. split_and!.
      * by rewrite app_nil_r.
      * by rewrite <- !app_assoc.
      * simpl. cbv beta in Hidxp.
        assert (Hpe : keyLt p e) by (unfold keyLt; lia).
        apply StronglySorted_app in Hs as (Hcross & HsP & HsQ).
        apply StronglySorted_app. split_and!; [|done|].
        -- intros x1 x2 Hx1 Hx2. apply elem_of_cons in Hx2 as [->|Hx2]; [|by apply Hcross].
           apply elem_of_app in Hx1 as [Hx1|Hx1].
           ++ apply keyLt_trans with p; [|done].
              apply StronglySorted_app in HsP as (HP & _ & _). apply HP; [done|by left].
           ++ apply list_elem_of_singleton in Hx1 as ->. done.
        -- apply StronglySorted_cons. split; [|done].
           eapply Forall_impl; [exact HQ|]. intros q Hq. simpl in Hq. unfold keyLt. lia.
Qed.

Lemma keyMapOf_lookup ikey i e : keyMapOf ikey !! i = Some e → idx e = i.
Proof.
  unfold keyMapOf. rewrite list_lookup_imap. destruct (ikey !! i); [|done].
  by intros [= <-].
Qed.

Lemma insertionSort_prefix ikey n :
  (1 ≤ n ≤ length (keyMapOf ikey))%nat →
  ∃ sp, foldl (fun sortedMap i => sortInner i sortedMap) (keyMapOf ikey) (seq 1 (n - 1)) =
       sp ++ drop n (keyMapOf ikey) ∧
       StronglySorted keyLt sp ∧ sp ≡ₚ take n (keyMapOf ikey).
Proof.
  set (km := keyMapOf ikey). induction n as [|n IH]; intros Hn; [lia|].
  destruct (decide (n = 0%nat)) as [->|Hn0].
  { exists (take 1 km). split_and!; [by rewrite take_drop| |done].
    destruct km as [|e km']; [simpl in Hn; lia|]. simpl. rewrite take_0.
    repeat constructor. }
  destruct IH as (sp & Hfold & Hsorted & Hperm); [lia|].
  replace (S n - 1)%nat with (S (n - 1)) by lia.
  rewrite seq_S, foldl_app. cbn [foldl]. replace (1 + (n - 1))%nat with n by lia.
  rewrite Hfold. destruct (lookup_lt_is_Some_2 km n) as [e He]; [lia|].
  rewrite (drop_S km e n He).
  assert (HlenS : length sp = n).
  { rewrite Hperm, length_take. lia. }
  destruct (sortInner_insert sp [] (drop (S n) km) e) as (P1 & P2 & -> & Hrun & Hs).
  - by rewrite app_nil_r.
  - rewrite Hperm. apply Forall_forall. intros x Hx.
    apply list_elem_of_lookup_1 in Hx as [j Hj].
    apply lookup_take_Some in Hj as [Hj Hjn].
    rewrite (keyMapOf_lookup ikey j x Hj), (keyMapOf_lookup ikey n e He). done.
  - constructor.
  - exists (P1 ++ e :: P2). cbn [app] in Hrun. rewrite HlenS in Hrun. rewrite Hrun.
    rewrite !app_nil_r in *. split_and!.
    + by rewrite <- !app_assoc.
    + done.
    + rewrite (take_S_r km n e He), <- Hperm.
      rewrite <- Permutation_middle. symmetry. rewrite Permutation_app_comm. done.
Qed.

(** The column order of [columnarCipher2] is the stable sort of the key by
    character code. *)
Lemma insertionSort_sorted ikey :
  StronglySorted keyLt (insertionSort (keyMapOf ikey)) ∧
  insertionSort (keyMapOf ikey) ≡ₚ keyMapOf ikey.
Proof.
  split; [|apply insertionSort_Permutation].
  unfold insertionSort. destruct (decide (length (keyMapOf ikey) = 0%nat)) as [H0|H0].
  { rewrite H0. simpl. apply length_zero_iff_nil in H0. rewrite H0. constructor. }
  destruct (insertionSort_prefix ikey (length (keyMapOf ikey))) as (sp & Hfold & Hs & _); [lia|].
  rewrite Hfold, drop_all. by rewrite app_nil_r.
Qed.

(** ** The three-field object pattern matches every well-formed object *)

Lemma matchHere_one_step k re c t m :
  clsMatch k c = true → matchHere re t = Some m →
  matchHere (One k :: re) (c :: t) = Some (c :: m).
Proof. intros Hc Hm. by rewrite matchHere_one_hit, Hm. Qed.

Ltac match_steps :=
  repeat first
    [ apply matchHere_one_step; [vm_compute; reflexivity|]
    | apply matchHere_plus_run; [assumption | assumption | | reflexivity] ].

(** Pattern 2 matches the text of every well-formed object, whatever
    follows it. *)
Lemma objectText_matched (o : lkDbObject) (post : list ascii) :
  wellFormed o →
  matchHere (patterns !!! 2%nat) (objectText o ++ post) = Some (objectText o).
Proof.
  destruct o as [ord w1 w2 s1 s2 wx wy wz vx vy vz]. unfold wellFormed.
  cbn [spEq1 spEq2 spSep1 spSep2 spX spY spZ valX valY valZ]. intros [Hw Hv].
  repeat (apply Forall_cons in Hw as [[? ?] Hw]).
  repeat (apply Forall_cons in Hv as [[? ?] Hv]).
  let p := eval vm_compute in (patterns !!! 2%nat) in change (patterns !!! 2%nat) with p.
  destruct ord; normalize_text; cbn [order]; cbv iota;
    repeat first [rewrite <- app_assoc | progress cbn [list_ascii_of_string app]];
    match_steps; reflexivity.
Qed.

Lemma objectText_found (o : lkDbObject) (post : list ascii) :
  wellFormed o →
  FindString (patterns !!! 2%nat) (objectText o ++ post) = objectText o.
Proof. intros Hwf. by apply FindString_hit, objectText_matched. Qed.

(** ** The hash of [keygen2] and the generator *)

(** X9: the hash of [keygen2] is the polynomial of the key bytes in base 158
    ([31 + 128 - 1]); it is never negative, so neither of the two sign
    corrections of lines 129-131 and 137-139 ever runs, and [lHashInt] is
    the hash modulo [2^63 - 1]. *)
Theorem keygen2_hash_never_negative (tempKey : list ascii) :
  keygenHash tempKey = foldl (fun h c => 158 * h + byteval c) 0 tempKey ∧
  0 ≤ keygenHash tempKey ∧
  keygenLHash tempKey = keygenHash tempKey `mod` (2 ^ 63 - 1).
Proof.
  split_and!.
  - unfold keygenHash. generalize 0 at 1 2. induction tempKey as [|c s IH]; intros h; [done|].
    cbn [foldl]. rewrite IH. f_equal. rewrite Z.shiftl_mul_pow2 by lia. lia.
  - apply keygenHash_nonneg.
  - unfold keygenLHash. pose proof (keygenHash_nonneg tempKey) as Hh.
    destruct (Z.ltb_spec (keygenHash tempKey) 0) as [?|_]; [lia|].
    pose proof (Z.mod_pos_bound (keygenHash tempKey) 0x7fffffffffffffff eq_refl) as Hm.
    destruct (Z.ltb_spec (keygenHash tempKey `mod` 0x7fffffffffffffff) 0); [lia|]. done.
Qed.

(** X8: a call of the generator closure ([seedRand] of [reverseLayer],
    [pseudoRand] of [seedShuffle2]) with a positive argument leaves a state
    below [2^31], which is [(seed*1103515245 + 12345) mod 2^31] whatever the
    64-bit wrap-around, and returns a draw within [0, arg): the indices
    computed from it are in range. *)
Theorem seedRand_in_range (seed arg : Z) :
  0 < arg →
  0 ≤ (seedRand seed arg).1 < 2 ^ 31 ∧ 0 ≤ (seedRand seed arg).2 < arg ∧
  (seedRand seed arg).1 = (seed * 1103515245 + 12345) `mod` 2 ^ 31.
Proof.
  intros Harg. rewrite seedRand_next. unfold Spec.next. cbn [fst snd].
  pose proof (Z.mod_pos_bound (seed * 1103515245 + 12345) (2 ^ 31) eq_refl).
  split_and!; try lia; try done.
  - apply Z.mod_pos_bound; lia.
  - apply Z.mod_pos_bound; lia.
Qed.

Lemma seedRand_in_range_witness :
  0 ≤ (seedRand 4294967295 95).1 < 2 ^ 31 ∧ 0 ≤ (seedRand 4294967295 95).2 < 95 ∧
  (seedRand 4294967295 95).1 = (4294967295 * 1103515245 + 12345) `mod` 2 ^ 31.
Proof. apply (seedRand_in_range 4294967295 95). lia. Defined.

(** X7: the seed [reverseLayer] computes with [big.Int] and the seed
    [seedShuffle2] computes in [uint64] are the same number, below [2^32]:
    within a layer the shift and the shuffle start from the same generator
    state. *)
Theorem layerSeed_shuffleHash (layerKey : list ascii) :
  layerSeed layerKey = shuffleHash layerKey ∧ 0 ≤ layerSeed layerKey < 2 ^ 32.
Proof.
  rewrite layerSeed_seed, shuffleHash_seed. split; [done|].
  unfold Spec.seed. destruct layerKey as [|c s _] using rev_ind; [done|].
  rewrite foldl_app. cbn [foldl]. apply Z.mod_pos_bound. lia.
Qed.

(** ** [seedShuffle2] rearranges *)

(** X10: [seedShuffle2] returns a rearrangement of its input for every key:
    the same elements with the same multiplicities, hence the same length
    and no duplicate when the input has none; the empty slice and a slice
    of one element come back unchanged. *)
Theorem seedShuffle2_rearranges {A} (charArray : list A) (iKey : list ascii) :
  seedShuffle2 charArray iKey ≡ₚ charArray ∧
  length (seedShuffle2 charArray iKey) = length charArray ∧
  (NoDup charArray → NoDup (seedShuffle2 charArray iKey)) ∧
  seedShuffle2 ([] : list A) iKey = [] ∧
  (∀ x : A, seedShuffle2 [x] iKey = [x]).
Proof.
  pose proof (seedShuffle2_Permutation charArray iKey) as Hp. split_and!.
  - done.
  - by rewrite Hp.
  - intros Hnd. by rewrite Hp.
  - done.
  - done.
Qed.

(** X11: the rearrangement [seedShuffle2] makes depends on the key and on
    the length of the slice only, not on its elements: it commutes with
    every map over the elements, and the element at index [i] of the result
    is the element of the input at the index the shuffle of [0, 1, ..., n-1]
    holds at [i]. *)
Theorem seedShuffle2_positions {A} (charArray : list A) (iKey : list ascii) :
  (∀ B (f : A → B), seedShuffle2 (f <$> charArray) iKey = f <$> seedShuffle2 charArray iKey) ∧
  (∀ i, seedShuffle2 charArray iKey !! i =
        seedShuffle2 (seq 0 (length charArray)) iKey !! i ≫= (charArray !!.)).
Proof.
  split; [intros; apply seedShuffle2_fmap|]. intros i.
  destruct charArray as [|d l] eqn:E; [done|]. rewrite <- E.
  assert (Hl : charArray = (fun j => nth j charArray d) <$> seq 0 (length charArray)).
  { apply list_eq. intros j. rewrite list_lookup_fmap.
    destruct (decide (j < length charArray)%nat) as [Hj|Hj].
    - rewrite (proj2 (lookup_seq 0 _ j j)) by done. simpl.
      rewrite nth_lookup. destruct (lookup_lt_is_Some_2 charArray j Hj) as [x Hx].
      by rewrite Hx.
    - rewrite (proj2 (lookup_ge_None _ _)) by lia.
      rewrite (proj2 (lookup_ge_None _ _)); [done|]. rewrite length_seq. lia. }
  rewrite Hl at 1. rewrite seedShuffle2_fmap, list_lookup_fmap.
  destruct (seedShuffle2 (seq 0 (length charArray)) iKey !! i) as [j|] eqn:Hj; [|done].
  simpl. assert (Hin : j ∈ seq 0 (length charArray)).
  { rewrite <- (seedShuffle2_Permutation _ iKey). by eapply list_elem_of_lookup_2. }
  apply elem_of_seq in Hin. rewrite nth_lookup.
  destruct (lookup_lt_is_Some_2 charArray j) as [x Hx]; [lia|]. by rewrite Hx.
Qed.

(** X6: for an alphabet without duplicates the substitution table
    [charMap] of [reverseLayer] is a bijection of the alphabet: it has an
    entry for a string exactly when the string is in the alphabet, every
    value is in the alphabet, every symbol of the alphabet is a value, and
    no two keys share a value. *)
Theorem charMap_bijection (chars : list (list ascii)) (layerKey : list ascii) :
  NoDup chars →
  let charMap := charMapOf chars (seedShuffle2 chars layerKey) in
  (∀ c, c ∈ chars ↔ is_Some (charMap !! c)) ∧
  (∀ c v, charMap !! c = Some v → v ∈ chars) ∧
  (∀ v, v ∈ chars → ∃ c, charMap !! c = Some v) ∧
  (∀ c1 c2 v, charMap !! c1 = Some v → charMap !! c2 = Some v → c1 = c2).
Proof.
  intros Hnd charMap.
  pose proof (seedShuffle2_Permutation chars layerKey) as Hp.
  set (sub := seedShuffle2 chars layerKey) in *.
  assert (Hsnd : NoDup sub) by (by rewrite Hp).
  assert (Hlen : length sub = length chars) by (by rewrite Hp).
  assert (Hat : ∀ i c, sub !! i = Some c → charMap !! c = Some (chars !!! i)).
  { intros i c Hi. unfold charMap, charMapOf.
    rewrite (buildMap_lookup (fun c : list ascii => c) (fun i _ => chars !!! i) sub i c); try done.
    by rewrite list_fmap_id. }
  assert (Hnone : ∀ c, c ∉ sub → charMap !! c = None).
  { intros c Hc. unfold charMap, charMapOf. apply buildMap_lookup_None.
    by rewrite list_fmap_id. }
  assert (Hinv : ∀ c v, charMap !! c = Some v →
            ∃ i, sub !! i = Some c ∧ chars !! i = Some v).
  { intros c v Hc. destruct (decide (c ∈ sub)) as [Hin|Hin].
    - apply list_elem_of_lookup_1 in Hin as [i Hi]. exists i. split; [done|].
      rewrite (Hat i c Hi) in Hc. injection Hc as <-.
      apply list_lookup_lookup_total_lt. apply lookup_lt_Some in Hi. lia.
    - rewrite Hnone in Hc by done. done. }
  split_and!.
  - intros c. split.
    + intros Hc. rewrite <- Hp in Hc. apply list_elem_of_lookup_1 in Hc as [i Hi].
      rewrite (Hat i c Hi). by eexists.
    + intros [v Hv]. destruct (Hinv c v Hv) as (i & Hi & _).
      rewrite <- Hp. by eapply list_elem_of_lookup_2.
  - intros c v Hv. destruct (Hinv c v Hv) as (i & _ & Hi). by eapply list_elem_of_lookup_2.
  - intros v Hv. apply list_elem_of_lookup_1 in Hv as [i Hi].
    destruct (lookup_lt_is_Some_2 sub i) as [c Hc]; [apply lookup_lt_Some in Hi; lia|].
    exists c. rewrite (Hat i c Hc). f_equal. by apply list_lookup_total_correct.
  - intros c1 c2 v H1 H2.
    destruct (Hinv c1 v H1) as (i1 & Hs1 & Hc1). destruct (Hinv c2 v H2) as (i2 & Hs2 & Hc2).
    pose proof (NoDup_lookup chars i1 i2 v Hnd Hc1 Hc2). subst. congruence.
Qed.

Lemma charMap_bijection_witness :
  str "a" ∈ charArray ↔
  is_Some (charMapOf charArray (seedShuffle2 charArray (str "key1")) !! str "a").
Proof. apply (charMap_bijection charArray (str "key1") NoDup_charArray). Defined.

(** ** The column order and the cells of [columnarCipher2] *)

(** X12: the insertion sort of [columnarCipher2] leaves the key positions
    sorted by character code, positions of equal characters in their
    original order (a stable sort); the sorted slice is a rearrangement of
    the key positions, so every column is filled once, and every entry
    still pairs a position with the character the key has there. *)
Theorem columnarCipher2_stable_column_order (ikey : list ascii) :
  StronglySorted keyLt (insertionSort (keyMapOf ikey)) ∧
  insertionSort (keyMapOf ikey) ≡ₚ keyMapOf ikey ∧
  idx <$> insertionSort (keyMapOf ikey) ≡ₚ seq 0 (length ikey) ∧
  (∀ e, e ∈ insertionSort (keyMapOf ikey) → ikey !! idx e = Some (char e)).
Proof.
  destruct (insertionSort_sorted ikey) as [Hs Hp]. split_and!; try done.
  - apply columnOrder_Permutation.
  - intros e He. rewrite Hp in He. apply list_elem_of_lookup_1 in He as [i Hi].
    unfold keyMapOf in Hi. rewrite list_lookup_imap in Hi.
    destruct (ikey !! i) as [c|] eqn:Hc; [|done]. simpl in Hi. injection Hi as <-. done.
Qed.

(** X13: with a non-empty key, the cell of row [r] in the column that
    comes [t]-th in the sorted order, which is the byte [r * len(ikey) + c]
    of the result, holds the byte [t * rowCount + r] of the source, and a
    space when the source is shorter. *)
Theorem columnarCipher2_cell (src ikey : list ascii) (t c r : nat) :
  ikey ≠ [] → (idx <$> insertionSort (keyMapOf ikey)) !! t = Some c →
  (r < (length src + length ikey - 1) / length ikey)%nat →
  columnarCipher2 src ikey !! (r * length ikey + c)%nat =
  Some (default " "%char
          (src !! (t * ((length src + length ikey - 1) / length ikey) + r)%nat)).
Proof. apply columnarCipher2_lookup. Qed.

Lemma columnarCipher2_cell_witness :
  columnarCipher2 (str "abcdef") (str "ba") !! (1 * 2 + 1)%nat = Some "b"%char.
Proof.
  apply (columnarCipher2_cell (str "abcdef") (str "ba") 0 1 1).
  - done.
  - by vm_compute.
  - vm_compute. lia.
Defined.

(** ** The framing of [decryptSrc2] *)

Lemma atoiDigit_digitChar a d :
  0 ≤ d ≤ 9 → atoiDigit (Some a) (digitChar d) = Some (a * 10 + d).
Proof.
  intros Hd. unfold atoiDigit, digitChar. rewrite byteval_mkbyte by lia.
  replace (48 + d - 48) with d by lia.
  destruct (Z.leb_spec 0 d); [|lia]. destruct (Z.leb_spec d 9); [|lia]. done.
Qed.

Lemma digitChar_not_sign d : 0 ≤ d ≤ 9 → digitChar d ≠ "-"%char ∧ digitChar d ≠ "+"%char.
Proof.
  intros Hd. unfold digitChar.
  split; intros E; apply (f_equal byteval) in E; rewrite byteval_mkbyte in E by lia.
  - change (byteval "-") with 45 in E. lia.
  - change (byteval "+") with 43 in E. lia.
Qed.

Lemma Atoi_lengthField n : 0 ≤ n ≤ 9999 → Atoi (lengthField n) = Some n.
Proof.
  intros Hn. unfold Atoi, lengthField.
  assert (H3 : 0 ≤ (n / 1000) `mod` 10 ≤ 9) by (pose proof (Z.mod_pos_bound (n / 1000) 10); lia).
  assert (H2 : 0 ≤ (n / 100) `mod` 10 ≤ 9) by (pose proof (Z.mod_pos_bound (n / 100) 10); lia).
  assert (H1 : 0 ≤ (n / 10) `mod` 10 ≤ 9) by (pose proof (Z.mod_pos_bound (n / 10) 10); lia).
  assert (H0 : 0 ≤ n `mod` 10 ≤ 9) by (pose proof (Z.mod_pos_bound n 10); lia).
  destruct (digitChar_not_sign _ H3) as [Hm Hp].
  destruct (decide (digitChar ((n / 1000) `mod` 10) = "-"%char)) as [?|_]; [done|].
  destruct (decide (digitChar ((n / 1000) `mod` 10) = "+"%char)) as [?|_]; [done|].
  cbn [foldl]. rewrite !atoiDigit_digitChar by done.
  assert (E : (((0 * 10 + (n / 1000) `mod` 10) * 10 + (n / 100) `mod` 10) * 10 + (n / 10) `mod` 10) * 10
              + n `mod` 10 = n).
  { clear -Hn. Z.to_euclidean_division_equations. lia. }
  rewrite E. destruct (Z.leb_spec (- 2 ^ 63) n); [|lia]. destruct (Z.ltb_spec n (2 ^ 63)); [|lia].
  done.
Qed.

Lemma atoiDigits_bound ds a n :
  0 ≤ a → foldl atoiDigit (Some a) ds = Some n → a ≤ n < (a + 1) * 10 ^ len ds.
Proof.
  revert a. induction ds as [|c ds IH]; intros a Ha Hf.
  - cbn in Hf. injection Hf as <-. unfold len; simpl. lia.
  - cbn [foldl] in Hf. unfold atoiDigit at 2 in Hf.
    destruct ((0 <=? byteval c - 48) && (byteval c - 48 <=? 9)) eqn:Hd.
    + apply andb_true_iff in Hd as [Hd1 Hd2]. apply Z.leb_le in Hd1, Hd2.
      apply IH in Hf; [|lia]. unfold len in *. rewrite length_cons, Nat2Z.inj_succ, Z.pow_succ_r by lia.
      nia.
    + exfalso. clear -Hf. induction ds as [|d ds IH]; [done|]. by apply IH.
Qed.

Lemma Atoi_bound s n : Atoi s = Some n → - 10 ^ len s < n < 10 ^ len s.
Proof.
  unfold Atoi. intros H.
  assert (Hgen : ∀ ds (neg : bool), (ds ≠ [] → len ds ≤ len s) →
    match ds with
    | [] => None
    | _ => match foldl atoiDigit (Some 0) ds with
           | None => None
           | Some n => let n := if neg then - n else n in
                       if (- 2 ^ 63 <=? n) && (n <? 2 ^ 63) then Some n else None
           end
    end = Some n → - 10 ^ len s < n < 10 ^ len s).
  { intros ds neg Hl Hds. destruct ds as [|d ds]; [done|].
    destruct (foldl atoiDigit (Some 0) (d :: ds)) as [m|] eqn:Hm; [|done].
    apply atoiDigits_bound in Hm; [|lia]. cbv zeta in Hds.
    destruct ((- 2 ^ 63 <=? (if neg then - m else m)) && ((if neg then - m else m) <? 2 ^ 63));
      [|done]. injection Hds as <-.
    assert (10 ^ len (d :: ds) ≤ 10 ^ len s).
    { apply Z.pow_le_mono_r; [lia|]. by apply Hl. }
    destruct neg; lia. }
  destruct s as [|c t]; [done|].
  destruct (decide (c = "-"%char)); [|destruct (decide (c = "+"%char))].
  - apply (Hgen t true); [|done]. intros _. unfold len. simpl. lia.
  - apply (Hgen t false); [|done]. intros _. unfold len. simpl. lia.
  - apply (Hgen (c :: t) false); [|done]. intros _. lia.
Qed.

(** X3: a text that starts with the four decimal digits of [n], then [n]
    bytes of data, then anything, is unframed to exactly the data, for every
    data of at most 9999 bytes. *)
Theorem unframe_lengthField (data surplus : list ascii) :
  len data ≤ 9999 →
  unframe (lengthField (len data) ++ data ++ surplus) = Returns data.
Proof.
  intros Hn. pose proof (len_nonneg data) as H0.
  rewrite (unframe_data _ (len data)).
  - rewrite !len_app. change (len (lengthField (len data))) with 4.
    pose proof (len_nonneg surplus).
    destruct (Z.ltb_spec (4 + (len data + len surplus)) (4 + len data)); [lia|].
    f_equal. change (drop 4 (lengthField (len data) ++ data ++ surplus)) with (data ++ surplus).
    unfold len. rewrite Nat2Z.id. by rewrite take_app_length.
  - rewrite !len_app. change (len (lengthField (len data))) with 4. pose proof (len_nonneg surplus). lia.
  - change (take 4 (lengthField (len data) ++ data ++ surplus)) with (lengthField (len data)).
    apply Atoi_lengthField. lia.
  - done.
Qed.

Lemma unframe_lengthField_witness :
  unframe (lengthField (len (str "hi")) ++ str "hi" ++ str "  ") = Returns (str "hi").
Proof. apply (unframe_lengthField (str "hi") (str "  ")). by vm_compute. Defined.

Lemma unframe_cases (decSrc : list ascii) :
  match unframe decSrc with
  | Returns data =>
    len data ≤ 9999 ∧
    (data = [] ∨
     ∃ dataLen, Atoi (take 4 decSrc) = Some dataLen ∧ 0 < dataLen ∧ 4 + dataLen ≤ len decSrc ∧
                len data = dataLen ∧ data = take (Z.to_nat dataLen) (drop 4 decSrc))
  | Panics p =>
    p = SliceBounds ∧ 4 ≤ len decSrc ∧
    ∃ dataLen, Atoi (take 4 decSrc) = Some dataLen ∧ dataLen < 0
  end.
Proof.
  destruct (Z.ltb_spec (len decSrc) 4) as [Hs|Hl].
  { rewrite unframe_short by done. split; [by vm_compute|by left]. }
  destruct (Atoi (take 4 decSrc)) as [n|] eqn:Hn.
  2:{ rewrite unframe_prefix, Hn by done. split; [by vm_compute|by left]. }
  pose proof (Atoi_bound _ _ Hn) as Hb.
  assert (Hlen4 : len (take 4 decSrc) = 4).
  { unfold len in *. rewrite length_take. lia. }
  rewrite Hlen4 in Hb.
  destruct (Z.ltb_spec n 0) as [Hneg|Hpos].
  { rewrite (unframe_negative _ n) by done. split_and!; [done|done|]. by exists n. }
  rewrite (unframe_data _ n) by done.
  destruct (Z.ltb_spec (len decSrc) (4 + n)) as [Hbig|Hfit].
  { split; [by vm_compute|by left]. }
  assert (Hd : len (take (Z.to_nat n) (drop 4 decSrc)) = n).
  { unfold len in *. rewrite length_take, length_drop. lia. }
  split; [lia|]. destruct (decide (n = 0)) as [->|Hn0].
  - left. by rewrite take_0.
  - right. exists n. split_and!; try done; lia.
Qed.

(** X2: the framing of lines 29-37 has three outcomes. It returns the empty
    string; or it returns the [dataLen] bytes that follow the length field,
    where [dataLen] is the positive integer the first four bytes parse to
    and [4 + dataLen] does not exceed the length of the text; or it panics,
    which happens only for a text of four bytes or more whose first four
    bytes parse to a negative integer. The data returned never has more than
    9999 bytes. *)
Theorem unframe_outcomes (decSrc : list ascii) :
  match unframe decSrc with
  | Returns data =>
    len data ≤ 9999 ∧
    (data = [] ∨
     ∃ dataLen, Atoi (take 4 decSrc) = Some dataLen ∧ 0 < dataLen ∧ 4 + dataLen ≤ len decSrc ∧
                len data = dataLen ∧ data = take (Z.to_nat dataLen) (drop 4 decSrc))
  | Panics p =>
    p = SliceBounds ∧ 4 ≤ len decSrc ∧
    ∃ dataLen, Atoi (take 4 decSrc) = Some dataLen ∧ dataLen < 0
  end.
Proof. apply unframe_cases. Qed.

Lemma decryptSrc2_cases (src clientKey megacloudKey : list ascii) :
  match decryptSrc2 src clientKey megacloudKey with
  | Returns data => megacloudKey ++ clientKey ≠ [] ∧ len data ≤ 9999
  | Panics DivideByZero => megacloudKey ++ clientKey = []
  | Panics SliceBounds =>
    megacloudKey ++ clientKey ≠ [] ∧
    ∃ genKey dataLen,
      keygen2 megacloudKey clientKey = Returns genKey ∧
      Atoi (take 4 (layersLoop layers genKey (atob src))) = Some dataLen ∧ dataLen < 0
  end.
Proof.
  unfold decryptSrc2. destruct (decide (megacloudKey ++ clientKey = [])) as [He|Hne].
  - apply app_eq_nil in He as [-> ->]. by vm_compute.
  - destruct (keygen2_returns _ _ Hne) as (rotated & _ & ->). cbn [mbind outcome_bind].
    match goal with |- context [unframe ?t] => pose proof (unframe_cases t) as Hu;
      destruct (unframe t) as [d|p] end.
    + split; [done|]. by destruct Hu.
    + destruct Hu as (-> & _ & n & Hn & Hneg). split; [done|]. eexists _, n. done.
Qed.

(** X1: [decryptSrc2] has three outcomes and no other. When it returns, the
    two keys are not both empty and the result has at most 9999 bytes; it
    panics with a division by zero exactly when [megacloudKey + clientKey]
    is empty; it panics with a slice out of range only when the keys are not
    both empty and the first four bytes of the text the three layers leave
    parse to a negative integer. *)
Theorem decryptSrc2_outcomes (src clientKey megacloudKey : list ascii) :
  match decryptSrc2 src clientKey megacloudKey with
  | Returns data => megacloudKey ++ clientKey ≠ [] ∧ len data ≤ 9999
  | Panics DivideByZero => megacloudKey ++ clientKey = []
  | Panics SliceBounds =>
    megacloudKey ++ clientKey ≠ [] ∧
    ∃ genKey dataLen,
      keygen2 megacloudKey clientKey = Returns genKey ∧
      Atoi (take 4 (layersLoop layers genKey (atob src))) = Some dataLen ∧ dataLen < 0
  end.
Proof. apply decryptSrc2_cases. Qed.

(** ** [atob] decodes the standard encoding *)

(** The encoder agrees with the table of [TestAtob]. *)
Example btoa_test_table :
  btoa (str "Hello") = str "SGVsbG8=" ∧ btoa (str "World") = str "V29ybGQ=" ∧
  btoa (str "") = str "" ∧ btoa (str "a") = str "YQ==" ∧
  btoa (str "ab") = str "YWI=" ∧ btoa (str "abc") = str "YWJj".
Proof. repeat split; vm_compute; reflexivity. Qed.

Lemma lor_disjoint a b k : 0 ≤ k → 0 ≤ b < 2 ^ k → Z.lor (a * 2 ^ k) b = a * 2 ^ k + b.
Proof.
  intros Hk Hb. rewrite <- Z.add_lor_land.
  assert (E : Z.land (a * 2 ^ k) b = 0); [|lia].
  apply Z.bits_inj'. intros n Hn. rewrite Z.land_spec, Z.bits_0.
  destruct (Z.lt_ge_cases n k).
  - by rewrite Z.mul_pow2_bits_low.
  - rewrite <- (Z.mod_small b (2 ^ k)) by done.
    rewrite Z.mod_pow2_bits_high by lia. apply andb_false_r.
Qed.

Lemma symbolOf_val v :
  0 ≤ v < 64 → atobVal [symbolOf v] 0 = (v, true) ∧ plainByte (symbolOf v).
Proof.
  intros Hv. unfold symbolOf. rewrite <- (Z2Nat.id v) at 2 by lia.
  assert (Hn : (Z.to_nat v < 64)%nat) by lia. revert Hn. generalize (Z.to_nat v). intros n Hn.
  do 64 (destruct n as [|n]; [split; [vm_compute; reflexivity|by vm_compute]|]). lia.
Qed.

Lemma range_cons_ascii c t :
  isAscii c → Utf8.range (c :: t) = Some (byteval c) :: Utf8.range t.
Proof.
  intros Hc. unfold Utf8.range. cbn [Utf8.rangeFrom]. by rewrite decodeRune_ascii.
Qed.

Lemma atobStrip_cons_plain c t : plainByte c → atobStrip (c :: t) = c :: atobStrip t.
Proof.
  intros [Hc Hk]. unfold atobStrip, Utf8.runes. rewrite range_cons_ascii by done.
  change (omap id (Some (byteval c) :: Utf8.range t)) with (byteval c :: omap id (Utf8.range t)).
  rewrite filter_cons_True by done. by rewrite fmap_cons, mkbyte_byteval.
Qed.

Lemma atobStrip_cons_dropped c t :
  isAscii c → keptRune (byteval c) = false → atobStrip (c :: t) = atobStrip t.
Proof.
  intros Hc Hk. unfold atobStrip, Utf8.runes. rewrite range_cons_ascii by done.
  change (omap id (Some (byteval c) :: Utf8.range t)) with (byteval c :: omap id (Utf8.range t)).
  rewrite filter_cons_False; [done|]. by rewrite Hk.
Qed.

Lemma atobPad_group g x fuel : length g = 4%nat → atobPad fuel (g ++ x) = g ++ atobPad fuel x.
Proof.
  intros Hg. revert x. induction fuel as [|f IH]; intros x; [done|].
  cbn [atobPad]. rewrite len_app. unfold len at 1. rewrite Hg.
  replace ((Z.of_nat 4 + len x) `mod` 4) with (len x `mod` 4).
  2:{ change (Z.of_nat 4) with (1 * 4). by rewrite Z.add_comm, Z.mod_add. }
  destruct (len x `mod` 4 =? 0); [done|]. by rewrite <- app_assoc, IH.
Qed.

Lemma atobVal_group_l g x j : (j < length g)%nat → atobVal (g ++ x) j = atobVal g j.
Proof. intros Hj. unfold atobVal. by rewrite lookup_app_l. Qed.

Lemma atobVal_group_r g x j : atobVal (g ++ x) (length g + j) = atobVal x j.
Proof. unfold atobVal. by rewrite lookup_app_r, Nat.add_comm, Nat.add_sub by lia. Qed.

Lemma atobGroup_head g x : length g = 4%nat → atobGroup (g ++ x) 0 = atobGroup g 0.
Proof.
  intros Hg. unfold atobGroup. cbn [Nat.add]. by rewrite !atobVal_group_l by lia.
Qed.

Lemma atobGroup_tail g x i : length g = 4%nat → atobGroup (g ++ x) (4 + i) = atobGroup x i.
Proof.
  intros Hg. unfold atobGroup. rewrite <- Hg, <- !Nat.add_assoc.
  by rewrite !atobVal_group_r.
Qed.

Lemma atobGroups_group g x : length g = 4%nat → atobGroups (g ++ x) = atobGroup g 0 ++ atobGroups x.
Proof.
  intros Hg. unfold atobGroups. rewrite length_app, Hg.
  replace ((4 + length x + 3) / 4)%nat with (S ((length x + 3) / 4)).
  2:{ replace (4 + length x + 3)%nat with (1 * 4 + (length x + 3))%nat by lia.
      rewrite Nat.div_add_l by lia. lia. }
  cbn [seq flat_map]. rewrite Nat.mul_0_r, (atobGroup_head g x Hg). f_equal.
  rewrite <- fmap_S_seq. rewrite !flat_map_concat_map, <- !list_fmap_compose. f_equal.
  apply list_fmap_ext. intros _ k _. unfold compose.
  replace (4 * S k)%nat with (4 + 4 * k)%nat by lia. by apply atobGroup_tail.
Qed.

Lemma atob_group g t :
  length g = 4%nat → Forall plainByte g → atob (g ++ t) = atobGroup g 0 ++ atob t.
Proof.
  intros Hg Hp. unfold atob.
  assert (Hs : atobStrip (g ++ t) = g ++ atobStrip t).
  { clear Hg. induction Hp as [|c g Hc Hp IH]; [done|].
    cbn [app]. by rewrite atobStrip_cons_plain, IH. }
  rewrite Hs, atobPad_group, atobGroups_group; done.
Qed.

Lemma atobGroup_symbols v0 v1 v2 v3 :
  0 ≤ v0 < 64 → 0 ≤ v1 < 64 → 0 ≤ v2 < 64 → 0 ≤ v3 < 64 →
  atobGroup [symbolOf v0; symbolOf v1; symbolOf v2; symbolOf v3] 0 =
  [mkbyte (v0 * 4 + v1 / 16); mkbyte (v1 `mod` 16 * 16 + v2 / 4); mkbyte (v2 `mod` 4 * 64 + v3)].
Proof.
  intros H0 H1 H2 H3. unfold atobGroup. cbn [Nat.add].
  change (atobVal [symbolOf v0; symbolOf v1; symbolOf v2; symbolOf v3] 0)
    with (atobVal [symbolOf v0] 0).
  change (atobVal [symbolOf v0; symbolOf v1; symbolOf v2; symbolOf v3] 1)
    with (atobVal [symbolOf v1] 0).
  change (atobVal [symbolOf v0; symbolOf v1; symbolOf v2; symbolOf v3] 2)
    with (atobVal [symbolOf v2] 0).
  change (atobVal [symbolOf v0; symbolOf v1; symbolOf v2; symbolOf v3] 3)
    with (atobVal [symbolOf v3] 0).
  rewrite (proj1 (symbolOf_val v0 H0)), (proj1 (symbolOf_val v1 H1)),
          (proj1 (symbolOf_val v2 H2)), (proj1 (symbolOf_val v3 H3)).
  cbn [fst snd]. change (atobCount [true; true; true; true]) with 4. cbn [Z.leb app].
  change (2 <=? 4) with true. change (3 <=? 4) with true. change (4 <=? 4) with true. cbv iota.
  rewrite !Z.shiftl_mul_pow2, !Z.shiftr_div_pow2 by lia.
  change 0xf with (Z.ones 4). change 0x3 with (Z.ones 2). rewrite !Z.land_ones by lia.
  rewrite (lor_disjoint v0 (v1 / 2 ^ 4) 2), (lor_disjoint (v1 `mod` 2 ^ 4) (v2 / 2 ^ 2) 4),
          (lor_disjoint (v2 `mod` 2 ^ 2) v3 6); try lia.
  - done.
  - change (2 ^ 2) with 4. change (2 ^ 4) with 16. Z.to_euclidean_division_equations. lia.
  - change (2 ^ 2) with 4. change (2 ^ 4) with 16. Z.to_euclidean_division_equations. lia.
Qed.

Lemma atobGroup_symbols2 v0 v1 :
  0 ≤ v0 < 64 → 0 ≤ v1 < 64 →
  atobGroup [symbolOf v0; symbolOf v1; "="%char; "="%char] 0 = [mkbyte (v0 * 4 + v1 / 16)].
Proof.
  intros H0 H1. unfold atobGroup. cbn [Nat.add].
  change (atobVal [symbolOf v0; symbolOf v1; "="%char; "="%char] 0) with (atobVal [symbolOf v0] 0).
  change (atobVal [symbolOf v0; symbolOf v1; "="%char; "="%char] 1) with (atobVal [symbolOf v1] 0).
  change (atobVal [symbolOf v0; symbolOf v1; "="%char; "="%char] 2) with (0, false).
  change (atobVal [symbolOf v0; symbolOf v1; "="%char; "="%char] 3) with (0, false).
  rewrite (proj1 (symbolOf_val v0 H0)), (proj1 (symbolOf_val v1 H1)).
  cbn [fst snd]. change (atobCount [true; true; false; false]) with 2.
  change (2 <=? 2) with true. change (3 <=? 2) with false. change (4 <=? 2) with false.
  cbv iota. cbn [app].
  rewrite !Z.shiftl_mul_pow2, !Z.shiftr_div_pow2 by lia.
  rewrite (lor_disjoint v0 (v1 / 2 ^ 4) 2); [done|lia|].
  change (2 ^ 2) with 4. change (2 ^ 4) with 16. Z.to_euclidean_division_equations. lia.
Qed.

Lemma atobGroup_symbols3 v0 v1 v2 :
  0 ≤ v0 < 64 → 0 ≤ v1 < 64 → 0 ≤ v2 < 64 →
  atobGroup [symbolOf v0; symbolOf v1; symbolOf v2; "="%char] 0 =
  [mkbyte (v0 * 4 + v1 / 16); mkbyte (v1 `mod` 16 * 16 + v2 / 4)].
Proof.
  intros H0 H1 H2. unfold atobGroup. cbn [Nat.add].
  change (atobVal [symbolOf v0; symbolOf v1; symbolOf v2; "="%char] 0) with (atobVal [symbolOf v0] 0).
  change (atobVal [symbolOf v0; symbolOf v1; symbolOf v2; "="%char] 1) with (atobVal [symbolOf v1] 0).
  change (atobVal [symbolOf v0; symbolOf v1; symbolOf v2; "="%char] 2) with (atobVal [symbolOf v2] 0).
  change (atobVal [symbolOf v0; symbolOf v1; symbolOf v2; "="%char] 3) with (0, false).
  rewrite (proj1 (symbolOf_val v0 H0)), (proj1 (symbolOf_val v1 H1)), (proj1 (symbolOf_val v2 H2)).
  cbn [fst snd]. change (atobCount [true; true; true; false]) with 3.
  change (2 <=? 3) with true. change (3 <=? 3) with true. change (4 <=? 3) with false.
  cbv iota. cbn [app].
  rewrite !Z.shiftl_mul_pow2, !Z.shiftr_div_pow2 by lia.
  change 0xf with (Z.ones 4). rewrite !Z.land_ones by lia.
  rewrite (lor_disjoint v0 (v1 / 2 ^ 4) 2), (lor_disjoint (v1 `mod` 2 ^ 4) (v2 / 2 ^ 2) 4); try lia.
  - done.
  - change (2 ^ 2) with 4. change (2 ^ 4) with 16. Z.to_euclidean_division_equations. lia.
  - change (2 ^ 2) with 4. change (2 ^ 4) with 16. Z.to_euclidean_division_equations. lia.
Qed.

Lemma atob_short_group s0 s1 :
  plainByte s0 → plainByte s1 →
  atob [s0; s1; "="%char; "="%char] = atobGroup [s0; s1; "="%char; "="%char] 0.
Proof.
  intros H0 H1. change [s0; s1; "="%char; "="%char] with (([s0; s1] ++ str "=") ++ str "=") at 1.
  rewrite !atob_pad. unfold atob.
  rewrite atobStrip_plain by (repeat first [apply Forall_nil_2 | apply Forall_cons_2]; done).
  change (atobPad 3 [s0; s1]) with [s0; s1; "="%char; "="%char].
  unfold atobGroups. change (seq 0 _) with [0%nat]. cbn [flat_map]. by rewrite app_nil_r.
Qed.

Lemma atob_short_group3 s0 s1 s2 :
  plainByte s0 → plainByte s1 → plainByte s2 →
  atob [s0; s1; s2; "="%char] = atobGroup [s0; s1; s2; "="%char] 0.
Proof.
  intros H0 H1 H2. change [s0; s1; s2; "="%char] with ([s0; s1; s2] ++ str "=") at 1.
  rewrite !atob_pad. unfold atob.
  rewrite atobStrip_plain by (repeat first [apply Forall_nil_2 | apply Forall_cons_2]; done).
  change (atobPad 3 [s0; s1; s2]) with [s0; s1; s2; "="%char].
  unfold atobGroups. change (seq 0 _) with [0%nat]. cbn [flat_map]. by rewrite app_nil_r.
Qed.

Lemma three_ind (P : list ascii → Prop) :
  P [] → (∀ a, P [a]) → (∀ a b, P [a; b]) → (∀ a b c r, P r → P (a :: b :: c :: r)) →
  ∀ l, P l.
Proof.
  intros H0 H1 H2 H3 l.
  assert (Hn : ∀ n l, (length l ≤ n)%nat → P l); [|by apply (Hn (length l))].
  clear l. induction n as [|n IH]; intros l Hl.
  - destruct l; [done|simpl in Hl; lia].
  - destruct l as [|a [|b [|c r]]]; try done. apply H3, IH. simpl in Hl. lia.
Qed.

Lemma mkbyte_eq z c : z = byteval c → mkbyte z = c.
Proof. intros ->. apply mkbyte_byteval. Qed.

Ltac byte_bounds :=
  repeat match goal with
  | c : ascii |- _ => lazymatch goal with
                      | _ : 0 ≤ byteval c < 256 |- _ => fail
                      | _ => pose proof (byteval_range c)
                      end
  end.

Lemma atob_btoa_bytes (bs : list ascii) : atob (btoa bs) = bs.
Proof.
  induction bs as [|b0|b0 b1|b0 b1 b2 rest IH] using three_ind.
  - done.
  - byte_bounds. cbn [btoa].
    assert (B0 : 0 ≤ byteval b0 / 4 < 64) by (Z.to_euclidean_division_equations; lia).
    assert (B1 : 0 ≤ byteval b0 `mod` 4 * 16 < 64) by (Z.to_euclidean_division_equations; lia).
    rewrite (atob_short_group _ _ (proj2 (symbolOf_val _ B0)) (proj2 (symbolOf_val _ B1))).
    rewrite atobGroup_symbols2 by done. f_equal. apply mkbyte_eq.
    Z.to_euclidean_division_equations. lia.
  - byte_bounds. cbn [btoa].
    assert (B0 : 0 ≤ byteval b0 / 4 < 64) by (Z.to_euclidean_division_equations; lia).
    assert (B1 : 0 ≤ byteval b0 `mod` 4 * 16 + byteval b1 / 16 < 64)
      by (Z.to_euclidean_division_equations; lia).
    assert (B2 : 0 ≤ byteval b1 `mod` 16 * 4 < 64) by (Z.to_euclidean_division_equations; lia).
    rewrite (atob_short_group3 _ _ _ (proj2 (symbolOf_val _ B0)) (proj2 (symbolOf_val _ B1))
               (proj2 (symbolOf_val _ B2))).
    rewrite atobGroup_symbols3 by done.
    f_equal; [|f_equal]; apply mkbyte_eq; Z.to_euclidean_division_equations; lia.
  - byte_bounds. cbn [btoa].
    assert (B0 : 0 ≤ byteval b0 / 4 < 64) by (Z.to_euclidean_division_equations; lia).
    assert (B1 : 0 ≤ byteval b0 `mod` 4 * 16 + byteval b1 / 16 < 64)
      by (Z.to_euclidean_division_equations; lia).
    assert (B2 : 0 ≤ byteval b1 `mod` 16 * 4 + byteval b2 / 64 < 64)
      by (Z.to_euclidean_division_equations; lia).
    assert (B3 : 0 ≤ byteval b2 `mod` 64 < 64) by (Z.to_euclidean_division_equations; lia).
    rewrite atob_group; [|done|].
    2:{ repeat first [apply Forall_nil_2 | apply Forall_cons_2]; by apply symbolOf_val. }
    rewrite IH, atobGroup_symbols by done.
    cbn [app]. f_equal; [|f_equal; [|f_equal]]; apply mkbyte_eq;
      Z.to_euclidean_division_equations; lia.
Qed.

(** X14: [atob] decodes the standard padded base64 encoding of every byte
    string to that byte string: whole groups of three bytes, and a final
    group of one or two bytes with its padding. *)
Theorem atob_btoa (bs : list ascii) : atob (btoa bs) = bs.
Proof. apply atob_btoa_bytes. Qed.

Lemma droppedByte_spec c : droppedByte c → isAscii c ∧ keptRune (byteval c) = false.
Proof. intros [-> | [-> | [-> | ->]]]; by vm_compute. Qed.

Lemma atobStrip_skip s t c :
  Forall isAscii s → droppedByte c → atobStrip (s ++ c :: t) = atobStrip (s ++ t).
Proof.
  intros Hs Hc. destruct (droppedByte_spec c Hc) as [Ha Hk].
  induction Hs as [|d s Hd Hs IH]; cbn [app].
  - by apply atobStrip_cons_dropped.
  - destruct (keptRune (byteval d)) eqn:Hkd.
    + rewrite !atobStrip_cons_plain by done. by rewrite IH.
    + rewrite !atobStrip_cons_dropped by done. exact IH.
Qed.

(** X15: [atob] drops a padding character, a space, a line feed or a
    carriage return wherever it stands, not only at the end: after an ASCII
    prefix, the input with such a byte and the input without it decode to
    the same bytes. *)
Theorem atob_skips_padding_and_space (s t : list ascii) (c : ascii) :
  Forall isAscii s → droppedByte c → atob (s ++ c :: t) = atob (s ++ t).
Proof. intros Hs Hc. unfold atob. by rewrite atobStrip_skip. Qed.

Lemma atob_skips_padding_and_space_witness :
  atob (str "YQ" ++ "="%char :: str "YQ") = atob (str "YQ" ++ str "YQ").
Proof.
  apply (atob_skips_padding_and_space (str "YQ") (str "YQ") "="%char).
  - unfold isAscii. apply (bool_decide_unpack _). by vm_compute.
  - by left.
Defined.

(** ** [atob] group by group *)

Lemma four_ind {A} (P : list A → Prop) :
  P [] → (∀ a, P [a]) → (∀ a b, P [a; b]) → (∀ a b c, P [a; b; c]) →
  (∀ a b c d rest, P rest → P (a :: b :: c :: d :: rest)) →
  ∀ l, P l.
Proof.
  intros H0 H1 H2 H3 H4 l.
  assert (Hn : ∀ n l, (length l ≤ n)%nat → P l); [|by apply (Hn (length l))].
  clear l. induction n as [|n IH]; intros l Hl.
  - destruct l; [done|simpl in Hl; lia].
  - destruct l as [|a [|b [|c [|d rest]]]]; try done. apply H4, IH. simpl in Hl. lia.
Qed.

Lemma padTo4_group g x : length g = 4%nat → padTo4 (g ++ x) = g ++ padTo4 x.
Proof.
  intros Hg. unfold padTo4. rewrite length_app, Hg, <- app_assoc.
  replace ((4 + length x) `mod` 4)%nat with (length x `mod` 4)%nat; [done|].
  replace (4 + length x)%nat with (length x + 1 * 4)%nat by lia.
  by rewrite Nat.Div0.mod_add.
Qed.

(** The padding loop of [atob] completes the last group; at most three
    bytes are missing. *)
Lemma atobPad_padTo4 e : atobPad 3 e = padTo4 e.
Proof.
  induction e as [| | | |a b c d rest IH] using four_ind; try reflexivity.
  change (a :: b :: c :: d :: rest) with ([a; b; c; d] ++ rest).
  by rewrite atobPad_group, padTo4_group, IH.
Qed.

Lemma symbolValue_range c : 0 ≤ symbolValue c < 64.
Proof.
  unfold symbolValue. destruct (list_find _ base64Chars) as [[i d]|] eqn:Hf; [|lia].
  apply list_find_Some in Hf as (Hi & _). apply lookup_lt_Some in Hi.
  change (length base64Chars) with 64%nat in Hi. lia.
Qed.

(** One step of the inner loop: the value stored and whether [count] is
    set. *)
Lemma atobVal_symbol c :
  atobVal [c] 0 = (symbolValue (zeroSymbol c), bool_decide (c ∈ base64Chars)).
Proof.
  unfold zeroSymbol. case_bool_decide as Hin.
  - destruct (base64Chars_kept c Hin) as (_ & _ & Hne).
    unfold atobVal, symbolValue. cbn [lookup list_lookup]. rewrite decide_False by done.
    rewrite (atobLookup_alphabet c).
    destruct (list_find _ base64Chars) as [[i d]|] eqn:Hf; [done|].
    apply list_find_None in Hf. rewrite Forall_forall in Hf. by destruct (Hf c).
  - by rewrite atobVal_unmapped.
Qed.

Lemma group_bits v0 v1 v2 v3 :
  0 ≤ v0 < 64 → 0 ≤ v1 < 64 → 0 ≤ v2 < 64 → 0 ≤ v3 < 64 →
  Z.lor (Z.shiftl v0 2) (Z.shiftr v1 4) = v0 * 4 + v1 / 16 ∧
  Z.lor (Z.shiftl (Z.land v1 0xf) 4) (Z.shiftr v2 2) = v1 `mod` 16 * 16 + v2 / 4 ∧
  Z.lor (Z.shiftl (Z.land v2 0x3) 6) v3 = v2 `mod` 4 * 64 + v3.
Proof.
  intros H0 H1 H2 H3.
  rewrite !Z.shiftl_mul_pow2, !Z.shiftr_div_pow2 by lia.
  change 0xf with (Z.ones 4). change 0x3 with (Z.ones 2). rewrite !Z.land_ones by lia.
  rewrite (lor_disjoint v0 (v1 / 2 ^ 4) 2), (lor_disjoint (v1 `mod` 2 ^ 4) (v2 / 2 ^ 2) 4),
          (lor_disjoint (v2 `mod` 2 ^ 2) v3 6); try lia.
  - done.
  - change (2 ^ 2) with 4. change (2 ^ 4) with 16. Z.to_euclidean_division_equations. lia.
  - change (2 ^ 2) with 4. change (2 ^ 4) with 16. Z.to_euclidean_division_equations. lia.
Qed.

(** A group of four: every byte outside the alphabet counts as the symbol
    of value 0, and the group yields the bytes before its last symbol of
    the alphabet. *)
Lemma atobGroup_lastMapped c0 c1 c2 c3 :
  atobGroup [c0; c1; c2; c3] 0 =
  take (lastMapped [c0; c1; c2; c3] - 1) (decodeGroup (zeroSymbol <$> [c0; c1; c2; c3])).
Proof.
  unfold atobGroup. cbn [Nat.add].
  change (atobVal [c0; c1; c2; c3] 0) with (atobVal [c0] 0).
  change (atobVal [c0; c1; c2; c3] 1) with (atobVal [c1] 0).
  change (atobVal [c0; c1; c2; c3] 2) with (atobVal [c2] 0).
  change (atobVal [c0; c1; c2; c3] 3) with (atobVal [c3] 0).
  rewrite !atobVal_symbol. cbn [fst snd fmap list_fmap decodeGroup lastMapped].
  destruct (group_bits _ _ _ _ (symbolValue_range (zeroSymbol c0))
              (symbolValue_range (zeroSymbol c1)) (symbolValue_range (zeroSymbol c2))
              (symbolValue_range (zeroSymbol c3))) as (-> & -> & ->).
  generalize (symbolValue (zeroSymbol c0)) (symbolValue (zeroSymbol c1))
             (symbolValue (zeroSymbol c2)) (symbolValue (zeroSymbol c3)).
  intros v0 v1 v2 v3.
  destruct (bool_decide (c0 ∈ base64Chars)), (bool_decide (c1 ∈ base64Chars)),
           (bool_decide (c2 ∈ base64Chars)), (bool_decide (c3 ∈ base64Chars));
    reflexivity.
Qed.

Lemma atobGroups_padTo4 e :
  atobGroups (padTo4 e) =
  flat_map (fun g => take (lastMapped g - 1) (decodeGroup (zeroSymbol <$> g)))
           (groupsOf4 (padTo4 e)).
Proof.
  assert (H1 : ∀ a b c d, atobGroups [a; b; c; d] = atobGroup [a; b; c; d] 0).
  { intros a b c d. change [a; b; c; d] with ([a; b; c; d] ++ []) at 1.
    rewrite atobGroups_group by done. apply app_nil_r. }
  induction e as [|a|a b|a b c|a b c d rest IH] using four_ind.
  - done.
  - change (padTo4 [a]) with [a; "="%char; "="%char; "="%char].
    cbn [groupsOf4 flat_map]. by rewrite H1, atobGroup_lastMapped, app_nil_r.
  - change (padTo4 [a; b]) with [a; b; "="%char; "="%char].
    cbn [groupsOf4 flat_map]. by rewrite H1, atobGroup_lastMapped, app_nil_r.
  - change (padTo4 [a; b; c]) with [a; b; c; "="%char].
    cbn [groupsOf4 flat_map]. by rewrite H1, atobGroup_lastMapped, app_nil_r.
  - change (a :: b :: c :: d :: rest) with ([a; b; c; d] ++ rest).
    rewrite padTo4_group by done. rewrite atobGroups_group by done.
    cbn [app groupsOf4 flat_map]. by rewrite IH, atobGroup_lastMapped.
Qed.

Lemma atobStrip_runes s :
  atobStrip s = mkbyte <$> filter (fun r => r ∉ droppedRunes) (Utf8.runes s).
Proof.
  unfold atobStrip. f_equal. apply list_filter_iff. intros r.
  unfold keptRune, droppedRunes. rewrite !not_elem_of_cons.
  destruct (Z.eqb_spec r 61), (Z.eqb_spec r 10), (Z.eqb_spec r 13), (Z.eqb_spec r 32);
    cbn [negb andb]; split; try done; try (intros (? & ? & ? & ? & _); done).
  intros _. split_and!; try done. apply not_elem_of_nil.
Qed.

(** C6, counterexample: a byte outside the alphabet at the end of a group
    does not decode as the symbol of value 0: [YWJ!] decodes to the two
    bytes [ab], [YWJA] to the three bytes [ab@]. A byte outside the
    alphabet is not always given the value 0 either: the two bytes C5 82
    (one rune, U+0142) are read as the byte 42, the symbol [B] of value
    1. *)
Lemma atob_unmapped_not_zero :
  atob (str "YWJ!") = str "ab" ∧ atob (str "YWJA") = str "ab@" ∧
  atob (str "YWJ" ++ ["197"%char; "130"%char]) = str "abA" ∧
  atob (str "YWJB") = str "abA".
Proof. split_and!; by vm_compute. Qed.

(** C6, amended: [atob] rejects no input. For every input, the bytes it
    decodes are the code points of the input other than '=', line feed,
    carriage return and space, each cut to its low eight bits (for an ASCII
    input: its bytes other than these four), followed by the padding that
    completes the last group of four. Every group of four is decoded as
    base64 with each byte outside the alphabet counted as the symbol of
    value 0, and yields only the bytes before its last symbol of the
    alphabet: bytes outside the alphabet at the end of a group shorten the
    output as padding does. Padding appended to any input changes nothing,
    the empty string decodes to the empty string, and [SGVsbG8=] decodes to
    [Hello] with or without its padding. *)
Theorem atob_lenient_groups (s : list ascii) :
  atob s =
    flat_map (fun g => take (lastMapped g - 1) (decodeGroup (zeroSymbol <$> g)))
             (groupsOf4 (padTo4 (atobStrip s))) ∧
  atobStrip s = mkbyte <$> filter (fun r => r ∉ droppedRunes) (Utf8.runes s) ∧
  (Forall isAscii s → atobStrip s = filter (fun c => byteval c ∉ droppedRunes) s) ∧
  atob (s ++ str "=") = atob s ∧
  atob (s ++ str "==") = atob s ∧
  atob (str "") = str "" ∧
  atob (str "SGVsbG8=") = str "Hello" ∧
  atob (str "SGVsbG8") = str "Hello".
Proof.
  split_and!.
  - unfold atob. rewrite atobPad_padTo4. apply atobGroups_padTo4.
  - apply atobStrip_runes.
  - intros Hs. rewrite atobStrip_runes, runes_ascii by done.
    clear Hs. induction s as [|c s IH]; [done|].
    rewrite fmap_cons. destruct (decide (byteval c ∈ droppedRunes)).
    + rewrite !filter_cons_False by tauto. exact IH.
    + rewrite !filter_cons_True by done. by rewrite fmap_cons, mkbyte_byteval, IH.
  - apply atob_pad.
  - change (str "==") with (str "=" ++ str "="). by rewrite app_assoc, !atob_pad.
  - by vm_compute.
  - by vm_compute.
  - by vm_compute.
Qed.

(** ** [reverseString] reverses code points *)

(** X17: on an ASCII string [reverseString] is the reversal of the bytes; it
    keeps the length, and applied twice it gives the string back. *)
Theorem reverseString_ascii_bytes (s : list ascii) :
  Forall isAscii s →
  reverseString s = reverse s ∧ reverseString (reverseString s) = s ∧
  len (reverseString s) = len s.
Proof.
  intros Hs. rewrite !reverseString_ascii; try done.
  - split_and!; [done|by rewrite reverse_involutive|]. unfold len. by rewrite length_reverse.
  - by apply Forall_reverse.
Qed.

Lemma reverseString_ascii_bytes_witness :
  reverseString (str "hello") = reverse (str "hello") ∧
  reverseString (reverseString (str "hello")) = str "hello" ∧
  len (reverseString (str "hello")) = len (str "hello").
Proof.
  apply (reverseString_ascii_bytes (str "hello")).
  unfold isAscii. apply (bool_decide_unpack _). by vm_compute.
Defined.

Lemma lor_aligned x b k :
  0 ≤ k → 0 ≤ b < 2 ^ k → x `mod` 2 ^ k = 0 → Z.lor x b = x + b.
Proof.
  intros Hk Hb Hx. rewrite (Z.div_mod x (2 ^ k)) by lia. rewrite Hx, Z.add_0_r.
  rewrite (Z.mul_comm (2 ^ k)). by apply lor_disjoint.
Qed.

Lemma cont_mod c : Utf8.cont c = byteval c `mod` 64.
Proof. unfold Utf8.cont. change 0x3F with (Z.ones 6). by rewrite Z.land_ones. Qed.

Lemma rune2_arith s0 c1 :
  Z.lor (Z.shiftl (Z.land s0 0x1F) 6) (Utf8.cont c1) = s0 `mod` 32 * 64 + byteval c1 `mod` 64.
Proof.
  rewrite cont_mod. change 0x1F with (Z.ones 5). rewrite Z.land_ones by lia.
  rewrite Z.shiftl_mul_pow2 by lia. apply lor_disjoint; [lia|].
  apply Z.mod_pos_bound. lia.
Qed.

Lemma rune3_arith s0 c1 c2 :
  Z.lor (Z.lor (Z.shiftl (Z.land s0 0x0F) 12) (Z.shiftl (Utf8.cont c1) 6)) (Utf8.cont c2) =
  s0 `mod` 16 * 4096 + byteval c1 `mod` 64 * 64 + byteval c2 `mod` 64.
Proof.
  rewrite !cont_mod. change 0x0F with (Z.ones 4). rewrite Z.land_ones by lia.
  rewrite !Z.shiftl_mul_pow2 by lia.
  pose proof (Z.mod_pos_bound (byteval c1) 64 eq_refl).
  pose proof (Z.mod_pos_bound (byteval c2) 64 eq_refl).
  rewrite (lor_disjoint (s0 `mod` 2 ^ 4) (byteval c1 `mod` 64 * 2 ^ 6) 12) by lia.
  rewrite (lor_aligned _ (byteval c2 `mod` 64) 6); [change (2 ^ 4) with 16; lia|lia|lia|].
  change (2 ^ 12) with (64 * 2 ^ 6). rewrite Z.mul_assoc, <- Z.mul_add_distr_r.
  apply Z.mod_mul. lia.
Qed.

Lemma rune4_arith s0 c1 c2 c3 :
  Z.lor (Z.lor (Z.lor (Z.shiftl (Z.land s0 0x07) 18) (Z.shiftl (Utf8.cont c1) 12))
               (Z.shiftl (Utf8.cont c2) 6)) (Utf8.cont c3) =
  s0 `mod` 8 * 262144 + byteval c1 `mod` 64 * 4096 + byteval c2 `mod` 64 * 64 +
  byteval c3 `mod` 64.
Proof.
  rewrite !cont_mod. change 0x07 with (Z.ones 3). rewrite Z.land_ones by lia.
  rewrite !Z.shiftl_mul_pow2 by lia.
  pose proof (Z.mod_pos_bound (byteval c1) 64 eq_refl).
  pose proof (Z.mod_pos_bound (byteval c2) 64 eq_refl).
  pose proof (Z.mod_pos_bound (byteval c3) 64 eq_refl).
  rewrite (lor_disjoint (s0 `mod` 2 ^ 3) (byteval c1 `mod` 64 * 2 ^ 12) 18) by lia.
  rewrite (lor_aligned _ (byteval c2 `mod` 64 * 2 ^ 6) 12); [|lia|lia|].
  2:{ change (2 ^ 18) with (64 * 2 ^ 12). rewrite Z.mul_assoc, <- Z.mul_add_distr_r.
      apply Z.mod_mul. lia. }
  rewrite (lor_aligned _ (byteval c3 `mod` 64) 6); [|lia|lia|].
  2:{ change (2 ^ 18) with (4096 * 2 ^ 6). change (2 ^ 12) with (64 * 2 ^ 6).
      rewrite !Z.mul_assoc, <- !Z.mul_add_distr_r. apply Z.mod_mul. lia. }
  change (2 ^ 3) with 8. lia.
Qed.

Ltac zcmp :=
  repeat (first
    [ match goal with |- context [Z.ltb ?a ?b] => destruct (Z.ltb_spec a b) end
    | match goal with |- context [Z.leb ?a ?b] => destruct (Z.leb_spec a b) end
    | match goal with |- context [Z.eqb ?a ?b] => destruct (Z.eqb_spec a b) end ];
    try lia; cbn [negb andb orb]).

Lemma decodeRune_valid s : validRune (Utf8.decodeRune s).1.
Proof.
  assert (Herr : validRune Utf8.RuneError) by (unfold validRune, Utf8.RuneError; lia).
  unfold Utf8.decodeRune. destruct s as [|c0 t]; [done|].
  pose proof (byteval_range c0) as B0.
  destruct (Z.ltb_spec (byteval c0) 128); [unfold validRune; cbn; lia|].
  destruct (Utf8.first (byteval c0)) as [[[sz lo] hi]|] eqn:Hf; [|done].
  destruct t as [|c1 t1]; [done|]. pose proof (byteval_range c1) as B1.
  destruct (Utf8.accept lo hi c1) eqn:Ha; [|done]. cbn [negb].
  unfold Utf8.accept in Ha. apply andb_true_iff in Ha as [Ha1 Ha2].
  apply Z.leb_le in Ha1, Ha2.
  unfold Utf8.first in Hf.
  destruct (sz <=? 2)%nat eqn:H2.
  { cbn [fst]. rewrite rune2_arith. unfold validRune.
    revert Hf. zcmp; intros [= <- <- <-]; try done;
      Z.to_euclidean_division_equations; lia. }
  destruct t1 as [|c2 t2]; [done|]. pose proof (byteval_range c2) as B2.
  destruct (Utf8.accept 128 191 c2) eqn:Hb; [|done]. cbn [negb].
  unfold Utf8.accept in Hb. apply andb_true_iff in Hb as [Hb1 Hb2].
  apply Z.leb_le in Hb1, Hb2.
  destruct (sz <=? 3)%nat eqn:H3.
  { cbn [fst]. rewrite rune3_arith. unfold validRune.
    revert Hf. zcmp; intros [= <- <- <-]; try done;
      Z.to_euclidean_division_equations; lia. }
  destruct t2 as [|c3 t3]; [done|]. pose proof (byteval_range c3) as B3.
  destruct (Utf8.accept 128 191 c3) eqn:Hc; [|done]. cbn [negb].
  unfold Utf8.accept in Hc. apply andb_true_iff in Hc as [Hc1 Hc2].
  apply Z.leb_le in Hc1, Hc2.
  cbn [fst]. rewrite rune4_arith. unfold validRune.
  revert Hf. zcmp; intros [= <- <- <-]; try done;
    Z.to_euclidean_division_equations; lia.
Qed.

Lemma encodeRune_bytes r :
  validRune r →
  Utf8.encodeRune r =
  if r <=? 0x7F then [mkbyte r]
  else if r <=? 0x7FF then [mkbyte (192 + r / 64); mkbyte (128 + r `mod` 64)]
  else if r <=? 0xFFFF
       then [mkbyte (224 + r / 4096); mkbyte (128 + (r / 64) `mod` 64);
             mkbyte (128 + r `mod` 64)]
       else [mkbyte (240 + r / 262144); mkbyte (128 + (r / 4096) `mod` 64);
             mkbyte (128 + (r / 64) `mod` 64); mkbyte (128 + r `mod` 64)].
Proof.
  intros (H0 & Hmax & Hsur). unfold Utf8.encodeRune, Utf8.enc3.
  change 0x3F with (Z.ones 6). rewrite !Z.land_ones, !Z.shiftr_div_pow2 by lia.
  change (2 ^ 6) with 64. change (2 ^ 12) with 4096. change (2 ^ 18) with 262144.
  pose proof (Z.mod_pos_bound r 64 eq_refl).
  pose proof (Z.mod_pos_bound (r / 64) 64 eq_refl).
  pose proof (Z.mod_pos_bound (r / 4096) 64 eq_refl).
  assert (L80 : ∀ b, 0 ≤ b < 64 → Z.lor 0x80 b = 128 + b).
  { intros b Hb. change 0x80 with (2 * 2 ^ 6). by rewrite lor_disjoint. }
  rewrite !L80 by done.
  destruct (Z.ltb_spec r 0); [lia|]. destruct (Z.leb_spec r 0x7F); [done|].
  destruct (Z.leb_spec r 0x7FF).
  { change 0xC0 with (3 * 2 ^ 6). rewrite lor_disjoint; [done|lia|].
    Z.to_euclidean_division_equations. lia. }
  destruct (Z.ltb_spec 0x10FFFF r); [lia|]. cbn [orb].
  destruct (Z.leb_spec 0xD800 r); destruct (Z.leb_spec r 0xDFFF); try lia; cbn [andb];
    (destruct (Z.leb_spec r 0xFFFF);
     [ change 0xE0 with (14 * 2 ^ 4); rewrite lor_disjoint;
         [done|lia|Z.to_euclidean_division_equations; lia]
     | change 0xF0 with (30 * 2 ^ 3); rewrite lor_disjoint;
         [done|lia|Z.to_euclidean_division_equations; lia] ]).
Qed.

Lemma decodeRune_encodeRune r t :
  validRune r →
  Utf8.decodeRune (Utf8.encodeRune r ++ t) = (r, length (Utf8.encodeRune r)).
Proof.
  intros Hv. rewrite encodeRune_bytes by done. destruct Hv as (H0 & Hmax & Hsur).
  pose proof (Z.mod_pos_bound r 64 eq_refl).
  pose proof (Z.mod_pos_bound (r / 64) 64 eq_refl).
  pose proof (Z.mod_pos_bound (r / 4096) 64 eq_refl).
  destruct (Z.leb_spec r 0x7F).
  { cbn [app length]. unfold Utf8.decodeRune. rewrite byteval_mkbyte by lia.
    destruct (Z.ltb_spec r 128); [done|lia]. }
  destruct (Z.leb_spec r 0x7FF).
  { cbn [app length]. unfold Utf8.decodeRune.
    assert (B0 : 0 ≤ 192 + r / 64 < 256) by (Z.to_euclidean_division_equations; lia).
    rewrite rune2_arith. unfold Utf8.accept, Utf8.first. rewrite !byteval_mkbyte by lia.
    zcmp; try (Z.to_euclidean_division_equations; lia).
    all: cbn [Nat.leb]; f_equal; Z.to_euclidean_division_equations; lia. }
  destruct (Z.leb_spec r 0xFFFF).
  { cbn [app length]. unfold Utf8.decodeRune.
    assert (B0 : 0 ≤ 224 + r / 4096 < 256) by (Z.to_euclidean_division_equations; lia).
    rewrite rune3_arith. unfold Utf8.accept, Utf8.first. rewrite !byteval_mkbyte by lia.
    zcmp; try (Z.to_euclidean_division_equations; lia).
    all: cbn [Nat.leb]; f_equal; Z.to_euclidean_division_equations; lia. }
  cbn [app length]. unfold Utf8.decodeRune.
  assert (B0 : 0 ≤ 240 + r / 262144 < 256) by (Z.to_euclidean_division_equations; lia).
  rewrite rune4_arith. unfold Utf8.accept, Utf8.first. rewrite !byteval_mkbyte by lia.
  zcmp; try (Z.to_euclidean_division_equations; lia).
  all: cbn [Nat.leb]; f_equal; Z.to_euclidean_division_equations; lia.
Qed.

Lemma encodeRune_length r : (1 ≤ length (Utf8.encodeRune r))%nat.
Proof.
  unfold Utf8.encodeRune, Utf8.enc3. repeat case_match; cbn [length]; lia.
Qed.

Lemma rangeFrom_skip s t :
  Utf8.rangeFrom (length s) (s ++ t) = replicate (length s) None ++ Utf8.range t.
Proof. induction s as [|c s IH]; [done|]. cbn. by rewrite IH. Qed.

Lemma range_encodeRune r t :
  validRune r →
  Utf8.range (Utf8.encodeRune r ++ t) =
  Some r :: replicate (length (Utf8.encodeRune r) - 1) None ++ Utf8.range t.
Proof.
  intros Hv. pose proof (decodeRune_encodeRune r t Hv) as Hd.
  pose proof (encodeRune_length r) as Hl.
  destruct (Utf8.encodeRune r) as [|c rest] eqn:E; [simpl in Hl; lia|].
  unfold Utf8.range at 1. cbn [app Utf8.rangeFrom]. cbn [app] in Hd. rewrite Hd.
  cbn [fst snd length Nat.pred]. rewrite rangeFrom_skip.
  by replace (S (length rest) - 1)%nat with (length rest) by lia.
Qed.

Lemma omap_replicate_None {A} n (l : list (option A)) :
  omap id (replicate n None ++ l) = omap id l.
Proof. induction n as [|n IH]; [done|]. cbn. exact IH. Qed.

Lemma runes_ofRunes rs : Forall validRune rs → Utf8.runes (Utf8.ofRunes rs) = rs.
Proof.
  induction 1 as [|r rs Hr Hrs IH]; [done|].
  unfold Utf8.runes, Utf8.ofRunes in *. cbn [flat_map].
  rewrite range_encodeRune by done.
  change (omap id (Some r :: ?l)) with (r :: omap id l).
  by rewrite omap_replicate_None, IH.
Qed.

Lemma range_valid s k : Forall validRune (omap id (Utf8.rangeFrom k s)).
Proof.
  revert k. induction s as [|c s IH]; intros k; [constructor|].
  cbn [Utf8.rangeFrom]. destruct k as [|k].
  - change (omap id (Some ?r :: ?l)) with (r :: omap id l).
    constructor; [apply decodeRune_valid|apply IH].
  - change (omap id (None :: ?l)) with (omap id l). apply IH.
Qed.

Lemma runes_valid s : Forall validRune (Utf8.runes s).
Proof. apply range_valid. Qed.

(** X16: for every string, valid UTF-8 or not, the code points of
    [reverseString(s)] are the code points of [s] in reverse order, each byte
    that is not part of a valid encoding counting as U+FFFD. Applied twice,
    [reverseString] gives [string([]rune(s))]: the string itself when the
    conversion to runes and back leaves it unchanged, and otherwise the
    string with a U+FFFD for every invalid byte. *)
Theorem reverseString_runes (s : list ascii) :
  Utf8.runes (reverseString s) = reverse (Utf8.runes s) ∧
  reverseString (reverseString s) = Utf8.ofRunes (Utf8.runes s) ∧
  (Utf8.ofRunes (Utf8.runes s) = s → reverseString (reverseString s) = s).
Proof.
  assert (H1 : Utf8.runes (reverseString s) = reverse (Utf8.runes s)).
  { unfold reverseString. cbv zeta. rewrite reverseLoop_reverse.
    apply runes_ofRunes, Forall_reverse, runes_valid. }
  assert (H2 : reverseString (reverseString s) = Utf8.ofRunes (Utf8.runes s)).
  { unfold reverseString at 1. cbv zeta. rewrite reverseLoop_reverse, H1.
    by rewrite reverse_involutive. }
  split_and!; [done|done|]. intros Hs. by rewrite H2.
Qed.

(** ** The layers keep ASCII text ASCII and pad it once *)

Lemma Itoa_nonempty n : Itoa n ≠ [].
Proof.
  unfold Itoa, str. destruct n as [|p|p]; cbn [Z.to_int NilZero.string_of_int].
  - done.
  - unfold NilZero.string_of_uint. by destruct (Pos.to_uint p).
  - done.
Qed.

Lemma unshift_range lo hi st rs :
  asciiRange lo hi → Forall (fun r => lo ≤ r ≤ hi) rs →
  Forall (fun r => lo ≤ r ≤ hi) (Spec.unshift st rs) ∧
  length (Spec.unshift st rs) = length rs.
Proof.
  intros Hr Hrs. revert st. induction Hrs as [|r rs Hr0 Hrs IH]; intros st; [done|].
  cbn [Spec.unshift]. destruct (Spec.inAlphabet r).
  - destruct (Spec.next st 95) as [st' d]. destruct (IH st') as [IH1 IH2].
    split; [|simpl; by rewrite IH2]. constructor; [|done].
    unfold Spec.symbol, Spec.index.
    pose proof (Z.mod_pos_bound (r - 32 - d + 95) 95 eq_refl). unfold asciiRange in Hr. lia.
  - destruct (IH st) as [IH1 IH2]. split; [by constructor|simpl; by rewrite IH2].
Qed.

Lemma unsubstitute_range lo hi key ch :
  asciiRange lo hi → lo ≤ ch ≤ hi → lo ≤ Spec.unsubstitute key ch ≤ hi.
Proof.
  intros Hr Hch. destruct (decide (32 ≤ ch ≤ 126)) as [Ha|Ha].
  - apply (shuffled_elem key) in Ha. apply list_elem_of_lookup_1 in Ha as [i Hi].
    rewrite (unsubstitute_at key i ch Hi). apply lookup_lt_Some in Hi.
    rewrite shuffled_length in Hi. unfold asciiRange in Hr. lia.
  - by rewrite unsubstitute_other.
Qed.

Lemma ofRunes_bytes rs :
  Forall (fun r => 0 ≤ r ≤ 127) rs → Utf8.ofRunes rs = mkbyte <$> rs.
Proof.
  induction 1 as [|r rs Hr Hrs IH]; [done|].
  unfold Utf8.ofRunes in *. cbn [flat_map]. rewrite IH, fmap_cons.
  unfold Utf8.encodeRune. destruct (Z.ltb_spec r 0); [lia|].
  destruct (Z.leb_spec r 127); [done|lia].
Qed.

Lemma bytes_range lo hi (rs : list Z) :
  asciiRange lo hi → Forall (fun r => lo ≤ r ≤ hi) rs →
  Forall (fun c => lo ≤ byteval c ≤ hi) (mkbyte <$> rs).
Proof.
  intros Hr Hrs. apply Forall_fmap. eapply Forall_impl; [exact Hrs|].
  intros r H. unfold compose. cbv beta in H |- *. unfold asciiRange in Hr.
  rewrite byteval_mkbyte; lia.
Qed.

Lemma columnarCipher2_range lo hi src ikey :
  asciiRange lo hi → Forall (fun c => lo ≤ byteval c ≤ hi) src →
  Forall (fun c => lo ≤ byteval c ≤ hi) (columnarCipher2 src ikey).
Proof.
  intros Hr Hs. destruct ikey as [|k ikey]; [done|].
  rewrite columnarCipher2_Permutation by done. unfold padded.
  apply Forall_app. split; [done|]. apply Forall_replicate.
  change (byteval " ") with 32. unfold asciiRange in Hr. lia.
Qed.

Lemma reverseLayer_range lo hi decSrc genKey iteration :
  asciiRange lo hi → Forall (fun c => lo ≤ byteval c ≤ hi) decSrc →
  Forall (fun c => lo ≤ byteval c ≤ hi) (reverseLayer decSrc genKey iteration charArray) ∧
  length (reverseLayer decSrc genKey iteration charArray) =
  (rowsOf decSrc (genKey ++ Itoa iteration) * length (genKey ++ Itoa iteration))%nat.
Proof.
  intros Hr Hs. rewrite reverseLayer_steps. cbv zeta.
  set (lk := genKey ++ Itoa iteration).
  assert (Hlk : lk ≠ []).
  { unfold lk. intros E. apply app_eq_nil in E as [_ E]. by apply Itoa_nonempty in E. }
  assert (Hascii : Forall isAscii decSrc).
  { eapply Forall_impl; [exact Hs|]. intros c Hc. unfold isAscii, asciiRange in *.
    cbv beta in Hc. lia. }
  rewrite runes_ascii by done.
  destruct (unshift_range lo hi (Spec.seed lk) (byteval <$> decSrc) Hr) as [Hu Hul].
  { apply Forall_fmap. exact Hs. }
  rewrite length_fmap in Hul.
  assert (Hu127 : ∀ rs, Forall (fun r => lo ≤ r ≤ hi) rs → Forall (fun r => 0 ≤ r ≤ 127) rs).
  { intros rs H. eapply Forall_impl; [exact H|]. intros r Hx. unfold asciiRange in Hr.
    cbv beta in Hx. lia. }
  rewrite (ofRunes_bytes (Spec.unshift _ _)) by (by apply Hu127).
  set (shifted := mkbyte <$> Spec.unshift (Spec.seed lk) (byteval <$> decSrc)).
  assert (Hsh : Forall (fun c => lo ≤ byteval c ≤ hi) shifted) by (by apply bytes_range).
  assert (Hshl : length shifted = length decSrc).
  { unfold shifted. by rewrite length_fmap. }
  pose proof (columnarCipher2_range lo hi shifted lk Hr Hsh) as Hc.
  pose proof (columnarCipher2_length shifted lk Hlk) as Hcl.
  set (transposed := columnarCipher2 shifted lk) in *.
  assert (Hta : Forall isAscii transposed).
  { eapply Forall_impl; [exact Hc|]. intros c Hx. unfold isAscii, asciiRange in *.
    cbv beta in Hx. lia. }
  rewrite range_ascii by done. rewrite <- list_fmap_compose.
  assert (Hsub : Forall (fun r => lo ≤ r ≤ hi)
            ((fun c => Spec.unsubstitute lk (byteval c)) <$> transposed)).
  { apply Forall_fmap. eapply Forall_impl; [exact Hc|]. intros c Hx.
    unfold compose. cbv beta in Hx |- *. by apply unsubstitute_range. }
  change ((fun o : option Z => match o with Some ch => Spec.unsubstitute lk ch | None => 0 end)
            ∘ (Some ∘ byteval)) with (fun c => Spec.unsubstitute lk (byteval c)).
  rewrite ofRunes_bytes by (by apply Hu127). split.
  - by apply bytes_range.
  - rewrite !length_fmap, Hcl. unfold rowsOf. by rewrite Hshl.
Qed.

(** X5: on an ASCII text [reverseLayer] returns an ASCII text, and a text
    of the 95-symbol alphabet when the input is one. The layer key is never
    empty, and the result has [rowCount * len(layerKey)] bytes with
    [rowCount = (len(decSrc) + len(layerKey) - 1) / len(layerKey)]: the
    length of the input rounded up to a multiple of the length of the layer
    key, never less than the input. *)
Theorem reverseLayer_ascii (decSrc genKey : list ascii) (iteration : Z) :
  Forall isAscii decSrc →
  let layerKey := genKey ++ Itoa iteration in
  Forall isAscii (reverseLayer decSrc genKey iteration charArray) ∧
  (alphabetText decSrc → alphabetText (reverseLayer decSrc genKey iteration charArray)) ∧
  layerKey ≠ [] ∧
  length (reverseLayer decSrc genKey iteration charArray) =
    ((length decSrc + length layerKey - 1) / length layerKey * length layerKey)%nat ∧
  (length decSrc ≤ length (reverseLayer decSrc genKey iteration charArray))%nat.
Proof.
  intros Hs layerKey.
  assert (Hlk : layerKey ≠ []).
  { unfold layerKey. intros E. apply app_eq_nil in E as [_ E]. by apply Itoa_nonempty in E. }
  destruct (reverseLayer_range 0 127 decSrc genKey iteration) as [H1 H2].
  { unfold asciiRange. lia. }
  { eapply Forall_impl; [exact Hs|]. intros c Hc. unfold isAscii in Hc.
    pose proof (byteval_range c). cbv beta. lia. }
  split_and!.
  - eapply Forall_impl; [exact H1|]. intros c Hc. unfold isAscii. cbv beta in Hc. lia.
  - intros Ha. apply (reverseLayer_range 32 126); [unfold asciiRange; lia|exact Ha].
  - done.
  - exact H2.
  - rewrite H2. pose proof (rowsOf_bounds decSrc layerKey Hlk). fold layerKey. lia.
Qed.

Lemma reverseLayer_ascii_witness :
  length (reverseLayer (str "abcdefg") (str "hello") 3 charArray) =
  ((length (str "abcdefg") + length (str "hello" ++ Itoa 3) - 1)
   / length (str "hello" ++ Itoa 3) * length (str "hello" ++ Itoa 3))%nat.
Proof.
  apply (reverseLayer_ascii (str "abcdefg") (str "hello") 3).
  unfold isAscii. apply (bool_decide_unpack _). by vm_compute.
Defined.

(** X4: the three layers of [decryptSrc2] lengthen an ASCII text once: the
    three layer keys have [len(genKey) + 1] bytes each, the first layer run
    (layer 3) rounds the length up to a multiple of that, and layers 2 and 1
    keep it. The text stays ASCII, and within the alphabet when the decoded
    payload is. *)
Theorem layersLoop_pads_once (genKey decSrc : list ascii) :
  Forall isAscii decSrc →
  let n := (length genKey + 1)%nat in
  Forall isAscii (layersLoop layers genKey decSrc) ∧
  (alphabetText decSrc → alphabetText (layersLoop layers genKey decSrc)) ∧
  length (layersLoop layers genKey decSrc) = ((length decSrc + n - 1) / n * n)%nat ∧
  length (layersLoop layers genKey decSrc) =
    length (reverseLayer decSrc genKey 3 charArray).
Proof.
  intros Hs n. unfold layers. cbn [layersLoop].
  change (Z.of_nat 3) with 3. change (Z.of_nat 2) with 2. change (Z.of_nat 1) with 1.
  assert (Hk : ∀ i, i = 1 ∨ i = 2 ∨ i = 3 → length (genKey ++ Itoa i) = n).
  { intros i [-> | [-> | ->]]; rewrite length_app; reflexivity. }
  assert (Hstep : ∀ t i, Forall isAscii t →
            Forall isAscii (reverseLayer t genKey i charArray) ∧
            (alphabetText t → alphabetText (reverseLayer t genKey i charArray)) ∧
            length (reverseLayer t genKey i charArray) =
              ((length t + length (genKey ++ Itoa i) - 1) / length (genKey ++ Itoa i)
               * length (genKey ++ Itoa i))%nat).
  { intros t i Ht. destruct (reverseLayer_range 0 127 t genKey i) as [H1 H2].
    { unfold asciiRange. lia. }
    { eapply Forall_impl; [exact Ht|]. intros c Hc. unfold isAscii in Hc.
      pose proof (byteval_range c). cbv beta. lia. }
    split_and!.
    - eapply Forall_impl; [exact H1|]. intros c Hc. unfold isAscii. cbv beta in Hc. lia.
    - intros Ha. apply (reverseLayer_range 32 126); [unfold asciiRange; lia|exact Ha].
    - exact H2. }
  destruct (Hstep decSrc 3 Hs) as (A3 & B3 & L3).
  rewrite Hk in L3 by auto.
  set (t3 := reverseLayer decSrc genKey 3 charArray) in *.
  destruct (Hstep t3 2 A3) as (A2 & B2 & L2).
  rewrite Hk in L2 by auto.
  set (t2 := reverseLayer t3 genKey 2 charArray) in *.
  destruct (Hstep t2 1 A2) as (A1 & B1 & L1).
  rewrite Hk in L1 by auto.
  assert (Hn : (n ≠ 0)%nat) by (unfold n; lia).
  assert (Hkeep : ∀ m, ((m * n + n - 1) / n * n = m * n)%nat).
  { intros m. f_equal. replace (m * n + n - 1)%nat with ((n - 1) + m * n)%nat by lia.
    rewrite Nat.div_add by done. rewrite Nat.div_small by lia. lia. }
  assert (E2 : length t2 = length t3).
  { rewrite L2, L3. apply Hkeep. }
  split_and!.
  - exact A1.
  - intros Ha. auto.
  - rewrite L1, E2, L3. apply Hkeep.
  - rewrite L1, E2, L3. apply Hkeep.
Qed.

Lemma layersLoop_pads_once_witness :
  length (layersLoop layers (str "hello") (str "abcdefg")) =
  ((length (str "abcdefg") + (length (str "hello") + 1) - 1) / (length (str "hello") + 1)
   * (length (str "hello") + 1))%nat.
Proof.
  apply (layersLoop_pads_once (str "hello") (str "abcdefg")).
  unfold isAscii. apply (bool_decide_unpack _). by vm_compute.
Defined.

(** ** The transposition of the specification *)

Lemma ceilDiv_rowsOf src ikey :
  ikey ≠ [] → Spec.ceilDiv (length src) (length ikey) = rowsOf src ikey.
Proof.
  intros Hne. assert (HC : (length ikey ≠ 0)%nat) by (by destruct ikey).
  unfold Spec.ceilDiv, rowsOf.
  pose proof (Nat.div_mod_eq (length src) (length ikey)) as Hdm.
  pose proof (Nat.mod_upper_bound (length src) (length ikey) HC) as Hm.
  pose proof (Nat.div_mod_eq (length src + length ikey - 1) (length ikey)) as Hdm'.
  pose proof (Nat.mod_upper_bound (length src + length ikey - 1) (length ikey) HC) as Hm'.
  case_decide; nia.
Qed.

Lemma columnLe_trans layerKey : Transitive (Spec.columnLe layerKey).
Proof. intros i j k. unfold Spec.columnLe. lia. Qed.

Lemma columnLe_total layerKey : Total (Spec.columnLe layerKey).
Proof. intros i j. unfold Spec.columnLe. lia. Qed.

Lemma columnLe_antisymm layerKey i j :
  Spec.columnLe layerKey i j → Spec.columnLe layerKey j i → i = j.
Proof. unfold Spec.columnLe. lia. Qed.

Lemma keyMapOf_elem ikey e : e ∈ keyMapOf ikey → ikey !! idx e = Some (char e).
Proof.
  intros He. apply list_elem_of_lookup_1 in He as [i Hi].
  unfold keyMapOf in Hi. rewrite list_lookup_imap in Hi.
  destruct (ikey !! i) as [c|] eqn:Hc; [|done]. simpl in Hi.
  injection Hi as <-. done.
Qed.

Lemma StronglySorted_fmap_elem {A B} (R1 : relation A) (R2 : relation B) (f : A → B) l :
  (∀ x y, x ∈ l → y ∈ l → R1 x y → R2 (f x) (f y)) →
  StronglySorted R1 l → StronglySorted R2 (f <$> l).
Proof.
  intros HR Hs. induction Hs as [|x l Hs IH Hx]; [constructor|].
  rewrite fmap_cons. constructor.
  - apply IH. intros y z Hy Hz. apply HR; by right.
  - apply Forall_fmap, Forall_forall. intros y Hy. apply HR; [by left|by right|].
    rewrite Forall_forall in Hx. by apply Hx.
Qed.

(** The column order of the code is the sorted order of the
    specification. *)
Lemma columnOrder_spec ikey : columnOrder ikey = Spec.columnOrder ikey.
Proof.
  destruct (insertionSort_sorted ikey) as [Hs Hp].
  apply (StronglySorted_unique_strong (Spec.columnLe ikey)).
  - intros i j _ _. apply columnLe_antisymm.
  - unfold columnOrder. eapply StronglySorted_fmap_elem; [|exact Hs].
    intros a b Ha Hb Hab. rewrite Hp in Ha, Hb.
    apply keyMapOf_elem in Ha, Hb. unfold Spec.columnLe.
    rewrite !(list_lookup_total_correct _ _ _ Ha), !(list_lookup_total_correct _ _ _ Hb).
    unfold keyLt in Hab. lia.
  - pose proof (columnLe_trans ikey). pose proof (columnLe_total ikey).
    by apply StronglySorted_merge_sort.
  - unfold Spec.columnOrder. rewrite merge_sort_Permutation. apply columnOrder_Permutation.
Qed.

Lemma gridColumn_lookup shifted R t r :
  (r < R)%nat → Spec.gridColumn shifted R t !! r = shifted !! (t * R + r)%nat.
Proof.
  intros Hr. unfold Spec.gridColumn. rewrite lookup_take_lt by done. by rewrite lookup_drop.
Qed.

Lemma untranspose_length ikey src :
  ikey ≠ [] → length (Spec.untranspose ikey src) = (rowsOf src ikey * length ikey)%nat.
Proof.
  intros Hne. unfold Spec.untranspose. rewrite decide_False by (by destruct ikey).
  cbv zeta. rewrite ceilDiv_rowsOf by done.
  rewrite (length_bind_const _ _ (length ikey)) by (intros; by rewrite length_fmap, length_seq).
  by rewrite length_seq.
Qed.

(** [columnarCipher2] is the transposition inverse of step c. *)
Lemma columnarCipher2_untranspose src ikey :
  columnarCipher2 src ikey = Spec.untranspose ikey src.
Proof.
  destruct (decide (ikey = [])) as [->|Hne]; [done|].
  assert (HC : (length ikey ≠ 0)%nat) by (by destruct ikey).
  apply list_eq. intros i.
  destruct (decide (i < rowsOf src ikey * length ikey)%nat) as [Hi|Hi].
  - pose proof (Nat.div_mod_eq i (length ikey)) as Hdm.
    pose proof (Nat.mod_upper_bound i (length ikey) HC) as Hmod.
    assert (Hdiv : (i / length ikey < rowsOf src ikey)%nat)
      by (apply Nat.Div0.div_lt_upper_bound; lia).
    set (r := (i / length ikey)%nat) in *. set (c := (i mod length ikey)%nat) in *.
    replace i with (r * length ikey + c)%nat by lia.
    unfold Spec.untranspose. rewrite decide_False by done. cbv zeta.
    rewrite ceilDiv_rowsOf by done.
    rewrite (lookup_bind_const _ _ (length ikey))
      by (done || intros; by rewrite length_fmap, length_seq).
    rewrite (proj2 (lookup_seq 0 _ r r)) by done. simpl.
    rewrite list_lookup_fmap, (proj2 (lookup_seq 0 _ c c)) by done. simpl.
    unfold Spec.gridCell. rewrite <- columnOrder_spec.
    destruct (list_find (fun c' => c' = c) (columnOrder ikey)) as [[t c']|] eqn:Hf.
    + apply list_find_Some in Hf as (Ht & -> & _).
      rewrite (columnarCipher2_lookup src ikey t c r Hne Ht Hdiv).
      by rewrite gridColumn_lookup.
    + apply list_find_None in Hf. rewrite Forall_forall in Hf.
      destruct (columnPos_spec ikey c Hmod) as [_ Hc].
      destruct (Hf c); [|done]. by eapply list_elem_of_lookup_2.
  - rewrite !(proj2 (lookup_ge_None _ _)); [done| |].
    + rewrite untranspose_length by done. lia.
    + rewrite columnarCipher2_length by done. lia.
Qed.

(** [reverseLayer] with the 95-symbol alphabet is the [reverseLayer] of
    section 4.4. *)
Lemma reverseLayer_spec text genKey iteration :
  reverseLayer text genKey iteration charArray =
  Spec.reverseLayer text (genKey ++ Itoa iteration).
Proof.
  rewrite reverseLayer_steps. unfold Spec.reverseLayer. cbv zeta.
  by rewrite columnarCipher2_untranspose.
Qed.

(** ** The key derivation of the specification *)

Lemma interleaveStep_shift (a a' b b' : list ascii) acc m :
  (∀ i, a !! S i = a' !! i) → (∀ i, b !! S i = b' !! i) →
  foldl (interleaveStep a b) acc (seq 1 m) = foldl (interleaveStep a' b') acc (seq 0 m).
Proof.
  intros Ha Hb. rewrite <- fmap_S_seq. revert acc.
  induction (seq 0 m) as [|i l IH]; intros acc; [done|].
  rewrite fmap_cons. cbn [foldl]. rewrite IH. f_equal.
  unfold interleaveStep. by rewrite Ha, Hb.
Qed.

Lemma interleave_fold a b acc :
  foldl (interleaveStep a b) acc (seq 0 (length a `max` length b)) =
  acc ++ Spec.interleave a b.
Proof.
  revert b acc. induction a as [|x a IH]; intros b acc.
  - cbn [length Nat.max Spec.interleave]. revert acc.
    induction b as [|y b IHb]; intros acc; [by rewrite app_nil_r|].
    cbn [length seq foldl]. rewrite (interleaveStep_shift [] [] (y :: b) b) by done.
    rewrite IHb. unfold interleaveStep. cbn [lookup list_lookup].
    by rewrite <- app_assoc.
  - destruct b as [|y b].
    + cbn [Spec.interleave]. rewrite Nat.max_0_r. cbn [length seq foldl].
      rewrite (interleaveStep_shift (x :: a) a [] []) by done.
      specialize (IH [] (interleaveStep (x :: a) [] acc 0)).
      cbn [length] in IH. rewrite Nat.max_0_r in IH. rewrite IH.
      unfold interleaveStep. cbn [lookup list_lookup]. rewrite <- app_assoc.
      by destruct a.
    + cbn [length Spec.interleave]. rewrite <- Nat.succ_max_distr. cbn [seq foldl].
      rewrite (interleaveStep_shift (x :: a) a (y :: b) b) by done.
      rewrite IH. unfold interleaveStep. cbn [lookup list_lookup].
      by rewrite <- !app_assoc.
Qed.

Lemma interleave_spec a b : interleave a b = Spec.interleave a b.
Proof.
  unfold interleave. pose proof (interleave_fold a b []) as H. cbn [app] in H.
  rewrite <- H. f_equal. f_equal. destruct (Nat.ltb_spec (length a) (length b)); lia.
Qed.

Lemma keygenLHash_hash tempKey :
  keygenLHash tempKey = Z.abs (Spec.hash tempKey `mod` (2 ^ 63 - 1)).
Proof.
  assert (Hh : Spec.hash tempKey = keygenHash tempKey).
  { unfold Spec.hash, keygenHash.
    assert (E : ∀ h, foldl (fun H c => byteval c + H * 31 + H * 2 ^ 7 - H) h tempKey =
                     foldl (fun oldHash c => byteval c + oldHash * 31 + Z.shiftl oldHash 7 - oldHash)
                           h tempKey).
    { induction tempKey as [|c t IH]; intros h; [done|].
      cbn [foldl]. rewrite IH. by rewrite Z.shiftl_mul_pow2 by lia. }
    rewrite E. pose proof (keygenHash_nonneg tempKey) as Hn. unfold keygenHash in Hn. lia. }
  rewrite Hh. pose proof (keygenLHash_range tempKey) as Hr.
  unfold keygenLHash in *. pose proof (keygenHash_nonneg tempKey) as Hn.
  destruct (Z.ltb_spec (keygenHash tempKey) 0); [lia|].
  change 0x7fffffffffffffff with (2 ^ 63 - 1) in *.
  destruct (Z.ltb_spec (keygenHash tempKey `mod` (2 ^ 63 - 1)) 0); lia.
Qed.

(** [keygen2] is the [derive] of section 4.3 when the two keys are not both
    empty. *)
Lemma keygen2_derive megacloudKey clientKey :
  megacloudKey ++ clientKey ≠ [] →
  keygen2 megacloudKey clientKey = Returns (Spec.derive megacloudKey clientKey).
Proof.
  intros Hne. unfold keygen2, Spec.derive. cbv zeta.
  set (tempKey := megacloudKey ++ clientKey) in *.
  rewrite <- keygenLHash_hash. unfold keygenXORVal.
  set (xored := (fun c => mkbyte (Z.lxor (byteval c) 247)) <$> tempKey).
  pose proof (keygenLHash_range tempKey) as HL.
  assert (Hn : 0 < len xored).
  { unfold len, xored. rewrite length_fmap. destruct tempKey; [done|simpl; lia]. }
  destruct (Z.eqb_spec (len xored) 0) as [?|_]; [lia|].
  rewrite !Z.rem_mod_nonneg by lia. unfold keygenShiftVal.
  set (pivot0 := keygenLHash tempKey `mod` len xored + 5).
  pose proof (Z.mod_pos_bound (keygenLHash tempKey) (len xored) Hn) as Hp0.
  pose proof (Z.mod_pos_bound pivot0 (len xored) Hn) as Hp1.
  pose proof (Z.mod_pos_bound (keygenLHash tempKey) 33 eq_refl) as H33.
  assert (Hrot : ∀ pivot, 0 ≤ pivot ≤ len xored →
            (back ← slice xored pivot (len xored); front ← slice xored 0 pivot;
             Returns (back ++ front)) = Returns (Spec.rotateLeft (Z.to_nat pivot) xored)).
  { intros pivot Hp. rewrite (slice_returns xored pivot (len xored)) by lia.
    rewrite (slice_returns xored 0 pivot) by lia. cbn [mbind outcome_bind].
    unfold Spec.rotateLeft. rewrite drop_0, Z.sub_0_r. f_equal. f_equal.
    apply take_ge. rewrite length_drop. unfold len in *. lia. }
  assert (Hpiv : (back ← slice xored (if len xored <=? pivot0 then Z.rem pivot0 (len xored) else pivot0)
                                (len xored);
                  front ← slice xored 0 (if len xored <=? pivot0 then Z.rem pivot0 (len xored) else pivot0);
                  Returns (back ++ front)) =
                 Returns (Spec.rotateLeft
                            (Z.to_nat (if len xored <? pivot0 then pivot0 `mod` len xored else pivot0))
                            xored)).
  { destruct (Z.leb_spec (len xored) pivot0) as [Hle|Hlt].
    - rewrite Z.rem_mod_nonneg by lia. rewrite Hrot by lia.
      destruct (Z.ltb_spec (len xored) pivot0) as [?|Heq]; [done|].
      assert (E : pivot0 = len xored) by lia. rewrite E, Z_mod_same_full.
      unfold Spec.rotateLeft. f_equal. unfold len. rewrite Nat2Z.id.
      by rewrite drop_all, take_0, firstn_all, app_nil_r.
    - rewrite Hrot by lia. destruct (Z.ltb_spec (len xored) pivot0); [lia|done]. }
  destruct (slice xored _ (len xored)) as [back|p] eqn:Hb; [|done].
  destruct (slice xored 0 _) as [front|p] eqn:Hf; [|done].
  cbn [mbind outcome_bind] in Hpiv |- *. injection Hpiv as ->.
  f_equal. unfold reverseString. rewrite reverseLoop_reverse, interleave_spec.
  set (inter := Spec.interleave _ _).
  replace (Z.to_nat (if len inter <? 96 + keygenLHash tempKey `mod` 33 then len inter
                     else 96 + keygenLHash tempKey `mod` 33))
    with (Z.to_nat (96 + keygenLHash tempKey `mod` 33) `min` length inter)%nat.
  2:{ unfold len. destruct (Z.ltb_spec (Z.of_nat (length inter)) (96 + keygenLHash tempKey `mod` 33)); lia. }
  rewrite <- take_take. rewrite (take_ge inter (length inter)) by lia.
  apply list_fmap_ext. intros _ c _. pose proof (byteval_range c).
  by rewrite Z.rem_mod_nonneg by lia.
Qed.

(** ** The layers of [decryptSrc2] *)

Lemma shift_length state text : length (Forward.shift state text) = length text.
Proof.
  revert state. induction text as [|c text IH]; intros state; [done|].
  cbn [Forward.shift]. destruct (Spec.inAlphabet _).
  - destruct (Spec.next state 95) as [state' r]. cbn [length]. by rewrite IH.
  - cbn [length]. by rewrite IH.
Qed.

Lemma forwardLayerOpposite_alphabet text key layer :
  alphabetText text → (length (key ++ Itoa layer) | length text)%nat →
  alphabetText (Forward.forwardLayerOpposite text key layer) ∧
  length (Forward.forwardLayerOpposite text key layer) = length text.
Proof.
  intros Ht [R HR]. unfold Forward.forwardLayerOpposite. cbv zeta.
  assert (Hlk : key ++ Itoa layer ≠ []).
  { intros E. apply app_eq_nil in E as [_ E]. by apply Itoa_nonempty in E. }
  generalize dependent (key ++ Itoa layer). intros lk HR Hlk. split.
  - by apply shift_alphabet, transpose_alphabet, substitute_alphabet.
  - rewrite shift_length, transpose_length by done.
    rewrite (rowsOf_exact _ lk R) by (done || by rewrite substitute_length).
    done.
Qed.

(** The three layers in descending order undo three forward layers applied
    in ascending order, each forward layer with its sub-steps in the order
    substitution, transposition, shift. *)
Lemma layersLoop_forwardLayers genKey text :
  alphabetText text → (S (length genKey) | length text)%nat →
  layersLoop layers genKey (Forward.forwardLayers Forward.forwardLayerOpposite text genKey) = text.
Proof.
  intros Ht Hdiv. unfold Forward.forwardLayers, layers.
  assert (Hlen : ∀ layer, layer = 1 ∨ layer = 2 ∨ layer = 3 →
            length (genKey ++ Itoa layer) = S (length genKey)).
  { intros layer [-> | [-> | ->]]; rewrite length_app; simpl; lia. }
  destruct (forwardLayerOpposite_alphabet text genKey 1 Ht) as [H1 L1].
  { rewrite Hlen by auto. done. }
  destruct (forwardLayerOpposite_alphabet _ genKey 2 H1) as [H2 L2].
  { rewrite Hlen, L1 by auto. done. }
  cbn [layersLoop]. change (Z.of_nat 3) with 3. change (Z.of_nat 2) with 2.
  change (Z.of_nat 1) with 1.
  rewrite reverseLayer_forward_opposite; [|done|by rewrite Hlen, L2, L1 by auto].
  rewrite reverseLayer_forward_opposite; [|done|by rewrite Hlen, L1 by auto].
  rewrite reverseLayer_forward_opposite; [done|done|by rewrite Hlen by auto].
Qed.

(** C4, counterexample: the text [0002hi] with two bytes of padding, which
    frames the two bytes [hi], is put through three forward layers (1, 2, 3)
    under the key derived from the server key [s] and the client key [k].
    With the sub-steps of every forward layer in the order shift,
    transposition, substitution, [decryptSrc2] does not give [hi] back: the
    layers leave a text whose length field does not parse, and the result
    is the empty string. With the sub-steps in the order substitution,
    transposition, shift it returns [hi]. *)
Lemma decryptSrc2_forward_documented_order :
  Spec.derive (str "s") (str "k") = str "E,]" ∧
  btoa (Forward.forwardLayers Forward.forwardLayer (str "0002hi  ") (str "E,]")) =
    str "ZDwhfnJtOyk=" ∧
  decryptSrc2 (str "ZDwhfnJtOyk=") (str "k") (str "s") = Returns (str "") ∧
  btoa (Forward.forwardLayers Forward.forwardLayerOpposite (str "0002hi  ") (str "E,]")) =
    str "SEtgaWViRWc=" ∧
  decryptSrc2 (str "SEtgaWViRWc=") (str "k") (str "s") = Returns (str "hi").
Proof. split_and!; by vm_compute. Qed.

(** C4, amended: for a server key and a client key that are not both
    empty, [decryptSrc2] decodes the payload, runs the [reverseLayer] of
    section 4.4 three times, for the layers 3, 2 and 1 in this order, each
    with the layer key [derive(serverKey, clientKey)] of section 4.3
    followed by the decimal layer index, and applies the framing; within a
    layer it runs the shift inverse first, then the columnar-transposition
    inverse, then the substitution inverse. These undo a forward transform
    whose layers 1, 2, 3 each applied the substitution first, then the
    transposition, then the shift: the payload that encodes such a
    transform of a text of the alphabet, its length a multiple of the
    length of the layer key, decrypts to the framed data of that text. The
    sub-steps are undone in the order opposite to the forward order, not in
    the same order. *)
Theorem decryptSrc2_layers (src clientKey megacloudKey : list ascii) :
  megacloudKey ++ clientKey ≠ [] →
  decryptSrc2 src clientKey megacloudKey =
    unframe
      (Spec.reverseLayer
         (Spec.reverseLayer
            (Spec.reverseLayer (atob src) (Spec.derive megacloudKey clientKey ++ str "3"))
            (Spec.derive megacloudKey clientKey ++ str "2"))
         (Spec.derive megacloudKey clientKey ++ str "1")) ∧
  (∀ text,
     alphabetText text →
     (S (length (Spec.derive megacloudKey clientKey)) | length text)%nat →
     decryptSrc2 (btoa (Forward.forwardLayers Forward.forwardLayerOpposite text
                          (Spec.derive megacloudKey clientKey)))
                 clientKey megacloudKey = unframe text).
Proof.
  intros Hne. unfold decryptSrc2. rewrite (keygen2_derive _ _ Hne).
  cbn [mbind outcome_bind]. split.
  - unfold layers. cbn [layersLoop]. rewrite !reverseLayer_spec. reflexivity.
  - intros text Ht Hdiv. rewrite atob_btoa_bytes. by rewrite layersLoop_forwardLayers.
Qed.

Lemma decryptSrc2_layers_witness :
  decryptSrc2 (str "SEtgaWViRWc=") (str "k") (str "s") =
    unframe
      (Spec.reverseLayer
         (Spec.reverseLayer
            (Spec.reverseLayer (atob (str "SEtgaWViRWc="))
                               (Spec.derive (str "s") (str "k") ++ str "3"))
            (Spec.derive (str "s") (str "k") ++ str "2"))
         (Spec.derive (str "s") (str "k") ++ str "1")) ∧
  decryptSrc2 (btoa (Forward.forwardLayers Forward.forwardLayerOpposite (str "0002hi  ")
                       (Spec.derive (str "s") (str "k"))))
              (str "k") (str "s") = unframe (str "0002hi  ").
Proof.
  assert (Hne : str "s" ++ str "k" ≠ []) by done.
  destruct (decryptSrc2_layers (str "SEtgaWViRWc=") (str "k") (str "s") Hne) as [H1 H2].
  split; [exact H1|]. apply H2.
  - unfold alphabetText. apply (bool_decide_unpack _). by vm_compute.
  - exists 2%nat. vm_compute. reflexivity.
Defined.

(** ** The index expressions of [reverseLayer] are in range *)









(** ** What [extractClientKey] returns *)

Lemma keyRe_match s v :
  matchHere keyRe s = Some v → ∃ key, alnumToken key ∧ v = dquote :: key ++ [dquote].
Proof.
  unfold keyRe, quoted. intros Hm.
  apply matchHere_one in Hm as (c & t1 & m2 & -> & -> & Hc & Hm).
  apply bool_decide_eq_true in Hc as ->.
  apply matchHere_plus in Hm as (run & s2 & m3 & -> & -> & Hne & Hrun & Hm).
  apply matchHere_one in Hm as (c & t2 & m4 & -> & -> & Hc & Hm).
  apply bool_decide_eq_true in Hc as ->. simpl in Hm. injection Hm as <-.
  by exists run.
Qed.

Lemma FindString_keyRe m c v :
  FindString keyRe m = c :: v → ∃ key, alnumToken key ∧ Trim (c :: v) dquote = key.
Proof.
  intros Hf. destruct (FindString_suffix keyRe m) as (pre & s' & -> & Hs); [by rewrite Hf|].
  rewrite Hf in Hs. apply keyRe_match in Hs as (key & Hk & ->).
  exists key. split; [done|]. destruct Hk. by apply Trim_quoted.
Qed.

Lemma commentKeyRe_match s v :
  matchHere commentKeyRe s = Some v → ∃ key, alnumToken key ∧ v = ":"%char :: key ++ [" "%char].
Proof.
  unfold commentKeyRe. change (lit ":" ++ [Plus Alnum] ++ lit " ")
    with [One (Lit ":"%char); Plus Alnum; One (Lit " "%char)]. intros Hm.
  apply matchHere_one in Hm as (c & t1 & m2 & -> & -> & Hc & Hm).
  apply bool_decide_eq_true in Hc as ->.
  apply matchHere_plus in Hm as (run & s2 & m3 & -> & -> & Hne & Hrun & Hm).
  apply matchHere_one in Hm as (c & t2 & m4 & -> & -> & Hc & Hm).
  apply bool_decide_eq_true in Hc as ->. simpl in Hm. injection Hm as <-.
  by exists run.
Qed.

Lemma alnum_not_space c : isAlnum c = true → isUnicodeSpace c = false.
Proof. ascii_cases c; vm_compute; congruence. Qed.

Lemma TrimSpace_token key : alnumToken key → TrimSpace (key ++ [" "%char]) = key.
Proof.
  intros [Hne Hk]. unfold TrimSpace.
  assert (Hd : ∀ l, l ≠ [] → Forall (fun c => isAlnum c = true) l → ∀ t,
             dropWhile isUnicodeSpace (l ++ t) = l ++ t).
  { intros [|c l] ? Hl t; [done|]. apply Forall_cons in Hl as [Hc _].
    apply dropWhile_head. by apply alnum_not_space. }
  cbv zeta. rewrite Hd by done. rewrite reverse_app.
  change (reverse [" "%char]) with [" "%char]. cbn [app dropWhile].
  change (isUnicodeSpace " ") with true. cbv iota.
  assert (Hr : dropWhile isUnicodeSpace (reverse key) = reverse key).
  { rewrite <- (app_nil_r (reverse key)). apply Hd; [|by apply Forall_reverse].
    intros Hr. apply (f_equal reverse) in Hr. by rewrite reverse_involutive in Hr. }
  rewrite Hr. apply reverse_involutive.
Qed.

Lemma alnumToken_app a b : alnumToken a → alnumToken b → alnumToken (a ++ b).
Proof.
  intros [Ha1 Ha2] [Hb1 Hb2]. split; [by destruct a|]. by apply Forall_app.
Qed.

Lemma lkDbLoop_tokens res m parts r :
  Forall alnumToken parts → lkDbLoop res m parts = inr r →
  Forall alnumToken r ∧ length r = (length parts + length res)%nat.
Proof.
  revert parts. induction res as [|re res IH]; intros parts Hp; cbn [lkDbLoop].
  - intros [= <-]. split; [done|]. simpl. lia.
  - destruct (FindString re m) as [|c pm] eqn:Hpm; [done|].
    destruct (FindString keyRe (c :: pm)) as [|d v] eqn:Hv; [done|].
    destruct (FindString_keyRe _ _ _ Hv) as (key & Hk & ->).
    intros Hr. apply IH in Hr as [Hr Hl].
    + split; [done|]. rewrite length_app in Hl. simpl in *. lia.
    + apply Forall_app. split; [done|]. by apply Forall_singleton.
Qed.

Lemma concat_tokens r : r ≠ [] → Forall alnumToken r → alnumToken (concat r).
Proof.
  intros Hne Hr. induction Hr as [|a r Ha Hr IH]; [done|].
  cbn [concat]. destruct r as [|b r].
  - simpl. by rewrite app_nil_r.
  - apply alnumToken_app; [done|]. by apply IH.
Qed.

Lemma keyOfMatch_token i m key : keyOfMatch i m = inr key → alnumToken key.
Proof.
  unfold keyOfMatch.
  assert (Hdef : match FindString keyRe m with
                 | [] => inl ValueMissing
                 | c :: v => inr (Trim (c :: v) dquote)
                 end = inr key → alnumToken key).
  { destruct (FindString keyRe m) as [|c v] eqn:Hv; [done|].
    destruct (FindString_keyRe _ _ _ Hv) as (k & Hk & ->). by intros [= <-]. }
  destruct i as [|[|[|i]]]; try exact Hdef.
  - destruct (FindString commentKeyRe m) as [|c v] eqn:Hv; [done|]. intros [= <-].
    destruct (FindString_suffix commentKeyRe m) as (pre & s' & -> & Hs); [by rewrite Hv|].
    rewrite Hv in Hs. apply commentKeyRe_match in Hs as (k & Hk & ->).
    unfold TrimPrefix.
    rewrite (proj2 (hasPrefix_spec (":"%char :: k ++ [" "%char]) [":"%char]))
      by (by exists (k ++ [" "%char])).
    cbn [length skipn]. rewrite drop_0. by rewrite TrimSpace_token.
  - destruct (lkDbLoop lkDbParts m []) as [e|r] eqn:Hl; [done|]. intros [= <-].
    apply lkDbLoop_tokens in Hl as [Hr Hlen]; [|done].
    apply concat_tokens; [|done]. by destruct r.
Qed.

Lemma extractClientKey_token html key : extractClientKey html = inr key → alnumToken key.
Proof.
  unfold extractClientKey. destruct (firstMatch 0 patterns html) as [[i m]|]; [|done].
  apply keyOfMatch_token.
Qed.

(** X18: a key [extractClientKey] returns is never empty and holds only
    letters and digits of ASCII, whichever pattern it was extracted from. *)
Theorem extractClientKey_returns_token (html key : list ascii) :
  extractClientKey html = inr key →
  key ≠ [] ∧ Forall (fun c => isAlnum c = true) key.
Proof. apply extractClientKey_token. Qed.

Lemma extractClientKey_returns_token_witness :
  extractClientKey c7_both = inr (str "abc123XYZ") ∧
  str "abc123XYZ" ≠ [] ∧ Forall (fun c => isAlnum c = true) (str "abc123XYZ").
Proof.
  assert (H : extractClientKey c7_both = inr (str "abc123XYZ")) by (by vm_compute).
  split; [exact H|]. exact (extractClientKey_returns_token c7_both (str "abc123XYZ") H).
Defined.

Lemma firstMatch_Some i pats html k m :
  firstMatch i pats html = Some (k, m) →
  ∃ j pat, k = (i + j)%nat ∧ pats !! j = Some pat ∧ m = FindString pat html ∧ m ≠ [] ∧
    ∀ j' pat', (j' < j)%nat → pats !! j' = Some pat' → FindString pat' html = [].
Proof.
  revert i. induction pats as [|p rest IH]; intros i; [done|]. cbn [firstMatch].
  destruct (FindString p html) as [|c v] eqn:Hp.
  - intros Hr. apply IH in Hr as (j & pat & -> & Hj & -> & Hne & Hb).
    exists (S j), pat.
    split; [lia|]. split; [done|]. split; [done|]. split; [done|].
    intros [|j'] pat' Hlt Hl; simpl in Hl; [by injection Hl as <-|]. apply (Hb j'); [lia|done].
  - intros [= <- <-]. exists 0%nat, p.
    split; [lia|]. split; [done|]. split; [done|]. split; [done|].
    intros j' pat' Hlt. lia.
Qed.

Lemma partRe_match n s pm :
  matchHere (partRe n) s = Some pm → ∃ w v, spaceRun w ∧ alnumToken v ∧ pm = field n w v.
Proof.
  unfold partRe. intros Hm.
  apply matchHere_one in Hm as (c & t1 & m1 & -> & -> & Hc & Hm).
  apply bool_decide_eq_true in Hc as ->.
  apply matchHere_one in Hm as (c & t2 & m2 & -> & -> & Hc & Hm).
  apply bool_decide_eq_true in Hc as ->.
  apply matchHere_plus in Hm as (w & s2 & m3 & -> & -> & Hwne & Hw & Hm).
  apply matchHere_one in Hm as (c & t3 & m4 & -> & -> & Hc & Hm).
  apply bool_decide_eq_true in Hc as ->.
  apply matchHere_plus in Hm as (v & s3 & m5 & -> & -> & Hvne & Hv & Hm).
  apply matchHere_one in Hm as (c & t4 & m6 & -> & -> & Hc & Hm).
  apply bool_decide_eq_true in Hc as ->. simpl in Hm. injection Hm as <-.
  exists w, v. split_and!; done.
Qed.

Lemma lkDbLoop_error names m parts e :
  Forall (fun n => n ≠ dquote) names →
  lkDbLoop (partRe <$> names) m parts = inl e → e = LkDbPartMissing.
Proof.
  intros Hn. revert parts. induction Hn as [|n names Hnq Hn IH]; intros parts; [done|].
  cbn [fmap list_fmap lkDbLoop].
  destruct (FindString (partRe n) m) as [|c pm] eqn:Hpm; [by intros [= <-]|].
  destruct (FindString_suffix (partRe n) m) as (pre & s' & -> & Hs); [by rewrite Hpm|].
  rewrite Hpm in Hs. apply partRe_match in Hs as (w & v & Hw & Hv & Hf).
  rewrite Hf, (field_key n w v Hnq Hw Hv). apply IH.
Qed.

Lemma nonce_match s m :
  matchHere noncePattern s = Some m →
  ∃ key, alnumToken key ∧ m = str "<script nonce=" ++ dquote :: key ++ dquote :: str ">".
Proof.
  change noncePattern with
    (lits (str "<script nonce=") ++ [One (Lit dquote); Plus Alnum; One (Lit dquote); One (Lit ">"%char)]).
  intros Hm.
  apply matchHere_lits in Hm as (t & m1 & -> & -> & Hm).
  apply matchHere_one in Hm as (c & t1 & m2 & -> & -> & Hc & Hm).
  apply bool_decide_eq_true in Hc as ->.
  apply matchHere_plus in Hm as (run & s2 & m3 & -> & -> & Hne & Hrun & Hm).
  apply matchHere_one in Hm as (c & t2 & m4 & -> & -> & Hc & Hm).
  apply bool_decide_eq_true in Hc as ->.
  apply matchHere_one in Hm as (c & t3 & m5 & -> & -> & Hc & Hm).
  apply bool_decide_eq_true in Hc as ->. simpl in Hm. injection Hm as <-.
  by exists run.
Qed.

Lemma div_match s m :
  matchHere divPattern s = Some m →
  ∃ w key rest, spaceRun w ∧ alnumToken key ∧
    m = str "<div" ++ w ++ str "data-dpi=" ++ dquote :: key ++ dquote :: rest.
Proof.
  change divPattern with
    (lits (str "<div") ++ [Plus Space] ++ lits (str "data-dpi=") ++
     [One (Lit dquote); Plus Alnum; One (Lit dquote); Plus Space; Star (NoneOf (str ">"))] ++
     lits (str "></div>")).
  intros Hm.
  apply matchHere_lits in Hm as (t & m1 & -> & -> & Hm).
  apply matchHere_plus in Hm as (w & s2 & m3 & -> & -> & Hwne & Hw & Hm).
  apply matchHere_lits in Hm as (t' & m1' & -> & -> & Hm).
  apply matchHere_one in Hm as (c & t1 & m2 & -> & -> & Hc & Hm).
  apply bool_decide_eq_true in Hc as ->.
  apply matchHere_plus in Hm as (run & s3 & m4 & -> & -> & Hne & Hrun & Hm).
  apply matchHere_one in Hm as (c & t2 & m5 & -> & -> & Hc & Hm).
  apply bool_decide_eq_true in Hc as ->.
  exists w, run, m5. split_and!; try done.
Qed.

Lemma FindString_keyRe_nonce key :
  alnumToken key →
  FindString keyRe (str "<script nonce=" ++ dquote :: key ++ dquote :: str ">") =
  dquote :: key ++ [dquote].
Proof.
  intros Hk. unfold str. cbn [list_ascii_of_string app].
  skip_keyRe. apply FindString_hit. by apply keyRe_hit.
Qed.

Lemma FindString_keyRe_div w key rest :
  spaceRun w → alnumToken key →
  FindString keyRe (str "<div" ++ w ++ str "data-dpi=" ++ dquote :: key ++ dquote :: rest) =
  dquote :: key ++ [dquote].
Proof.
  intros [_ Hw] Hk. unfold str. cbn [list_ascii_of_string app].
  skip_keyRe. rewrite keyRe_skip_spaces by done. cbn [app]. skip_keyRe.
  apply FindString_hit. by apply keyRe_hit.
Qed.

Lemma keyOfMatch_errors i pat html e :
  patterns !! i = Some pat → FindString pat html ≠ [] →
  keyOfMatch i (FindString pat html) = inl e →
  (i = 1%nat ∧ e = CommentKeyMissing) ∨ (i = 2%nat ∧ e = LkDbPartMissing) ∨
  (i = 5%nat ∧ e = ValueMissing).
Proof.
  intros Hi Hne. destruct (FindString_suffix _ _ Hne) as (pre & s' & _ & Hs).
  revert Hs. generalize (FindString pat html). intros m Hs.
  destruct i as [|[|[|[|[|[|i]]]]]]; simpl in Hi; try done; injection Hi as <-.
  - apply meta_match in Hs as (key & Hk & ->). by rewrite keyOfMatch_metaTag.
  - unfold keyOfMatch. destruct (FindString commentKeyRe m); [|done]. intros [= <-]. by left.
  - unfold keyOfMatch. change lkDbParts with (partRe <$> ["x"%char; "y"%char; "z"%char]).
    destruct (lkDbLoop _ m []) as [e'|r] eqn:Hl; [|done]. intros [= <-].
    apply lkDbLoop_error in Hl as ->; [by right; left|].
    repeat first [apply Forall_nil_2 | apply Forall_cons_2]; neq_char.
  - apply div_match in Hs as (w & key & rest & Hw & Hk & ->).
    unfold keyOfMatch. rewrite FindString_keyRe_div by done. done.
  - apply nonce_match in Hs as (key & Hk & ->).
    unfold keyOfMatch. rewrite FindString_keyRe_nonce by done. done.
  - unfold keyOfMatch. destruct (FindString keyRe m); [|done]. intros [= <-]. by right; right.
Qed.

(** X19: the errors of [extractClientKey] by pattern. The error of no
    pattern matched means that none of the six patterns matches; the error
    of the comment pattern arises only when the first matching pattern is
    the comment (index 1), the error of a missing part only when it is the
    three-field object (index 2), and the error of a missing value only
    when it is the assignment (index 5): the meta tag, the div and the
    nonce always yield a key. The error of a part without a value (line 75)
    is never returned. *)
Theorem extractClientKey_errors (html : list ascii) (e : keyError) :
  extractClientKey html = inl e →
  match e with
  | NoPatternMatched => ∀ pat, pat ∈ patterns → FindString pat html = []
  | CommentKeyMissing => ∃ m, firstMatch 0 patterns html = Some (1%nat, m)
  | LkDbPartMissing => ∃ m, firstMatch 0 patterns html = Some (2%nat, m)
  | LkDbValueMissing => False
  | ValueMissing => ∃ m, firstMatch 0 patterns html = Some (5%nat, m)
  end.
Proof.
  intros He. pose proof (extractClientKey_NoPatternMatched html) as Hnone.
  unfold extractClientKey in He, Hnone.
  destruct (firstMatch 0 patterns html) as [[i m]|] eqn:Hf.
  2:{ injection He as <-. by apply Hnone. }
  destruct (firstMatch_Some _ _ _ _ _ Hf) as (j & pat & -> & Hj & -> & Hne & _).
  destruct (keyOfMatch_errors _ _ _ _ Hj Hne He) as [[-> ->]|[[-> ->]|[-> ->]]]; by eexists.
Qed.

Lemma extractClientKey_errors_witness :
  ∃ m, firstMatch 0 patterns c7_single_quoted = Some (5%nat, m).
Proof.
  apply (extractClientKey_errors c7_single_quoted ValueMissing). by vm_compute.
Defined.

Lemma comment_match s m :
  matchHere commentPattern s = Some m →
  ∃ w1 key w2, spaceRun w1 ∧ alnumToken key ∧ spaceRun w2 ∧ m = commentText w1 key w2.
Proof.
  change commentPattern with
    (lits (str "<!--") ++ [Plus Space] ++ lits (str "_is_th:") ++ [Plus Alnum; Plus Space] ++
     lits (str "-->")).
  intros Hm.
  apply matchHere_lits in Hm as (t & m1 & -> & -> & Hm).
  apply matchHere_plus in Hm as (w1 & s2 & m3 & -> & -> & Hw1ne & Hw1 & Hm).
  apply matchHere_lits in Hm as (t' & m1' & -> & -> & Hm).
  apply matchHere_plus in Hm as (key & s3 & m4 & -> & -> & Hkne & Hk & Hm).
  apply matchHere_plus in Hm as (w2 & s4 & m5 & -> & -> & Hw2ne & Hw2 & Hm).
  rewrite <- (app_nil_r (lits (str "-->"))) in Hm.
  apply matchHere_lits in Hm as (t'' & m6 & -> & -> & Hm). simpl in Hm. injection Hm as <-.
  exists w1, key, w2. split_and!; done.
Qed.

Lemma commentKeyRe_skip pre s :
  Forall (fun c => c ≠ ":"%char) pre →
  FindString commentKeyRe (pre ++ s) = FindString commentKeyRe s.
Proof.
  induction 1 as [|c pre Hc Hpre IH]; [done|]. cbn [app].
  rewrite FindString_miss; [done|]. apply matchHere_one_miss. cbn [clsMatch].
  by rewrite bool_decide_eq_false_2.
Qed.

Lemma commentKeyRe_none s :
  Forall (fun c => c ≠ ":"%char) s → FindString commentKeyRe s = [].
Proof.
  intros Hs. rewrite <- (app_nil_r s), commentKeyRe_skip by done. done.
Qed.

Lemma run_unique {A} (P : A → Prop) l1 a t1 l2 b t2 :
  Forall P l1 → Forall P l2 → ¬ P a → ¬ P b →
  l1 ++ a :: t1 = l2 ++ b :: t2 → l1 = l2 ∧ a = b ∧ t1 = t2.
Proof.
  intros H1 H2 Ha Hb. revert l2 H2. induction H1 as [|x l1 Hx H1 IH]; intros l2 H2 E.
  - destruct H2 as [|y l2 Hy H2]; simpl in E; [by injection E as -> ->|].
    injection E as -> _. done.
  - destruct H2 as [|y l2 Hy H2]; simpl in E.
    + injection E as -> _. done.
    + injection E as -> E. destruct (IH l2 H2 E) as (-> & -> & ->). done.
Qed.

Lemma commentKeyRe_at_colon key c2 rest :
  alnumToken key → isAlnum c2 = false →
  matchHere commentKeyRe (":"%char :: key ++ c2 :: rest) =
  if bool_decide (c2 = " "%char) then Some (":"%char :: key ++ [" "%char]) else None.
Proof.
  intros [Hne Hk] Hc2. unfold commentKeyRe.
  change (lit ":" ++ [Plus Alnum] ++ lit " ")
    with [One (Lit ":"%char); Plus Alnum; One (Lit " "%char)].
  rewrite matchHere_one_hit by done.
  case_bool_decide as Hsp.
  - subst c2.
    by rewrite (matchHere_plus_run Alnum [One (Lit " "%char)] key (" "%char :: rest) [" "%char]).
  - destruct (matchHere [Plus Alnum; One (Lit " "%char)] (key ++ c2 :: rest)) as [m|] eqn:Hm;
      [|done].
    exfalso. apply matchHere_plus in Hm as (run & s2 & m2 & E & -> & _ & Hrun & Hm).
    apply matchHere_one in Hm as (c & t & m' & -> & -> & Hc & _).
    apply bool_decide_eq_true in Hc as ->.
    destruct (run_unique (fun c => clsMatch Alnum c = true) key c2 rest run " "%char t)
      as (_ & E2 & _); try done.
    cbn [clsMatch]. by rewrite Hc2.
Qed.

Lemma space_not_colon c : isSpace c = true → c ≠ ":"%char.
Proof. intros H ->. by vm_compute in H. Qed.

Lemma FindString_commentKeyRe w1 key w2 :
  spaceRun w1 → alnumToken key → spaceRun w2 →
  FindString commentKeyRe (commentText w1 key w2) =
  if bool_decide (head w2 = Some " "%char) then ":"%char :: key ++ [" "%char] else [].
Proof.
  intros [_ Hw1] Hk [Hw2ne Hw2]. unfold commentText.
  transitivity (FindString commentKeyRe
                  ((str "<!--" ++ w1 ++ str "_is_th") ++ ":"%char :: key ++ w2 ++ str "-->")).
  { f_equal. rewrite <- !app_assoc. reflexivity. }
  rewrite commentKeyRe_skip.
  2:{ apply Forall_app. split; [|apply Forall_app; split].
      - repeat first [apply Forall_nil_2 | apply Forall_cons_2]; neq_char.
      - eapply Forall_impl; [exact Hw1|]. intros c. apply space_not_colon.
      - repeat first [apply Forall_nil_2 | apply Forall_cons_2]; neq_char. }
  destruct w2 as [|c2 w2']; [done|]. apply Forall_cons in Hw2 as [Hc2 Hw2'].
  cbn [app head]. cbn [FindString].
  rewrite (commentKeyRe_at_colon key c2 (w2' ++ str "-->") Hk (space_not_alnum c2 Hc2)).
  destruct (decide (c2 = " "%char)) as [->|Hn].
  - rewrite !bool_decide_eq_true_2 by done. done.
  - rewrite bool_decide_eq_false_2 by done.
    rewrite bool_decide_eq_false_2 by (intros [= E]; done).
    apply commentKeyRe_none. destruct Hk as [_ Hk].
    apply Forall_app. split; [|apply Forall_cons_2; [|apply Forall_app; split]].
    + eapply Forall_impl; [exact Hk|]. intros c. apply alnum_not_colon.
    + by apply space_not_colon.
    + eapply Forall_impl; [exact Hw2'|]. intros c. apply space_not_colon.
    + repeat first [apply Forall_nil_2 | apply Forall_cons_2]; neq_char.
Qed.

Lemma keyOfMatch_commentText w1 key w2 :
  spaceRun w1 → alnumToken key → spaceRun w2 →
  keyOfMatch 1 (commentText w1 key w2) =
  if bool_decide (head w2 = Some " "%char) then inr key else inl CommentKeyMissing.
Proof.
  intros Hw1 Hk Hw2. unfold keyOfMatch. rewrite FindString_commentKeyRe by done.
  case_bool_decide; [|done]. cbv beta iota. f_equal. unfold TrimPrefix.
  rewrite (proj2 (hasPrefix_spec (":"%char :: key ++ [" "%char]) (str ":")))
    by (by exists (key ++ [" "%char])).
  change (length (str ":")) with 1%nat. cbn [skipn]. rewrite drop_0. by apply TrimSpace_token.
Qed.

(** X20: when the first matching pattern is the comment, the match is
    the opening, white space, [_is_th:], a key of letters and digits, white
    space and the closing, and [extractClientKey] returns that key exactly
    when the first white-space character after the key is a space; after a
    tab, a line feed, a form feed or a carriage return it fails with the
    error of the comment pattern, although the pattern matched. *)
Theorem extractClientKey_comment (html m : list ascii) :
  firstMatch 0 patterns html = Some (1%nat, m) →
  ∃ w1 key w2,
    spaceRun w1 ∧ alnumToken key ∧ spaceRun w2 ∧
    m = str "<!--" ++ w1 ++ str "_is_th:" ++ key ++ w2 ++ str "-->" ∧
    extractClientKey html =
    if bool_decide (head w2 = Some " "%char) then inr key else inl CommentKeyMissing.
Proof.
  intros Hf. unfold extractClientKey. rewrite Hf.
  destruct (firstMatch_Some _ _ _ _ _ Hf) as (j & pat & Hj & Hp & -> & Hne & _).
  assert (j = 1%nat) as -> by lia. simpl in Hp. injection Hp as <-.
  destruct (FindString_suffix _ _ Hne) as (pre & s' & _ & Hs).
  apply comment_match in Hs as (w1 & key & w2 & Hw1 & Hk & Hw2 & Hm).
  exists w1, key, w2. split_and!; try done. rewrite Hm. by apply keyOfMatch_commentText.
Qed.

Lemma extractClientKey_comment_witness :
  ∃ w1 key w2,
    spaceRun w1 ∧ alnumToken key ∧ spaceRun w2 ∧
    str "<!-- _is_th:abc12" ++ ["009"%char] ++ str "-->" =
      str "<!--" ++ w1 ++ str "_is_th:" ++ key ++ w2 ++ str "-->" ∧
    extractClientKey (str "<p><!-- _is_th:abc12" ++ ["009"%char] ++ str "--></p>") =
    if bool_decide (head w2 = Some " "%char) then inr key else inl CommentKeyMissing.
Proof.
  apply (extractClientKey_comment
           (str "<p><!-- _is_th:abc12" ++ ["009"%char] ++ str "--></p>")
           (str "<!-- _is_th:abc12" ++ ["009"%char] ++ str "-->")).
  vm_compute. reflexivity.
Defined.

Lemma keyOfMatch_nonce key :
  alnumToken key →
  keyOfMatch 4 (str "<script nonce=" ++ dquote :: key ++ dquote :: str ">") = inr key.
Proof.
  intros Hk. unfold keyOfMatch. rewrite FindString_keyRe_nonce by done.
  destruct Hk. by rewrite Trim_quoted.
Qed.

Lemma keyOfMatch_div w key rest :
  spaceRun w → alnumToken key →
  keyOfMatch 3 (str "<div" ++ w ++ str "data-dpi=" ++ dquote :: key ++ dquote :: rest) =
  inr key.
Proof.
  intros Hw Hk. unfold keyOfMatch. rewrite FindString_keyRe_div by done.
  destruct Hk. by rewrite Trim_quoted.
Qed.

(** X21: when the first matching pattern is the div (index 3) or the nonce
    (index 4), [extractClientKey] succeeds and returns the value of the
    attribute: the match is [<script nonce=QkeyQ>], or [<div], white space,
    [data-dpi=QkeyQ] and the rest of the tag, and the key returned is that
    [key] (Q stands for the double quote). *)
Theorem extractClientKey_attribute (html m : list ascii) (i : nat) :
  firstMatch 0 patterns html = Some (i, m) → i = 3%nat ∨ i = 4%nat →
  ∃ key, alnumToken key ∧ extractClientKey html = inr key ∧
    match i with
    | 4%nat => m = str "<script nonce=" ++ dquote :: key ++ dquote :: str ">"
    | _ => ∃ w rest, spaceRun w ∧
             m = str "<div" ++ w ++ str "data-dpi=" ++ dquote :: key ++ dquote :: rest
    end.
Proof.
  intros Hf Hi. unfold extractClientKey. rewrite Hf.
  destruct (firstMatch_Some _ _ _ _ _ Hf) as (j & pat & Hj & Hp & -> & Hne & _).
  destruct (FindString_suffix _ _ Hne) as (pre & s' & _ & Hs).
  revert Hs. generalize (FindString pat html). intros m Hs.
  destruct Hi as [-> | ->].
  - assert (j = 3%nat) as -> by lia. simpl in Hp. injection Hp as <-.
    apply div_match in Hs as (w & key & rest & Hw & Hk & ->).
    exists key. split_and!; [done|by apply keyOfMatch_div|]. by exists w, rest.
  - assert (j = 4%nat) as -> by lia. simpl in Hp. injection Hp as <-.
    apply nonce_match in Hs as (key & Hk & ->).
    exists key. split_and!; [done|by apply keyOfMatch_nonce|done].
Qed.

Lemma extractClientKey_attribute_witness :
  ∃ key, alnumToken key ∧
    extractClientKey (str "<html><script nonce=" ++ dquote :: str "n0nce" ++ dquote :: str "></html>")
      = inr key ∧
    str "<script nonce=" ++ dquote :: str "n0nce" ++ dquote :: str ">" =
    str "<script nonce=" ++ dquote :: key ++ dquote :: str ">".
Proof.
  apply (extractClientKey_attribute
           (str "<html><script nonce=" ++ dquote :: str "n0nce" ++ dquote :: str "></html>")
           (str "<script nonce=" ++ dquote :: str "n0nce" ++ dquote :: str ">") 4%nat).
  - vm_compute. reflexivity.
  - by right.
Defined.

(** ** The keys, the tracks and the embed URL of [Extract] *)

Lemma alnum_ascii c : isAlnum c = true → isAscii c.
Proof. unfold isAscii. ascii_cases c; vm_compute; congruence. Qed.

(** X22: [Extract] passes the key [extractClientKey] returns to
    [decryptSrc2] (lines 76 and 111). Such a key is a non-empty ASCII token,
    so for every payload and every server key the division by zero of
    [keygen2] cannot happen, [reverseString] reverses the bytes of the key,
    and the derived key exists, has
    [min(96 + lHash mod 33, len(megacloudKey) + 2 * len(clientKey))] bytes
    and lies within the printable range. *)
Theorem decryptSrc2_with_extracted_key (html clientKey src megacloudKey : list ascii) :
  extractClientKey html = inr clientKey →
  decryptSrc2 src clientKey megacloudKey ≠ Panics DivideByZero ∧
  reverseString clientKey = reverse clientKey ∧
  ∃ genKey,
    keygen2 megacloudKey clientKey = Returns genKey ∧
    len genKey = Z.min (96 + keygenLHash (megacloudKey ++ clientKey) `mod` 33)
                       (len megacloudKey + 2 * len clientKey) ∧
    Forall (fun c => 32 ≤ byteval c ≤ 126) genKey.
Proof.
  intros He. apply extractClientKey_token in He as [Hne Hk].
  assert (Hascii : Forall isAscii clientKey).
  { eapply Forall_impl; [exact Hk|]. intros c. apply alnum_ascii. }
  assert (Hcat : megacloudKey ++ clientKey ≠ []).
  { intros E. apply app_eq_nil in E as [_ E]. done. }
  split_and!.
  - pose proof (decryptSrc2_cases src clientKey megacloudKey) as Ho. intros E.
    rewrite E in Ho. done.
  - by apply reverseString_ascii.
  - destruct (keygen2_returns _ _ Hcat) as (rotated & Hlen & Hg).
    eexists. split; [exact Hg|].
    pose proof (Z.mod_pos_bound (keygenLHash (megacloudKey ++ clientKey)) 33 eq_refl).
    assert (Hil : len (interleave rotated (reverseString clientKey)) =
                  len megacloudKey + 2 * len clientKey).
    { unfold len. rewrite interleave_length, Hlen, length_app, reverseString_ascii by done.
      rewrite length_reverse. lia. }
    split.
    + rewrite Hil. unfold len. rewrite length_fmap, length_take. unfold len in Hil. lia.
    + apply Forall_fmap, Forall_forall. intros c _. apply normalized_range.
Qed.

Lemma decryptSrc2_with_extracted_key_witness :
  extractClientKey c7_both = inr (str "abc123XYZ") ∧
  decryptSrc2 (str "VTpKRA==") (str "abc123XYZ") (str "") ≠ Panics DivideByZero.
Proof.
  assert (H : extractClientKey c7_both = inr (str "abc123XYZ")) by (by vm_compute).
  split; [exact H|].
  exact (proj1 (decryptSrc2_with_extracted_key c7_both (str "abc123XYZ")
                  (str "VTpKRA==") (str "") H)).
Defined.

Lemma Contains_empty s : Contains s [] = true.
Proof. by destruct s. Qed.

Lemma selectLoop_elem pq url sources :
  selectLoop pq url sources = url ∨ selectLoop pq url sources ∈ File <$> sources.
Proof.
  induction sources as [|s rest IH]; [by left|]. cbn [selectLoop].
  destruct (Contains (File s) pq).
  - right. rewrite fmap_cons. by left.
  - destruct IH as [IH|IH]; [by left|]. right. rewrite fmap_cons. by right.
Qed.

(** X29: the edges of the source selection of [Extract]. There is no
    stream URL exactly when the source list is empty (the error of line
    127); a URL that is selected is the file of one of the sources; with an
    empty preferred quality the first source is selected, since every
    string contains the empty string; and a first source whose file
    contains the preferred quality is selected whatever follows it. *)
Theorem selectStreamURL_edge_cases (sources : list source) (preferredQuality : list ascii) :
  (selectStreamURL sources preferredQuality = None ↔ sources = []) ∧
  (∀ url, selectStreamURL sources preferredQuality = Some url → url ∈ File <$> sources) ∧
  selectStreamURL sources [] = File <$> head sources ∧
  (∀ s, Contains (File s) preferredQuality = true →
        selectStreamURL (s :: sources) preferredQuality = Some (File s)).
Proof.
  split_and!.
  - destruct sources; by split.
  - intros url. destruct sources as [|s0 rest]; [done|]. unfold selectStreamURL.
    intros Hu0.
    assert (Hu : selectLoop preferredQuality (File s0) (s0 :: rest) = url) by congruence.
    clear Hu0. destruct (selectLoop_elem preferredQuality (File s0) (s0 :: rest)) as [H|H].
    + rewrite <- Hu, H, fmap_cons. by left.
    + by rewrite <- Hu.
  - destruct sources as [|s0 rest]; [done|]. unfold selectStreamURL. cbn [selectLoop head fmap option_fmap option_map].
    by rewrite Contains_empty.
  - intros s Hs. unfold selectStreamURL. cbn [selectLoop]. by rewrite Hs.
Qed.

Lemma subtitle_fold acc tracks :
  foldl subtitleStep acc tracks =
  acc ++ ((fun t => media.mkSubtitle (Track.Label t) (Track.Label t) (Track.File t)) <$>
          filter (fun t => Track.Kind t = str "captions" ∧ Track.File t ≠ []) tracks).
Proof.
  revert acc. induction tracks as [|t tracks IH]; intros acc.
  - by rewrite app_nil_r.
  - cbn [foldl]. rewrite IH. unfold subtitleStep.
    destruct (decide (Track.Kind t = str "captions")) as [Hk|Hk];
      destruct (decide (Track.File t = [])) as [Hf|Hf].
    + rewrite (bool_decide_eq_false_2 (Track.Kind t ≠ _)) by (intros ?; done).
      rewrite (bool_decide_eq_true_2 (Track.File t = [])) by done. cbn [orb].
      rewrite filter_cons_False; [done|]. intros [_ ?]; done.
    + rewrite (bool_decide_eq_false_2 (Track.Kind t ≠ _)) by (intros ?; done).
      rewrite (bool_decide_eq_false_2 (Track.File t = [])) by done. cbn [orb].
      rewrite filter_cons_True by done. rewrite fmap_cons, <- app_assoc. done.
    + rewrite (bool_decide_eq_true_2 (Track.Kind t ≠ _)) by done. cbn [orb].
      rewrite filter_cons_False; [done|]. intros [? _]; done.
    + rewrite (bool_decide_eq_true_2 (Track.Kind t ≠ _)) by done. cbn [orb].
      rewrite filter_cons_False; [done|]. intros [? _]; done.
Qed.

(** X23: the subtitles of the stream are the tracks of kind [captions]
    (spelled exactly so) that have a file, in the order of the response,
    each with the label of the track as its language and as its label and
    the file as its URL; no subtitle has an empty URL, and there are at most
    as many subtitles as tracks. *)
Theorem mapSubtitles_captions (tracks : list Track.track) :
  mapSubtitles tracks =
    (fun t => media.mkSubtitle (Track.Label t) (Track.Label t) (Track.File t)) <$>
    filter (fun t => Track.Kind t = str "captions" ∧ Track.File t ≠ []) tracks ∧
  Forall (fun s => media.URL s ≠ [] ∧ media.Language s = media.Label s) (mapSubtitles tracks) ∧
  (length (mapSubtitles tracks) ≤ length tracks)%nat.
Proof.
  unfold mapSubtitles. rewrite subtitle_fold. cbn [app]. split_and!.
  - done.
  - apply Forall_fmap, Forall_forall. intros t Ht. apply list_elem_of_filter in Ht as [[_ Hf] _].
    done.
  - rewrite length_fmap. apply length_filter.
Qed.

Lemma Split_nonempty s sep : Split s sep ≠ [].
Proof.
  destruct s as [|c t]; cbn [Split]; [done|].
  destruct (decide (c = sep)); [done|]. by destruct (Split t sep).
Qed.

Lemma Split_cons_ne c t sep :
  c ≠ sep →
  Split (c :: t) sep = (c :: default [] (head (Split t sep))) :: tail (Split t sep).
Proof.
  intros Hc. cbn [Split]. rewrite decide_False by done.
  pose proof (Split_nonempty t sep). by destruct (Split t sep).
Qed.

Lemma Split_app a b sep : Split (a ++ sep :: b) sep = Split a sep ++ Split b sep.
Proof.
  induction a as [|c a IH]; cbn [app].
  - cbn [Split app]. by rewrite decide_True.
  - destruct (decide (c = sep)) as [->|Hc].
    + cbn [Split app]. rewrite !decide_True by done. cbn [app]. by rewrite IH.
    + rewrite !Split_cons_ne by done. rewrite IH.
      pose proof (Split_nonempty a sep). by destruct (Split a sep).
Qed.

Lemma Split_free s sep : sep ∉ s → Split s sep = [s].
Proof.
  induction s as [|c s IH]; intros Hs; [done|].
  apply not_elem_of_cons in Hs as [Hc Hs]. rewrite Split_cons_ne by done.
  by rewrite IH.
Qed.

Lemma Split_parts_free s sep : Forall (fun p => sep ∉ p) (Split s sep).
Proof.
  induction s as [|c s IH].
  - cbn. constructor; [|done]. apply not_elem_of_nil.
  - destruct (decide (c = sep)) as [->|Hc].
    + cbn [Split]. rewrite decide_True by done. constructor; [apply not_elem_of_nil|done].
    + rewrite Split_cons_ne by done. pose proof (Split_nonempty s sep).
      destruct (Split s sep) as [|p ps]; [done|]. apply Forall_cons in IH as [Hp Hps].
      cbn. constructor; [|done]. by apply not_elem_of_cons.
Qed.

Lemma Split_Join parts sep :
  parts ≠ [] → Forall (fun p => sep ∉ p) parts → Split (Join parts sep) sep = parts.
Proof.
  intros Hne Hp. induction Hp as [|p ps Hp Hps IH]; [done|].
  destruct ps as [|q ps].
  - cbn [Join]. by apply Split_free.
  - change (Join (p :: q :: ps) sep) with (p ++ sep :: Join (q :: ps) sep).
    rewrite Split_app, Split_free by done. by rewrite IH.
Qed.

Lemma digit_range c : clsMatch digit c = true ↔ isDigit c.
Proof.
  unfold isDigit. ascii_cases c; vm_compute; split; intros H; try done;
    try (destruct H as [H1 H2]; first [by destruct H1 | by destruct H2]).
Qed.

Lemma matchStarEnd_all k s :
  matchStarEnd k (MatchWhole []) s = true ↔ Forall (fun c => clsMatch k c = true) s.
Proof.
  induction s as [|c s IH]; cbn [matchStarEnd MatchWhole].
  - split; [done|]. intros _. by apply bool_decide_eq_true.
  - rewrite orb_true_iff, andb_true_iff, IH, bool_decide_eq_true. split.
    + intros [[Hc Hs]|?]; [by constructor|done].
    + intros Hs. apply Forall_cons in Hs. by left.
Qed.

Lemma MatchWhole_lits l re s :
  MatchWhole (lits l ++ re) s = true ↔ ∃ t, s = l ++ t ∧ MatchWhole re t = true.
Proof.
  revert s. induction l as [|c l IH]; intros s; cbn [lits fmap list_fmap app].
  - split; [by exists s|]. by intros (t & -> & Ht).
  - change ((fun c => One (Lit c)) <$> l) with (lits l). cbn [MatchWhole].
    destruct s as [|d s].
    + split; [done|]. by intros (t & ? & _).
    + cbn [clsMatch]. rewrite andb_true_iff, bool_decide_eq_true, IH. split.
      * intros (-> & t & -> & Ht). by exists t.
      * intros (t & [= -> ->] & Ht). split; [done|]. by exists t.
Qed.

Lemma embedPrefixRe_spec p :
  MatchWhole embedPrefixRe p = true ↔
  ∃ ds, ds ≠ [] ∧ Forall isDigit ds ∧ p = str "embed-" ++ ds.
Proof.
  change embedPrefixRe with (lits (str "embed-") ++ [Plus digit]).
  rewrite MatchWhole_lits. split.
  - intros (t & -> & Ht). exists t. cbn [MatchWhole] in Ht.
    destruct t as [|c t]; [done|]. apply andb_true_iff in Ht as [Hc Ht].
    apply matchStarEnd_all in Ht. split_and!; try done.
    constructor; [by apply digit_range|].
    eapply Forall_impl; [exact Ht|]. intros d. apply digit_range.
  - intros (ds & Hne & Hds & ->). exists ds. split; [done|].
    destruct Hds as [|c ds Hc Hds]; [done|]. cbn [MatchWhole].
    apply andb_true_iff. split; [by apply digit_range|].
    apply matchStarEnd_all. eapply Forall_impl; [exact Hds|]. intros d. apply digit_range.
Qed.

Lemma parseEmbedURL_cases (u : URL) :
  match parseEmbedURL u with
  | inr (domain, embedPrefix, sourceID) =>
    domain = Host u ∧
    (∃ ds, ds ≠ [] ∧ Forall isDigit ds ∧ embedPrefix = str "embed-" ++ ds) ∧
    sourceID ≠ [] ∧ ("/"%char ∉ sourceID) ∧
    sourceID ∈ Split (TrimPrefix (Path u) (str "/")) "/"
  | inl e => e = NoSourceID
  end.
Proof.
  unfold parseEmbedURL. set (parts := Split (TrimPrefix (Path u) (str "/")) "/").
  pose proof (Split_nonempty (TrimPrefix (Path u) (str "/")) "/") as Hne. fold parts in Hne.
  pose proof (Split_parts_free (TrimPrefix (Path u) (str "/")) "/") as Hfree. fold parts in Hfree.
  cbv zeta. destruct (Nat.eqb_spec (length parts) 0) as [H0|_].
  { by destruct parts. }
  set (id := if bool_decide (parts !!! (length parts - 1)%nat = []) && (1 <? length parts)%nat
             then parts !!! (length parts - 2)%nat else parts !!! (length parts - 1)%nat).
  case_bool_decide as Hid; [done|].
  assert (Hin : id ∈ parts).
  { unfold id. destruct (_ && _) eqn:Hc.
    - apply andb_true_iff in Hc as [_ Hc]. apply Nat.ltb_lt in Hc.
      apply list_elem_of_lookup_total_2. lia.
    - apply list_elem_of_lookup_total_2. destruct parts; [done|]. simpl. lia. }
  split_and!; try done.
  - destruct (MatchWhole embedPrefixRe (parts !!! 0%nat)) eqn:Hm; cbn [negb].
    + by apply embedPrefixRe_spec.
    + exists (str "2"). split_and!; try done. constructor; [by vm_compute|done].
  - rewrite Forall_forall in Hfree. by apply Hfree.
Qed.

(** X24: what [parseEmbedURL] can return for a parsed URL. On success the
    domain is the host of the URL, the embed prefix is [embed-] followed by
    one or more decimal digits (the first path segment when it has that
    form, [embed-2] otherwise), and the source ID is a non-empty path
    segment without a slash. The only error is the one of a missing source
    ID: the error of an empty path (line 174) is never returned. *)
Theorem parseEmbedURL_outcomes (u : URL) :
  match parseEmbedURL u with
  | inr (domain, embedPrefix, sourceID) =>
    domain = Host u ∧
    (∃ ds, ds ≠ [] ∧ Forall isDigit ds ∧ embedPrefix = str "embed-" ++ ds) ∧
    sourceID ≠ [] ∧ ("/"%char ∉ sourceID) ∧
    sourceID ∈ Split (TrimPrefix (Path u) (str "/")) "/"
  | inl e => e = NoSourceID
  end.
Proof. apply parseEmbedURL_cases. Qed.

Lemma lookup_total_last {A} `{Inhabited A} (l : list A) (x : A) :
  (l ++ [x]) !!! (length (l ++ [x]) - 1)%nat = x.
Proof.
  rewrite length_app. cbn [length]. replace (length l + 1 - 1)%nat with (length l) by lia.
  by apply list_lookup_total_middle.
Qed.

Lemma lookup_total_last2 {A} `{Inhabited A} (l : list A) (x y : A) :
  (l ++ [x; y]) !!! (length (l ++ [x; y]) - 2)%nat = x.
Proof.
  rewrite length_app. cbn [length]. replace (length l + 2 - 2)%nat with (length l) by lia.
  by apply list_lookup_total_middle.
Qed.

(** X25: for a path of the documented shape, a slash and two or more
    segments separated by slashes of which the last is not empty,
    [parseEmbedURL] returns the host, the first segment when it is [embed-]
    and digits and [embed-2] otherwise, and the last segment as the source
    ID; one slash at the end of the path changes nothing. *)
Theorem parseEmbedURL_segments (host first : list ascii) (mid : list (list ascii))
    (id : list ascii) :
  "/"%char ∉ first → Forall (fun p => "/"%char ∉ p) mid → "/"%char ∉ id → id ≠ [] →
  let prefix := if MatchWhole embedPrefixRe first then first else str "embed-2" in
  parseEmbedURL (mkURL host (str "/" ++ Join (first :: mid ++ [id]) "/")) =
    inr (host, prefix, id) ∧
  parseEmbedURL (mkURL host (str "/" ++ Join (first :: mid ++ [id]) "/" ++ str "/")) =
    inr (host, prefix, id).
Proof.
  intros Hf Hmid Hid Hne prefix.
  assert (Hparts : Forall (fun p => "/"%char ∉ p) (first :: mid ++ [id])).
  { constructor; [done|]. apply Forall_app. split; [done|]. by apply Forall_singleton. }
  assert (Htrim : ∀ s, TrimPrefix (str "/" ++ s) (str "/") = s).
  { intros s. unfold TrimPrefix. rewrite (proj2 (hasPrefix_spec _ _)) by (by exists s). done. }
  assert (Hprefix : (if negb (MatchWhole embedPrefixRe first) then str "embed-2" else first)
                    = prefix).
  { unfold prefix. by destruct (MatchWhole embedPrefixRe first). }
  split.
  - unfold parseEmbedURL. cbn [Host Path]. rewrite Htrim, Split_Join by done. cbv zeta.
    change (first :: mid ++ [id]) with ((first :: mid) ++ [id]).
    rewrite lookup_total_last. rewrite (bool_decide_eq_false_2 (id = [])) by done.
    cbn [andb]. rewrite (bool_decide_eq_false_2 (id = [])) by done.
    destruct (Nat.eqb_spec (length ((first :: mid) ++ [id])) 0) as [H0|_].
    { rewrite length_app in H0. simpl in H0. lia. }
    change (((first :: mid) ++ [id]) !!! 0%nat) with first. by rewrite Hprefix.
  - unfold parseEmbedURL. cbn [Host Path]. rewrite Htrim.
    change (Join (first :: mid ++ [id]) "/" ++ str "/")
      with (Join (first :: mid ++ [id]) "/" ++ "/"%char :: []).
    rewrite Split_app, Split_Join by done. change (Split [] "/") with [@nil ascii]. cbv zeta.
    change (first :: mid ++ [id]) with ((first :: mid) ++ [id]). rewrite <- app_assoc.
    change ([id] ++ [[]]) with [id; @nil ascii].
    assert (Hl : (1 <? length ((first :: mid) ++ [id; []]))%nat = true).
    { apply Nat.ltb_lt. rewrite length_app. simpl. lia. }
    rewrite Hl, lookup_total_last2.
    assert (Hz : ((first :: mid) ++ [id; []]) !!! (length ((first :: mid) ++ [id; []]) - 1)%nat
                 = []).
    { rewrite (app_assoc _ [id] [[]]). apply (lookup_total_last ((first :: mid) ++ [id]) []). }
    rewrite Hz. rewrite (bool_decide_eq_true_2 (@nil ascii = [])) by done. cbn [andb].
    rewrite (bool_decide_eq_false_2 (id = [])) by done.
    destruct (Nat.eqb_spec (length ((first :: mid) ++ [id; []])) 0) as [H0|_].
    { rewrite length_app in H0. simpl in H0. lia. }
    change (((first :: mid) ++ [id; []]) !!! 0%nat) with first. by rewrite Hprefix.
Qed.

Lemma parseEmbedURL_segments_witness :
  parseEmbedURL (mkURL (str "streameeeeee.site") (str "/embed-1/v3/e-1/AbCdEf123")) =
    inr (str "streameeeeee.site", str "embed-1", str "AbCdEf123") ∧
  parseEmbedURL (mkURL (str "streameeeeee.site") (str "/embed-1/v3/e-1/AbCdEf123/")) =
    inr (str "streameeeeee.site", str "embed-1", str "AbCdEf123").
Proof.
  apply (parseEmbedURL_segments (str "streameeeeee.site") (str "embed-1")
           [str "v3"; str "e-1"] (str "AbCdEf123")).
  - apply (bool_decide_unpack _). by vm_compute.
  - apply (bool_decide_unpack _). by vm_compute.
  - apply (bool_decide_unpack _). by vm_compute.
  - done.
Defined.

Lemma Split_decompose (s : list ascii) (sep : ascii) :
  ((sep ∉ s) ∧ Split s sep = [s]) ∨
  (∃ a b, s = a ++ sep :: b ∧ (sep ∉ b) ∧ Split s sep = Split a sep ++ [b]).
Proof.
  destruct (decide (sep ∈ s)) as [Hin|Hin].
  - right. apply list_elem_of_split_r in Hin as (a & b & -> & Hb).
    exists a, b. split_and!; try done. by rewrite Split_app, (Split_free b).
  - left. split; [done|]. by apply Split_free.
Qed.

Lemma run_unique_r (a b a' b' : list ascii) :
  a ++ "/"%char :: b = a' ++ "/"%char :: b' → "/"%char ∉ b → "/"%char ∉ b' →
  a = a' ∧ b = b'.
Proof.
  intros E Hb Hb'. apply (f_equal reverse) in E.
  rewrite !reverse_app, !reverse_cons, <- !app_assoc in E. cbn [app] in E.
  assert (H : reverse b = reverse b' ∧ reverse a = reverse a').
  { revert E. generalize (reverse a) (reverse a').
    assert (Hrb : "/"%char ∉ reverse b) by (by rewrite elem_of_reverse).
    assert (Hrb' : "/"%char ∉ reverse b') by (by rewrite elem_of_reverse).
    revert Hrb Hrb'. generalize (reverse b) (reverse b'). clear.
    induction l as [|x l IH]; intros [|y l'] H1 H2 r r' E; cbn [app] in E.
    - by injection E as ->.
    - injection E as <- _. destruct H2. by left.
    - injection E as -> _. destruct H1. by left.
    - injection E as -> E. apply not_elem_of_cons in H1 as [_ H1], H2 as [_ H2].
      destruct (IH l' H1 H2 r r' E) as [-> ->]. done. }
  destruct H as [H1 H2]. apply (inj reverse) in H1, H2. done.
Qed.

Lemma parseEmbedURL_id (u : URL) (parts : list (list ascii)) (x : list ascii) :
  Split (TrimPrefix (Path u) (str "/")) "/" = parts ++ [x] →
  parseEmbedURL u = inl NoSourceID ↔
  x = [] ∧ (parts = [] ∨ ∃ parts' , parts = parts' ++ [[]]).
Proof.
  intros Hs. unfold parseEmbedURL. rewrite Hs. cbv zeta.
  destruct (Nat.eqb_spec (length (parts ++ [x])) 0) as [H0|_].
  { rewrite length_app in H0. simpl in H0. lia. }
  rewrite lookup_total_last.
  destruct (decide (x = [])) as [->|Hx].
  - rewrite (bool_decide_eq_true_2 (@nil ascii = [])) by done.
    destruct parts as [|p parts _] using rev_ind.
    + cbn. split; [|done]. intros _. split; [done|by left].
    + assert (Hl : (1 <? length ((parts ++ [p]) ++ [[]]))%nat = true).
      { apply Nat.ltb_lt. rewrite !length_app. simpl. lia. }
      rewrite Hl. cbn [andb]. rewrite <- app_assoc. change ([p] ++ [[]]) with [p; @nil ascii].
      rewrite lookup_total_last2. case_bool_decide as Hp.
      * subst p. split; [|done]. intros _. split; [done|]. right. by exists parts.
      * split; [done|]. intros [_ [Hc|(parts' & Hc)]].
        -- by destruct parts.
        -- apply app_inj_tail in Hc as [_ ->]. done.
  - rewrite (bool_decide_eq_false_2 (x = [])) by done. cbn [andb].
    rewrite (bool_decide_eq_false_2 (x = [])) by done. split; [done|]. by intros [? _].
Qed.

(** X26: [parseEmbedURL] fails for a parsed URL exactly when its path,
    after one leading slash is removed, is empty, is a single slash, or ends
    in two slashes. *)
Theorem parseEmbedURL_fails_iff (u : URL) :
  let path := TrimPrefix (Path u) (str "/") in
  (∃ e, parseEmbedURL u = inl e) ↔
  path = [] ∨ path = str "/" ∨ ∃ q, path = q ++ str "//".
Proof.
  cbv zeta. set (path := TrimPrefix (Path u) (str "/")).
  assert (Hiff : (∃ e, parseEmbedURL u = inl e) ↔ parseEmbedURL u = inl NoSourceID).
  { pose proof (parseEmbedURL_cases u) as Ho. split.
    - intros [e He]. rewrite He in Ho. by subst.
    - intros He. by exists NoSourceID. }
  rewrite Hiff. clear Hiff.
  destruct (Split_decompose path "/") as [[Hfree Hs]|(a & b & Ha & Hb & Hs)].
  - rewrite (parseEmbedURL_id u [] path) by done. split.
    + intros [-> _]. by left.
    + intros [->|[->|(q & ->)]].
      * split; [done|by left].
      * destruct Hfree. by left.
      * destruct Hfree. apply elem_of_app. right. by left.
  - rewrite (parseEmbedURL_id u (Split a "/") b) by done. rewrite Ha.
    pose proof (Split_nonempty a "/") as Hne. split.
    + intros [-> [Hc|(parts' & Hc)]]; [done|].
      destruct (Split_decompose a "/") as [[_ Hsa]|(a' & b' & -> & _ & Hsa)].
      * rewrite Hsa in Hc. destruct parts' as [|? [|? ?]]; try done.
        injection Hc as ->. right. by left.
      * rewrite Hsa in Hc. apply app_inj_tail in Hc as [_ ->].
        right. right. exists a'. by rewrite <- app_assoc.
    + intros [Hc|[Hc|(q & Hc)]].
      * by destruct a.
      * destruct (run_unique_r a b [] []) as [-> ->]; try done.
        { apply not_elem_of_nil. }
        split; [done|]. right. by exists [].
      * change (str "//") with ["/"%char; "/"%char] in Hc.
        assert (E : a ++ "/"%char :: b = (q ++ ["/"%char]) ++ "/"%char :: []).
        { by rewrite Hc, <- app_assoc. }
        destruct (run_unique_r a b (q ++ ["/"%char]) []) as [-> ->]; try done.
        { apply not_elem_of_nil. }
        split; [done|]. right. exists (Split q "/").
        change (q ++ ["/"%char]) with (q ++ "/"%char :: []). by rewrite Split_app.
Qed.

(** ** The key cache of [getMegacloudKey] *)

(** X27: when [getMegacloudKey] returns a key, the cache of the extractor
    holds a map with that key under [mega], and every later call returns
    the same key and sends no request, whatever the network would answer.
    The call itself either found the key in the cache and left the state
    as it was, or sent exactly one request, whose reply it stored. *)
Theorem getMegacloudKey_cached (net : nat → keysReply) (st st' : MegaCloudExtractor * nat)
    (key : list ascii) :
  getMegacloudKey net st = (st', inr key) →
  (∃ ks, keys st'.1 = Some ks ∧ ks !! str "mega" = Some key) ∧
  (∀ net', getMegacloudKey net' st' = (st', inr key)) ∧
  (st'.2 = st.2 ∧ st' = st ∨
   st'.2 = S st.2 ∧ ∃ ks, net st.2 = KeysObject (Some ks) ∧ keys st'.1 = Some ks).
Proof.
  destruct st as [[ks0] sent]. unfold getMegacloudKey at 1. cbn [keys].
  assert (Hstable : ∀ ks n net', ks !! str "mega" = Some key →
            getMegacloudKey net' (mkExtractor (Some ks), n) = (mkExtractor (Some ks), n, inr key)).
  { intros ks n net' Hk. unfold getMegacloudKey. cbn [keys]. by rewrite Hk. }
  destruct (match ks0 with Some ks => ks !! str "mega" | None => None end) as [k|] eqn:Hc.
  - intros [= <- <-]. destruct ks0 as [ks|]; [|done]. cbn [fst snd keys]. split_and!.
    + by exists ks.
    + intros net'. by apply Hstable.
    + by left.
  - destruct (net sent) as [| |[ks|]] eqn:Hn; try done.
    destruct (ks !! str "mega") as [k|] eqn:Hk; [|done].
    intros [= <- <-]. cbn [fst snd keys]. split_and!.
    + by exists ks.
    + intros net'. by apply Hstable.
    + right. split; [done|]. by exists ks.
Qed.

Lemma getMegacloudKey_cached_witness :
  getMegacloudKey (fun _ => RequestFailed)
    (mkExtractor (Some {[ str "mega" := str "k1" ]}), 1%nat) =
  (mkExtractor (Some {[ str "mega" := str "k1" ]}), 1%nat, inr (str "k1")).
Proof.
  assert (H : getMegacloudKey (fun _ => KeysObject (Some {[ str "mega" := str "k1" ]}))
                (mkExtractor None, 0%nat) =
              (mkExtractor (Some {[ str "mega" := str "k1" ]}), 1%nat, inr (str "k1"))).
  { unfold getMegacloudKey. cbn [keys]. rewrite lookup_singleton_eq. reflexivity. }
  exact (proj1 (proj2 (getMegacloudKey_cached _ _ _ _ H)) (fun _ => RequestFailed)).
Defined.

(** X28: when [getMegacloudKey] fails it has sent exactly one request. After
    a failed request or a body that is not JSON the cache is as it was;
    after a reply that decodes to a map without [mega] (or to [null]) the
    cache is that reply, although the call failed, and the next call sends
    a request again. *)
Theorem getMegacloudKey_failure (net : nat → keysReply) (st st' : MegaCloudExtractor * nat)
    (e : megaKeyError) :
  getMegacloudKey net st = (st', inl e) →
  st'.2 = S st.2 ∧
  match e with
  | FetchingKeys => net st.2 = RequestFailed ∧ st'.1 = st.1
  | ParsingKeys => net st.2 = NotJSON ∧ st'.1 = st.1
  | MegaKeyNotFound =>
    ∃ ks, net st.2 = KeysObject ks ∧ st'.1 = mkExtractor ks ∧
          match ks with Some ks => ks !! str "mega" = None | None => True end
  end.
Proof.
  destruct st as [[ks0] sent]. unfold getMegacloudKey. cbn [keys].
  destruct (match ks0 with Some ks => ks !! str "mega" | None => None end) as [k|] eqn:Hc;
    [done|].
  destruct (net sent) as [| |ks] eqn:Hn.
  - by intros [= <- <-].
  - by intros [= <- <-].
  - destruct (match ks with Some ks => ks !! str "mega" | None => None end) as [k|] eqn:Hk;
      [done|].
    intros [= <- <-]. cbn [fst snd]. split; [done|]. exists ks. split_and!; try done.
    by destruct ks.
Qed.

Lemma getMegacloudKey_failure_witness :
  (mkExtractor (Some ∅), 1%nat).2 = S (mkExtractor None, 0%nat).2 ∧
  ∃ ks, KeysObject (Some ∅) = KeysObject ks ∧
        (mkExtractor (Some ∅), 1%nat).1 = mkExtractor ks ∧
        match ks with Some ks => ks !! str "mega" = None | None => True end.
Proof.
  apply (getMegacloudKey_failure (fun _ => KeysObject (Some ∅))
           (mkExtractor None, 0%nat) (mkExtractor (Some ∅), 1%nat) MegaKeyNotFound).
  reflexivity.
Defined.
